(** * Hackflight: arming, receiver fail-safe, rc smoothing and MSP framing

    A shallow embedding of the parts of the Hackflight flight firmware that
    decide its safety behaviour:

    - [Board]    : the arming record and its writers (src/board.h);
    - [Receiver] : per-channel signal-loss handling, the fail-safe table,
                   frame-rate training and cut-off selection (src/receiver.h);
    - [Msp]      : the MSP byte parser and the reply serialiser
                   (src/parser.hpp).

    C integers are modelled by [Z] with the wrap-around of their width
    written out.  C [float] is IEEE-754 binary32, modelled by the standard
    library's executable specification [spec_float] at precision 24; see
    module [F32].  Arrays are lists read with [!!] and written with
    [<[ i := x ]>]. *)

From stdpp Require Import base list.
From Stdlib Require Import ZArith Lia Bool QArith Qround Qpower.
From Stdlib Require Import Floats.SpecFloat.

Open Scope Z_scope.

(** ** Fixed-width integers *)

Definition to_uint8 (z : Z) : Z := z mod 256.
Definition to_uint16 (z : Z) : Z := z mod 65536.
Definition to_uint32 (z : Z) : Z := z mod 4294967296.

(** Conversion to a signed 32-bit integer (two's complement). *)
Definition to_int32 (z : Z) : Z :=
  let u := to_uint32 z in
  if u <? 2147483648 then u else u - 4294967296.

(** [cmp32] of receiver.h: [(int32_t)(a - b)] on unsigned operands. *)
Definition cmp32 (a b : Z) : Z := to_int32 (a - b).

(** ** Single-precision floats *)

Module F32.

Definition prec : Z := 24.
Definition emax : Z := 128.

Definition float : Type := spec_float.

Definition add : float -> float -> float := SFadd prec emax.
Definition sub : float -> float -> float := SFsub prec emax.
Definition mul : float -> float -> float := SFmul prec emax.
Definition div : float -> float -> float := SFdiv prec emax.

Definition ltb : float -> float -> bool := SFltb.
Definition leb : float -> float -> bool := SFleb.
Definition eqb : float -> float -> bool := SFeqb.

(** Integer to float conversion (round to nearest even). *)
Definition of_Z (z : Z) : float := binary_normalize prec emax z 0 false.

(** Float to integer conversion of a C cast: the fraction is dropped
    (rounding toward zero).  C leaves the cast undefined on NaN and
    infinities; they are sent to 0 here. *)
Definition to_Z (x : float) : Z :=
  match x with
  | S754_finite s m e =>
      let a := match e with
               | Zneg p => Z.shiftr (Zpos m) (Zpos p)
               | _ => Z.shiftl (Zpos m) e
               end in
      if s then - a else a
  | _ => 0
  end.

(** [lrintf]: rounding to the nearest integer, ties to even (the default
    rounding mode). *)
Definition lrintf (x : float) : Z :=
  match x with
  | S754_finite s m e =>
      let a := match e with
               | Zneg p =>
                   let d := Z.shiftl 1 (Zpos p) in
                   let q := Zpos m / d in
                   let r := Zpos m mod d in
                   match 2 * r ?= d with
                   | Lt => q
                   | Gt => q + 1
                   | Eq => if Z.even q then q else q + 1
                   end
               | _ => Z.shiftl (Zpos m) e
               end in
      if s then - a else a
  | _ => 0
  end.

Definition is_nan (x : float) : bool :=
  match x with S754_nan => true | _ => false end.

(** [fmaxf] and [fminf]: a NaN operand is ignored. *)
Definition fmaxf (x y : float) : float :=
  if is_nan x then y else if is_nan y then x
  else if ltb x y then y else x.

Definition fminf (x y : float) : float :=
  if is_nan x then y else if is_nan y then x
  else if ltb y x then y else x.

(** The rational number a float stands for (0 for NaN and infinities). *)
Definition to_Q (x : float) : Q :=
  match x with
  | S754_finite s m e =>
      let v := (inject_Z (Zpos m) * Qpower 2 e)%Q in
      if s then Qopp v else v
  | _ => 0%Q
  end.

(** The canonical binary32 form of a positive integer below [2^24]:
    a 24-bit mantissa and the matching exponent. *)
Definition norm_pos (sx : bool) (v : positive) : float :=
  let d := Zpos (digits2_pos v) in
  S754_finite sx (Z.to_pos (Zpos v * 2 ^ (24 - d))) (d - 24).

(** The float is not negative (NaN counts as not negative). *)
Definition nonneg (x : float) : bool :=
  match x with
  | S754_zero s | S754_infinity s | S754_finite s _ _ => negb s
  | S754_nan => true
  end.

(** Magnitudes against a power of two, on the mantissa and exponent:
    [ge_pow2 x k] reads [2^k <= x] and [le_pow2 x k] reads
    [0 <= x <= 2^k]. *)
Definition ge_pow2 (x : float) (k : Z) : Prop :=
  match x with
  | S754_finite false m e => k <= e \/ 2 ^ (k - e) <= Zpos m
  | S754_infinity false => True
  | _ => False
  end.

Definition le_pow2 (x : float) (k : Z) : Prop :=
  match x with
  | S754_zero _ => True
  | S754_finite false m e => e <= k /\ Zpos m <= 2 ^ (k - e)
  | _ => False
  end.

(** Zero, or positive and possibly infinite: what sums and quotients of
    such floats are again. *)
Definition pos0 (x : float) : Prop :=
  match x with
  | S754_zero _ => True
  | S754_finite s _ _ | S754_infinity s => s = false
  | S754_nan => False
  end.

End F32.

(** ** The arming record and its writers (src/board.h) *)

Module Board.

(** [m_arming]: the flags [Board] reads and writes. *)
Record arming_t := {
  isArmed : bool;
  haveSignal : bool;
  gotFailsafe : bool;
  throttleIsDown : bool;
  switchOkay : bool;
  angleOkay : bool;
  gyroDoneCalibrating : bool;
  accDoneCalibrating : bool
}.

(** What the arming code does to the outside: the ESC and the LED. *)
Inductive effect :=
| EscStop
| LedSet (on : bool)
| WarningBlink
| WarningDisable
| LedWarningUpdate.

(** The part of [Board] the arming code touches: [m_arming], the static
    [_doNotRepeat] of [attemptToArm], and the effects issued so far (most
    recent first). *)
Record board := {
  m_arming : arming_t;
  doNotRepeat : bool;
  effects : list effect
}.

(** State after a cold boot: every flag false. *)
Definition boot : board :=
  {| m_arming := {| isArmed := false; haveSignal := false;
                    gotFailsafe := false; throttleIsDown := false;
                    switchOkay := false; angleOkay := false;
                    gyroDoneCalibrating := false;
                    accDoneCalibrating := false |};
     doNotRepeat := false;
     effects := [] |}.

Definition with_arming (f : arming_t -> arming_t) (b : board) : board :=
  {| m_arming := f (m_arming b);
     doNotRepeat := doNotRepeat b;
     effects := effects b |}.

Definition emit (e : effect) (b : board) : board :=
  {| m_arming := m_arming b;
     doNotRepeat := doNotRepeat b;
     effects := e :: effects b |}.

Definition set_isArmed (v : bool) (a : arming_t) : arming_t :=
  {| isArmed := v; haveSignal := haveSignal a;
     gotFailsafe := gotFailsafe a; throttleIsDown := throttleIsDown a;
     switchOkay := switchOkay a; angleOkay := angleOkay a;
     gyroDoneCalibrating := gyroDoneCalibrating a;
     accDoneCalibrating := accDoneCalibrating a |}.

Definition set_haveSignal (v : bool) (a : arming_t) : arming_t :=
  {| isArmed := isArmed a; haveSignal := v;
     gotFailsafe := gotFailsafe a; throttleIsDown := throttleIsDown a;
     switchOkay := switchOkay a; angleOkay := angleOkay a;
     gyroDoneCalibrating := gyroDoneCalibrating a;
     accDoneCalibrating := accDoneCalibrating a |}.

Definition set_gotFailsafe (v : bool) (a : arming_t) : arming_t :=
  {| isArmed := isArmed a; haveSignal := haveSignal a;
     gotFailsafe := v; throttleIsDown := throttleIsDown a;
     switchOkay := switchOkay a; angleOkay := angleOkay a;
     gyroDoneCalibrating := gyroDoneCalibrating a;
     accDoneCalibrating := accDoneCalibrating a |}.

Definition set_throttleIsDown (v : bool) (a : arming_t) : arming_t :=
  {| isArmed := isArmed a; haveSignal := haveSignal a;
     gotFailsafe := gotFailsafe a; throttleIsDown := v;
     switchOkay := switchOkay a; angleOkay := angleOkay a;
     gyroDoneCalibrating := gyroDoneCalibrating a;
     accDoneCalibrating := accDoneCalibrating a |}.

Definition set_switchOkay (v : bool) (a : arming_t) : arming_t :=
  {| isArmed := isArmed a; haveSignal := haveSignal a;
     gotFailsafe := gotFailsafe a; throttleIsDown := throttleIsDown a;
     switchOkay := v; angleOkay := angleOkay a;
     gyroDoneCalibrating := gyroDoneCalibrating a;
     accDoneCalibrating := accDoneCalibrating a |}.

(** [Board::readyToArm]. *)
Definition readyToArm (b : board) : bool :=
  let a := m_arming b in
  accDoneCalibrating a &&
  angleOkay a &&
  negb (gotFailsafe a) &&
  haveSignal a &&
  gyroDoneCalibrating a &&
  switchOkay a &&
  throttleIsDown a.

(** [Board::disarm]: the ESC is stopped before the flag is cleared. *)
Definition disarm (b : board) : board :=
  let b1 := if isArmed (m_arming b) then emit EscStop b else b in
  with_arming (set_isArmed false) b1.

(** [Board::attemptToArm].  [escIsReady] is the answer of
    [m_esc->isReady(usec)].  The two [return] statements of the source leave
    the function before the [_doNotRepeat] update. *)
Definition attemptToArm (escIsReady aux1IsSet : bool) (b : board) : board :=
  let finish (b' : board) : board :=
    if negb (isArmed (m_arming b') || doNotRepeat b' || negb (readyToArm b'))
    then {| m_arming := m_arming b'; doNotRepeat := true;
            effects := effects b' |}
    else b' in
  if aux1IsSet then
    if readyToArm b then
      if isArmed (m_arming b) then b
      else if negb escIsReady then b
      else finish (with_arming (set_isArmed true) b)
    else finish b
  else
    finish (if isArmed (m_arming b)
            then with_arming (set_isArmed false) (disarm b)
            else b).

(** [Board::updateFromReceiver]. *)
Definition updateFromReceiver
    (throttleIsDown' aux1IsSet haveSignal' : bool) (b : board) : board :=
  let b1 :=
    if isArmed (m_arming b) then
      if negb haveSignal' && haveSignal (m_arming b) then
        disarm (with_arming (set_gotFailsafe true) b)
      else emit (LedSet true) b
    else
      let b2 := with_arming (set_throttleIsDown throttleIsDown') b in
      let b3 :=
        if negb (readyToArm b2) && aux1IsSet
        then with_arming (set_switchOkay false) b2
        else if negb aux1IsSet
             then with_arming (set_switchOkay true) b2
             else b2 in
      let b4 :=
        if negb (readyToArm b3) then emit WarningBlink b3
        else emit WarningDisable b3 in
      emit LedWarningUpdate b4 in
  with_arming (set_haveSignal haveSignal') b1.

(** [Receiver::state_e], as [receiver->getState()] reports it. *)
Inductive state_e := STATE_CHECK | STATE_PROCESS | STATE_MODES | STATE_UPDATE.

(** What [updateArmingFromReceiver] reads from the receiver and the ESC. *)
Record rx_view := {
  rx_state : state_e;
  rx_throttleIsDown : bool;
  rx_aux1IsSet : bool;
  rx_hasSignal : bool;
  esc_isReady : bool
}.

(** [Board::updateArmingFromReceiver]. *)
Definition updateArmingFromReceiver (rx : rx_view) (b : board) : board :=
  match rx_state rx with
  | STATE_UPDATE => attemptToArm (esc_isReady rx) (rx_aux1IsSet rx) b
  | STATE_CHECK =>
      updateFromReceiver (rx_throttleIsDown rx) (rx_aux1IsSet rx)
                         (rx_hasSignal rx) b
  | _ => b
  end.

(** Modelled from the spec: [Arming::updateFromImu] (arming.h is not among
    the sources).  The attitude task reports whether the vehicle is level
    and whether the gyro and the accelerometer are calibrated; the three
    flags take whatever values it reports. *)
Definition updateFromImu (angle gyro acc : bool) (b : board) : board :=
  with_arming (fun a =>
    {| isArmed := isArmed a; haveSignal := haveSignal a;
       gotFailsafe := gotFailsafe a; throttleIsDown := throttleIsDown a;
       switchOkay := switchOkay a; angleOkay := angle;
       gyroDoneCalibrating := gyro;
       accDoneCalibrating := acc |}) b.

(** The two dynamic tasks of [checkDynamicTasks] that write the arming
    record. *)
Inductive task :=
| TaskReceiver (rx : rx_view)
| TaskAttitude (angle gyro acc : bool).

Definition step (b : board) (t : task) : board :=
  match t with
  | TaskReceiver rx => updateArmingFromReceiver rx b
  | TaskAttitude angle gyro acc => updateFromImu angle gyro acc b
  end.

Definition run (b : board) (ts : list task) : board := foldl step b ts.

(** The arm switch as a task sees it ([None] for the attitude task). *)
Definition task_aux1 (t : task) : option bool :=
  match t with
  | TaskReceiver rx =>
      match rx_state rx with
      | STATE_UPDATE | STATE_CHECK => Some (rx_aux1IsSet rx)
      | _ => None
      end
  | TaskAttitude _ _ _ => None
  end.

(** A task that does not show the arm switch deasserted. *)
Definition switch_never_off (t : task) : bool :=
  match task_aux1 t with Some false => false | _ => true end.

(** Sample inputs: an armed board with signal; a receiver task in the
    CHECK state and one in the UPDATE state. *)
Definition armed_board : board :=
  {| m_arming := {| isArmed := true; haveSignal := true;
                    gotFailsafe := false; throttleIsDown := true;
                    switchOkay := true; angleOkay := true;
                    gyroDoneCalibrating := true;
                    accDoneCalibrating := true |};
     doNotRepeat := false; effects := [] |}.

Definition rx_check (thr aux1 sig : bool) : task :=
  TaskReceiver {| rx_state := STATE_CHECK; rx_throttleIsDown := thr;
                  rx_aux1IsSet := aux1; rx_hasSignal := sig;
                  esc_isReady := true |}.

Definition rx_update (aux1 : bool) : task :=
  TaskReceiver {| rx_state := STATE_UPDATE; rx_throttleIsDown := true;
                  rx_aux1IsSet := aux1; rx_hasSignal := true;
                  esc_isReady := true |}.

End Board.

(** ** The receiver pipeline (src/receiver.h) *)

Module Receiver.

Definition CHANNEL_COUNT : nat := 18.
Definition SMOOTHING_CUTOFF_MIN_HZ : Z := 15.
Definition SMOOTHING_FILTER_RETRAINING_SAMPLES : Z := 20.
Definition SMOOTHING_FILTER_TRAINING_SAMPLES : Z := 50.
Definition SMOOTHING_RATE_MAX_US : Z := 65500.
Definition SMOOTHING_RATE_MIN_US : Z := 950.
Definition DELAY_15_HZ : Z := 1000000 / 15.
Definition MAX_INVALID__PULSE_TIME : Z := 300.
Definition PWM_PULSE_MIN : Z := 750.
Definition PWM_PULSE_MAX : Z := 2250.
Definition UINT16_MAX : Z := 65535.

(** Modelled from the spec: the channel indices (datatypes.h is not among
    the sources).  The first four slots are throttle, roll, pitch, yaw. *)
Definition THROTTLE : nat := 0.
Definition ROLL : nat := 1.
Definition PITCH : nat := 2.
Definition YAW : nat := 3.

(** [failsafeChannelMode_e]. *)
Definition FAILSAFE_MODE_AUTO : Z := 0.
Definition FAILSAFE_MODE_HOLD : Z := 1.
Definition FAILSAFE_MODE_SET : Z := 2.
Definition FAILSAFE_MODE_INVALID : Z := 3.

Record failsafeChannelConfig_t := { mode : Z; step : Z }.

(** A [float] passed where the callee takes a [uint16_t]. *)
Definition float_to_uint16 (x : F32.float) : Z := to_uint16 (F32.to_Z x).

(** [rxfail_step_to_channel_value]: the sum is returned as a [uint8_t]. *)
Definition rxfail_step_to_channel_value (step : Z) : Z :=
  to_uint8 (PWM_PULSE_MIN + 25 * step).

(** [isPulseValid], on the [uint16_t] it receives. *)
Definition isPulseValid (pulseDuration : Z) : bool :=
  (885 <=? pulseDuration) && (pulseDuration <=? 2115).

Definition set_step (v : Z) (c : failsafeChannelConfig_t) :=
  {| mode := mode c; step := v |}.

Definition set_mode (v : Z) (c : failsafeChannelConfig_t) :=
  {| mode := v; step := step c |}.

(** The table [getFailValue] fills in on every call, loop by loop. *)
Definition failsafeChannelConfigs : list failsafeChannelConfig_t :=
  let c0 := replicate CHANNEL_COUNT {| mode := 0; step := 0 |} in
  let c1 := foldl (fun c i => alter (set_step 30) i c) c0 (seq 0 CHANNEL_COUNT) in
  let c2 := alter (set_step 5) 3%nat c1 in
  let c3 := foldl (fun c i => alter (set_mode 0) i c) c2 (seq 0 4) in
  foldl (fun c i => alter (set_mode 1) i c) c3 (seq 4 (CHANNEL_COUNT - 4)).

(** The [switch] of [getFailValue] on one channel's configuration.  The
    result is [None] when [rcData[channel]] is read out of bounds. *)
Definition failValueOfConfig
    (cfg : failsafeChannelConfig_t) (rcData : list F32.float) (channel : nat)
  : option Z :=
  if mode cfg =? FAILSAFE_MODE_AUTO then
    Some (if (channel =? ROLL)%nat || (channel =? PITCH)%nat
             || (channel =? YAW)%nat
          then 1500 else 885)
  else if (mode cfg =? FAILSAFE_MODE_INVALID) || (mode cfg =? FAILSAFE_MODE_HOLD)
  then float_to_uint16 <$> rcData !! channel
  else if mode cfg =? FAILSAFE_MODE_SET then
    Some (to_uint16 (rxfail_step_to_channel_value (step cfg)))
  else Some 0.

(** [Receiver::getFailValue]. *)
Definition getFailValue (rcData : list F32.float) (channel : nat) : option Z :=
  match failsafeChannelConfigs !! channel with
  | Some cfg => failValueOfConfig cfg rcData channel
  | None => None
  end.

(** Modelled from the spec: [constrain_f] (maths.h is not among the
    sources): the value clamped to [low, high]. *)
Definition constrain_f (amt low high : F32.float) : F32.float :=
  if F32.ltb amt low then low
  else if F32.ltb high amt then high
  else amt.

(** [applyChannelRangeConfiguraton]. *)
Definition applyChannelRangeConfiguraton (sample : F32.float) : F32.float :=
  if F32.eqb sample (F32.of_Z 0) then F32.of_Z 0
  else constrain_f sample (F32.of_Z PWM_PULSE_MIN) (F32.of_Z PWM_PULSE_MAX).

(** [readChannelsApplyRanges].  [convert] is the protocol's virtual method
    applied to the channel data of the frame. *)
Definition readChannelsApplyRanges
    (convert : nat -> F32.float) (raw : list F32.float) : list F32.float :=
  foldl (fun raw channel =>
           let sample := convert channel in
           let sample := if (channel <? 4)%nat
                         then applyChannelRangeConfiguraton sample
                         else sample in
           <[channel := sample]> raw)
        raw (seq 0 CHANNEL_COUNT).

(** The receiver fields the signal-loss code reads and writes. *)
Record rx_t := {
  m_auxiliaryProcessingRequired : bool;
  m_dataProcessingRequired : bool;
  m_inFailsafeMode : bool;
  m_invalidPulsePeriod : list Z;
  m_nextUpdateAtUs : Z;
  m_raw : list F32.float;
  m_signalReceived : bool
}.

(** Which method of the [Failsafe] object a frame ends with. *)
Inductive failsafe_call := OnValidDataReceived | OnValidDataFailed.

(** The loop's variables: the time-outs, the channel values and
    [flightChannelsValid]. *)
Record loss_t := {
  l_period : list Z;
  l_raw : list F32.float;
  l_valid : bool
}.

(** One turn of the first loop of [detectAndApplySignalLossBehaviour]. *)
Definition lossStep
    (useValueFromRx : bool) (currentTimeMs : Z) (l : loss_t) (channel : nat)
  : loss_t :=
  match l_raw l !! channel, l_period l !! channel with
  | Some sample, Some period =>
      let validPulse :=
        useValueFromRx && isPulseValid (float_to_uint16 sample) in
      if validPulse then
        {| l_period :=
             <[channel := to_uint32 (currentTimeMs + MAX_INVALID__PULSE_TIME)]>
               (l_period l);
           l_raw := <[channel := sample]> (l_raw l);
           l_valid := l_valid l |}
      else if cmp32 currentTimeMs period <? 0 then
        (* continue: the slot is left as it is *)
        l
      else
        match getFailValue (l_raw l) channel with
        | Some v =>
            {| l_period := l_period l;
               l_raw := <[channel := F32.of_Z v]> (l_raw l);
               l_valid := if (channel <? 4)%nat then false else l_valid l |}
        | None => l
        end
  | _, _ => l
  end.

(** The second loop: every channel takes its fail value. *)
Definition applyFailValues (raw : list F32.float) : list F32.float :=
  foldl (fun raw channel =>
           match getFailValue raw channel with
           | Some v => <[channel := F32.of_Z v]> raw
           | None => raw
           end)
        raw (seq 0 CHANNEL_COUNT).

(** [Receiver::detectAndApplySignalLossBehaviour] on [raw]; the result
    carries the new receiver fields, the new [raw] and the [Failsafe]
    method called. *)
Definition detectAndApplySignalLossBehaviour
    (rx : rx_t) (currentTimeUs : Z) (raw : list F32.float)
  : rx_t * list F32.float * failsafe_call :=
  let currentTimeMs := currentTimeUs / 1000 in
  let useValueFromRx := m_signalReceived rx && negb (m_inFailsafeMode rx) in
  let l := foldl (lossStep useValueFromRx currentTimeMs)
                 {| l_period := m_invalidPulsePeriod rx;
                    l_raw := raw; l_valid := true |}
                 (seq 0 CHANNEL_COUNT) in
  if l_valid l then
    ({| m_auxiliaryProcessingRequired := m_auxiliaryProcessingRequired rx;
        m_dataProcessingRequired := m_dataProcessingRequired rx;
        m_inFailsafeMode := m_inFailsafeMode rx;
        m_invalidPulsePeriod := l_period l;
        m_nextUpdateAtUs := m_nextUpdateAtUs rx;
        m_raw := m_raw rx;
        m_signalReceived := m_signalReceived rx |},
     l_raw l, OnValidDataReceived)
  else
    ({| m_auxiliaryProcessingRequired := m_auxiliaryProcessingRequired rx;
        m_dataProcessingRequired := m_dataProcessingRequired rx;
        m_inFailsafeMode := true;
        m_invalidPulsePeriod := l_period l;
        m_nextUpdateAtUs := m_nextUpdateAtUs rx;
        m_raw := m_raw rx;
        m_signalReceived := m_signalReceived rx |},
     applyFailValues (l_raw l), OnValidDataFailed).

(** [Receiver::calculateChannelsAndUpdateFailsafe], called on [m_raw]:
    [None] stands for the [return false] of a call with no data to
    process. *)
Definition calculateChannelsAndUpdateFailsafe
    (convert : nat -> F32.float) (currentTimeUs : Z) (rx : rx_t)
  : rx_t * option failsafe_call :=
  if negb (m_dataProcessingRequired rx) then
    ({| m_auxiliaryProcessingRequired := false;
        m_dataProcessingRequired := m_dataProcessingRequired rx;
        m_inFailsafeMode := m_inFailsafeMode rx;
        m_invalidPulsePeriod := m_invalidPulsePeriod rx;
        m_nextUpdateAtUs := m_nextUpdateAtUs rx;
        m_raw := m_raw rx;
        m_signalReceived := m_signalReceived rx |}, None)
  else
    let rx1 :=
      {| m_auxiliaryProcessingRequired := false;
         m_dataProcessingRequired := false;
         m_inFailsafeMode := m_inFailsafeMode rx;
         m_invalidPulsePeriod := m_invalidPulsePeriod rx;
         m_nextUpdateAtUs := to_uint32 (currentTimeUs + DELAY_15_HZ);
         m_raw := m_raw rx;
         m_signalReceived := m_signalReceived rx |} in
    let raw1 := readChannelsApplyRanges convert (m_raw rx1) in
    let '(rx2, raw2, call) :=
      detectAndApplySignalLossBehaviour rx1 currentTimeUs raw1 in
    ({| m_auxiliaryProcessingRequired := m_auxiliaryProcessingRequired rx2;
        m_dataProcessingRequired := m_dataProcessingRequired rx2;
        m_inFailsafeMode := m_inFailsafeMode rx2;
        m_invalidPulsePeriod := m_invalidPulsePeriod rx2;
        m_nextUpdateAtUs := m_nextUpdateAtUs rx2;
        m_raw := raw2;
        m_signalReceived := m_signalReceived rx2 |}, Some call).

(** A sample the first loop takes from the receiver: there is signal, no
    fail-safe, and the pulse is valid. *)
Definition accepted (rx : rx_t) (sample : F32.float) : bool :=
  m_signalReceived rx && negb (m_inFailsafeMode rx)
  && isPulseValid (float_to_uint16 sample).

(** The channel's hold window, which ends [MAX_INVALID__PULSE_TIME] ms
    after its last accepted sample, is over at [currentTimeUs]. *)
Definition expired (currentTimeUs period : Z) : bool :=
  negb (cmp32 (currentTimeUs / 1000) period <? 0).

(** A frame as the receiver task processes it: [check] has flagged data,
    then [calculateChannelsAndUpdateFailsafe] runs on the converted
    samples. *)
Definition frame (convert : nat -> F32.float) (currentTimeUs : Z) (rx : rx_t)
  : rx_t :=
  fst (calculateChannelsAndUpdateFailsafe convert currentTimeUs
         {| m_auxiliaryProcessingRequired := m_auxiliaryProcessingRequired rx;
            m_dataProcessingRequired := true;
            m_inFailsafeMode := m_inFailsafeMode rx;
            m_invalidPulsePeriod := m_invalidPulsePeriod rx;
            m_nextUpdateAtUs := m_nextUpdateAtUs rx;
            m_raw := m_raw rx;
            m_signalReceived := m_signalReceived rx |}).

(** Samples for a frame: [base] on every channel but the listed ones. *)
Definition samples (base : Z) (special : list (nat * Z)) (channel : nat)
  : F32.float :=
  F32.of_Z (match List.find (fun p => (fst p =? channel)%nat) special with
            | Some p => snd p
            | None => base
            end).

(** A receiver with signal, before its first frame. *)
Definition rx_start : rx_t :=
  {| m_auxiliaryProcessingRequired := false;
     m_dataProcessingRequired := false;
     m_inFailsafeMode := false;
     m_invalidPulsePeriod := replicate CHANNEL_COUNT 0;
     m_nextUpdateAtUs := 0;
     m_raw := replicate CHANNEL_COUNT (F32.of_Z 0);
     m_signalReceived := true |}.

(** Three frames in a row.  A (at 1000 ms): every channel valid, roll at
    1600.  B (at 1200 ms): throttle invalid (800), roll still 1600.
    C (at 1350 ms): throttle and roll both invalid (800); the throttle
    window, open since A, is over, the roll window, open since B, is not. *)
Definition rx_after_A : rx_t :=
  frame (samples 1500 [(ROLL, 1600)]) 1000000 rx_start.

Definition rx_after_B : rx_t :=
  frame (samples 1500 [(THROTTLE, 800); (ROLL, 1600)]) 1200000 rx_after_A.

Definition rx_after_C : rx_t :=
  frame (samples 1500 [(THROTTLE, 800); (ROLL, 800)]) 1350000 rx_after_B.

(** *** Frame-rate training and cut-off selection *)

(** [pt3Filter_t]. *)
Record pt3Filter_t := {
  state : F32.float;
  state1 : F32.float;
  state2 : F32.float;
  k : F32.float
}.

(** [smoothingFilter_t]. *)
Record smoothingFilter_t := {
  autoSmoothnessFactorSetpoint : Z;
  averageFrameTimeUs : Z;
  autoSmoothnessFactorThrottle : Z;
  feedforwardCutoffFrequency : Z;
  ffCutoffSetting : Z;
  filterThrottle : pt3Filter_t;
  filterRoll : pt3Filter_t;
  filterPitch : pt3Filter_t;
  filterYaw : pt3Filter_t;
  filterDeflectionRoll : pt3Filter_t;
  filterDeflectionPitch : pt3Filter_t;
  filterInitialized : bool;
  setpointCutoffFrequency : Z;
  setpointCutoffSetting : Z;
  throttleCutoffFrequency : Z;
  throttleCutoffSetting : Z;
  trainingSum : F32.float;
  trainingCount : Z;
  trainingMax : Z;
  trainingMin : Z
}.

(** The fields of [anglePid_t] the receiver writes. *)
Record anglePid_t := {
  feedforwardLpfInitialized : bool;
  feedforwardPt3 : list pt3Filter_t
}.

(** The float literals [1.5f] and [1e-6f]. *)
Definition f1_5 : F32.float := S754_finite false 12582912 (-23).
Definition f1em6 : F32.float := S754_finite false 8796093 (-43).

Definition pt3FilterInit (gain : F32.float) : pt3Filter_t :=
  {| state := F32.of_Z 0; state1 := F32.of_Z 0; state2 := F32.of_Z 0;
     k := gain |}.

Definition pt3FilterUpdateCutoff (filter : pt3Filter_t) (gain : F32.float)
  : pt3Filter_t :=
  {| state := state filter; state1 := state1 filter;
     state2 := state2 filter; k := gain |}.

(** [calcAutoSmoothingCutoff]: [avgRxFrameTimeUs] is an [int],
    [autoSmoothnessFactor] a [uint8_t]; the arithmetic is in single
    precision. *)
Definition calcAutoSmoothingCutoff
    (avgRxFrameTimeUs autoSmoothnessFactor : Z) : Z :=
  if 0 <? avgRxFrameTimeUs then
    let cutoffFactor :=
      F32.div f1_5
        (F32.add (F32.of_Z 1)
                 (F32.div (F32.of_Z autoSmoothnessFactor) (F32.of_Z 10))) in
    let cutoff :=
      F32.div (F32.of_Z 1) (F32.mul (F32.of_Z avgRxFrameTimeUs) f1em6) in
    let cutoff := F32.mul cutoff cutoffFactor in
    F32.lrintf cutoff
  else 0.

(** The assignment
    [cutoff = fmaxf(SMOOTHING_CUTOFF_MIN_HZ, calcAutoSmoothingCutoff(..))]
    into a [uint16_t] field; the [uint32_t] average is passed as an [int]. *)
Definition autoCutoff (averageFrameTimeUs autoSmoothnessFactor : Z) : Z :=
  float_to_uint16
    (F32.fmaxf (F32.of_Z SMOOTHING_CUTOFF_MIN_HZ)
       (F32.of_Z (calcAutoSmoothingCutoff (to_int32 averageFrameTimeUs)
                                          autoSmoothnessFactor))).

(** [rcSmoothingResetAccumulation]. *)
Definition set_training (sum : F32.float) (count max min : Z)
    (sf : smoothingFilter_t) : smoothingFilter_t :=
  {| autoSmoothnessFactorSetpoint := autoSmoothnessFactorSetpoint sf;
     averageFrameTimeUs := averageFrameTimeUs sf;
     autoSmoothnessFactorThrottle := autoSmoothnessFactorThrottle sf;
     feedforwardCutoffFrequency := feedforwardCutoffFrequency sf;
     ffCutoffSetting := ffCutoffSetting sf;
     filterThrottle := filterThrottle sf;
     filterRoll := filterRoll sf;
     filterPitch := filterPitch sf;
     filterYaw := filterYaw sf;
     filterDeflectionRoll := filterDeflectionRoll sf;
     filterDeflectionPitch := filterDeflectionPitch sf;
     filterInitialized := filterInitialized sf;
     setpointCutoffFrequency := setpointCutoffFrequency sf;
     setpointCutoffSetting := setpointCutoffSetting sf;
     throttleCutoffFrequency := throttleCutoffFrequency sf;
     throttleCutoffSetting := throttleCutoffSetting sf;
     trainingSum := sum;
     trainingCount := count;
     trainingMax := max;
     trainingMin := min |}.

Definition rcSmoothingResetAccumulation (sf : smoothingFilter_t)
  : smoothingFilter_t :=
  set_training (F32.of_Z 0) 0 0 UINT16_MAX sf.

Definition set_averageFrameTimeUs (v : Z) (sf : smoothingFilter_t)
  : smoothingFilter_t :=
  {| autoSmoothnessFactorSetpoint := autoSmoothnessFactorSetpoint sf;
     averageFrameTimeUs := v;
     autoSmoothnessFactorThrottle := autoSmoothnessFactorThrottle sf;
     feedforwardCutoffFrequency := feedforwardCutoffFrequency sf;
     ffCutoffSetting := ffCutoffSetting sf;
     filterThrottle := filterThrottle sf;
     filterRoll := filterRoll sf;
     filterPitch := filterPitch sf;
     filterYaw := filterYaw sf;
     filterDeflectionRoll := filterDeflectionRoll sf;
     filterDeflectionPitch := filterDeflectionPitch sf;
     filterInitialized := filterInitialized sf;
     setpointCutoffFrequency := setpointCutoffFrequency sf;
     setpointCutoffSetting := setpointCutoffSetting sf;
     throttleCutoffFrequency := throttleCutoffFrequency sf;
     throttleCutoffSetting := throttleCutoffSetting sf;
     trainingSum := trainingSum sf;
     trainingCount := trainingCount sf;
     trainingMax := trainingMax sf;
     trainingMin := trainingMin sf |}.

(** [rcSmoothingAccumulateSample]: the new filter record and the returned
    flag.  [frameTimeUs] is an [int]. *)
Definition rcSmoothingAccumulateSample
    (sf : smoothingFilter_t) (frameTimeUs : Z) : smoothingFilter_t * bool :=
  let sum := F32.add (trainingSum sf) (F32.of_Z frameTimeUs) in
  let count := to_uint32 (trainingCount sf + 1) in
  let max :=
    float_to_uint16
      (F32.fmaxf (F32.of_Z (trainingMax sf)) (F32.of_Z frameTimeUs)) in
  let min :=
    float_to_uint16
      (F32.fminf (F32.of_Z (trainingMin sf)) (F32.of_Z frameTimeUs)) in
  let sampleLimit :=
    if filterInitialized sf then SMOOTHING_FILTER_RETRAINING_SAMPLES
    else SMOOTHING_FILTER_TRAINING_SAMPLES in
  if sampleLimit <=? count then
    (* Throw out high and low samples *)
    let sum' := F32.sub (F32.sub sum (F32.of_Z min)) (F32.of_Z max) in
    let average :=
      to_uint32
        (F32.lrintf (F32.div sum' (F32.of_Z (to_uint32 (count - 2))))) in
    (rcSmoothingResetAccumulation
       (set_averageFrameTimeUs average (set_training sum' count max min sf)),
     true)
  else (set_training sum count max min sf, false).

(** Sum, largest and smallest of a run of samples, with the start values
    of the accumulator. *)
Definition sum_Z (l : list Z) : Z := foldr Z.add 0 l.
Definition max_Z (l : list Z) : Z := foldr Z.max 0 l.
Definition min_Z (l : list Z) : Z := foldr Z.min UINT16_MAX l.

(** Feeding a run of frame intervals to the accumulator; the flags are
    returned in order. *)
Fixpoint accumulate (sf : smoothingFilter_t) (samples : list Z)
  : smoothingFilter_t * list bool :=
  match samples with
  | [] => (sf, [])
  | x :: rest =>
      let '(sf1, done) := rcSmoothingAccumulateSample sf x in
      let '(sf2, flags) := accumulate sf1 rest in
      (sf2, done :: flags)
  end.

(** The filter record as the first call of [processSmoothingFilter] sets
    it up: not initialised, no average yet, smoothness factors 30, every
    cut-off setting on auto (0). *)
Definition sf_boot : smoothingFilter_t :=
  {| autoSmoothnessFactorSetpoint := 30;
     averageFrameTimeUs := 0;
     autoSmoothnessFactorThrottle := 30;
     feedforwardCutoffFrequency := 38;
     ffCutoffSetting := 0;
     filterThrottle := pt3FilterInit (F32.of_Z 0);
     filterRoll := pt3FilterInit (F32.of_Z 0);
     filterPitch := pt3FilterInit (F32.of_Z 0);
     filterYaw := pt3FilterInit (F32.of_Z 0);
     filterDeflectionRoll := pt3FilterInit (F32.of_Z 0);
     filterDeflectionPitch := pt3FilterInit (F32.of_Z 0);
     filterInitialized := false;
     setpointCutoffFrequency := 0;
     setpointCutoffSetting := 0;
     throttleCutoffFrequency := 0;
     throttleCutoffSetting := 0;
     trainingSum := F32.of_Z 0;
     trainingCount := 0;
     trainingMax := 0;
     trainingMin := UINT16_MAX |}.

(** The cut-off the spec gives for an average frame time and a smoothness
    factor, in exact arithmetic:
    [max(15, round((1e6 / avg) * 1.5 / (1 + s/10)))], with halves rounded
    up ([spec_cutoff]) or to the even neighbour ([spec_cutoff_even]). *)
Definition spec_cutoff_value (avg s : Z) : Q :=
  ((1000000 # 1) / inject_Z avg * (3 # 2) / (1 + inject_Z s / 10))%Q.

Definition spec_cutoff (avg s : Z) : Z :=
  Z.max 15 (Qfloor (spec_cutoff_value avg s + (1 # 2))%Q).

Definition spec_cutoff_even (avg s : Z) : Z :=
  let q := spec_cutoff_value avg s in
  let f := Qfloor q in
  Z.max 15
    (match Qcompare (q - inject_Z f) (1 # 2) with
     | Lt => f
     | Gt => f + 1
     | Eq => if Z.even f then f else f + 1
     end).

Section Cutoffs.

(** [pt3FilterGain] needs [sqrtf], [powf] and the double constant [M_PI];
    it stays a parameter, with the two periods it is called at:
    [Clock::PERIOD() * 1e-6f] and [Clock::DT()] (clock.h is not among the
    sources). *)
Variable pt3FilterGain : F32.float -> F32.float -> F32.float.
Variable dT_period : F32.float.
Variable dT_clock : F32.float.

(** [smoothingFilterInit], [smoothingFilterInitRollPitchYaw] and
    [levelFilterInit] all come to this. *)
Definition smoothingFilterInit
    (initialized : bool) (filter : pt3Filter_t) (cutoff : Z) (dT : F32.float)
  : pt3Filter_t :=
  if negb initialized
  then pt3FilterInit (pt3FilterGain (F32.of_Z cutoff) dT)
  else pt3FilterUpdateCutoff filter (pt3FilterGain (F32.of_Z cutoff) dT).

Definition ratePidFeedforwardLpfInit (pid : anglePid_t) (filterCutoff : Z)
  : anglePid_t :=
  if 0 <? filterCutoff then
    let f := pt3FilterInit (pt3FilterGain (F32.of_Z filterCutoff) dT_clock) in
    {| feedforwardLpfInitialized := true;
       feedforwardPt3 :=
         <[2%nat := f]> (<[1%nat := f]> (<[0%nat := f]> (feedforwardPt3 pid))) |}
  else pid.

Definition ratePidFeedforwardLpfUpdate (pid : anglePid_t) (filterCutoff : Z)
  : anglePid_t :=
  if 0 <? filterCutoff then
    {| feedforwardLpfInitialized := feedforwardLpfInitialized pid;
       feedforwardPt3 :=
         foldl (fun l axis =>
                  alter (fun f => pt3FilterUpdateCutoff f
                           (pt3FilterGain (F32.of_Z filterCutoff) dT_clock))
                        axis l)
               (feedforwardPt3 pid) (seq ROLL (YAW + 1 - ROLL)) |}
  else pid.

(** [setSmoothingFilterCutoffs]. *)
Definition setSmoothingFilterCutoffs
    (pid : anglePid_t) (sf : smoothingFilter_t)
  : anglePid_t * smoothingFilter_t :=
  let oldCutoff := setpointCutoffFrequency sf in
  let setpoint :=
    if setpointCutoffSetting sf =? 0
    then autoCutoff (averageFrameTimeUs sf) (autoSmoothnessFactorSetpoint sf)
    else setpointCutoffFrequency sf in
  let throttle :=
    if throttleCutoffSetting sf =? 0
    then autoCutoff (averageFrameTimeUs sf) (autoSmoothnessFactorThrottle sf)
    else throttleCutoffFrequency sf in
  (* initialize or update the Setpoint filter *)
  let refresh := negb (setpoint =? oldCutoff) || negb (filterInitialized sf) in
  let init (filter : pt3Filter_t) (cutoff : Z) :=
    if refresh
    then smoothingFilterInit (filterInitialized sf) filter cutoff dT_period
    else filter in
  (* update or initialize the FF filter *)
  let oldFf := feedforwardCutoffFrequency sf in
  let ff :=
    if ffCutoffSetting sf =? 0
    then autoCutoff (averageFrameTimeUs sf) (autoSmoothnessFactorSetpoint sf)
    else feedforwardCutoffFrequency sf in
  let pid' :=
    if negb (filterInitialized sf) then ratePidFeedforwardLpfInit pid ff
    else if negb (ff =? oldFf) then ratePidFeedforwardLpfUpdate pid ff
    else pid in
  (pid',
   {| autoSmoothnessFactorSetpoint := autoSmoothnessFactorSetpoint sf;
      averageFrameTimeUs := averageFrameTimeUs sf;
      autoSmoothnessFactorThrottle := autoSmoothnessFactorThrottle sf;
      feedforwardCutoffFrequency := ff;
      ffCutoffSetting := ffCutoffSetting sf;
      filterThrottle := init (filterThrottle sf) throttle;
      filterRoll := init (filterRoll sf) setpoint;
      filterPitch := init (filterPitch sf) setpoint;
      filterYaw := init (filterYaw sf) setpoint;
      filterDeflectionRoll := init (filterDeflectionRoll sf) setpoint;
      filterDeflectionPitch := init (filterDeflectionPitch sf) setpoint;
      filterInitialized := filterInitialized sf;
      setpointCutoffFrequency := setpoint;
      setpointCutoffSetting := setpointCutoffSetting sf;
      throttleCutoffFrequency := throttle;
      throttleCutoffSetting := throttleCutoffSetting sf;
      trainingSum := trainingSum sf;
      trainingCount := trainingCount sf;
      trainingMax := trainingMax sf;
      trainingMin := trainingMin sf |}).

End Cutoffs.

(** A 16-bit unsigned value. *)
Definition in_u16 (x : Z) : Prop := 0 <= x <= 65535.

(** What the first loop of [detectAndApplySignalLossBehaviour] does with a
    channel: the sample is [taken] when the receiver is in use and the pulse
    is valid, the channel is [held] while its window is open. *)
Definition taken (useRx : bool) (sample : F32.float) : bool :=
  useRx && isPulseValid (float_to_uint16 sample).

Definition held (nowMs p : Z) : bool := cmp32 nowMs p <? 0.

(** The state of the first loop after channels [0 .. n-1], from the values
    [raw0] and the windows [per0] it started with. *)
Definition inv1 (useRx : bool) (nowMs : Z) (raw0 : list F32.float)
    (per0 : list Z) (n : nat) (l : loss_t) : Prop :=
  length (l_raw l) = CHANNEL_COUNT /\
  length (l_period l) = CHANNEL_COUNT /\
  (forall c, (n <= c)%nat ->
     l_raw l !! c = raw0 !! c /\ l_period l !! c = per0 !! c) /\
  (forall c sample p, (c < n)%nat ->
     raw0 !! c = Some sample -> per0 !! c = Some p ->
     l_period l !! c
       = Some (if taken useRx sample
               then to_uint32 (nowMs + MAX_INVALID__PULSE_TIME) else p) /\
     l_raw l !! c
       = (if taken useRx sample || held nowMs p then Some sample
          else F32.of_Z <$> getFailValue raw0 c)) /\
  (l_valid l = true <->
   forall c sample p, (c < n)%nat -> (c < 4)%nat ->
     raw0 !! c = Some sample -> per0 !! c = Some p ->
     taken useRx sample || held nowMs p = true).

(** The state of the second loop after channels [0 .. n-1], from the
    values [mid] the first loop left. *)
Definition inv2 (mid : list F32.float) (n : nat) (raw : list F32.float)
  : Prop :=
  length raw = length mid /\
  (forall c, (n <= c)%nat -> raw !! c = mid !! c) /\
  (forall c, (c < n)%nat -> raw !! c = F32.of_Z <$> getFailValue mid c).

End Receiver.

(** ** The MSP parser and reply serialiser (src/parser.hpp) *)

Module Msp.

(** The out buffer with its size and running checksum, as the serialising
    helpers pass them around by reference. *)
Record outbuf := {
  buffer : list Z;
  buffer_size : Z;
  buffer_checksum : Z
}.

(** [addToOutBuf]. *)
Definition addToOutBuf (o : outbuf) (ready : bool) (byte : Z) : outbuf :=
  {| buffer := if ready then <[Z.to_nat (buffer_size o) := byte]> (buffer o)
               else buffer o;
     buffer_size := if ready then to_uint8 (buffer_size o + 1)
                    else buffer_size o;
     buffer_checksum := buffer_checksum o |}.

(** [serialize]. *)
Definition serialize (o : outbuf) (ready : bool) (byte : Z) : outbuf :=
  let o1 := addToOutBuf o ready byte in
  {| buffer := buffer o1;
     buffer_size := buffer_size o1;
     buffer_checksum := if ready then Z.lxor (buffer_checksum o1) byte
                        else buffer_checksum o1 |}.

(** [prepareToSerialize]: the header ['$'], ['M'], ['>'], then the payload
    length and the message type, both under the checksum. *)
Definition prepareToSerialize
    (o : outbuf) (ready : bool) (type count size : Z) : outbuf :=
  let o0 := {| buffer := buffer o;
               buffer_size := if ready then 0 else buffer_size o;
               buffer_checksum := if ready then 0 else buffer_checksum o |} in
  let o1 := addToOutBuf o0 ready 36 in
  let o2 := addToOutBuf o1 ready 77 in
  let o3 := addToOutBuf o2 ready 62 in
  let o4 := serialize o3 ready (to_uint8 (count * size)) in
  serialize o4 ready type.

(** [completeSend]. *)
Definition completeSend (o : outbuf) (ready : bool) : outbuf :=
  serialize o ready (buffer_checksum o).

(** [prepareToSerializeFloats]. *)
Definition prepareToSerializeFloats
    (o : outbuf) (ready : bool) (type count : Z) : outbuf :=
  prepareToSerialize o ready type count 4.

(** The [uint32_t uintval = 1000 * (value + 2)] of [serializeFloat]: a
    single-precision sum and product, then the cast. *)
Definition uintval (value : F32.float) : Z :=
  to_uint32 (F32.to_Z (F32.mul (F32.of_Z 1000) (F32.add value (F32.of_Z 2)))).

(** [serializeFloat]. *)
Definition serializeFloat (o : outbuf) (ready : bool) (value : F32.float)
  : outbuf :=
  let u := uintval value in
  let o1 := serialize o ready (Z.land u 255) in
  let o2 := serialize o1 ready (Z.land (Z.shiftr u 8) 255) in
  let o3 := serialize o2 ready (Z.land (Z.shiftr u 16) 255) in
  serialize o3 ready (Z.land (Z.shiftr u 24) 255).

(** The statics of [parser_parse]. *)
Record parser_t := {
  parser_state_ : Z;
  type_ : Z;
  crc_ : Z;
  size_ : Z;
  index_ : Z;
  buffer_size_ : Z;
  buffer_checksum_ : Z
}.

(** What a call reads besides its arguments: the serial byte and flag, and
    the six receiver channels of message 121. *)
Record stream_t := {
  stream_serialByte : Z;
  stream_serialAvailable : bool;
  stream_receiverThrottle : F32.float;
  stream_receiverRoll : F32.float;
  stream_receiverPitch : F32.float;
  stream_receiverYaw : F32.float;
  stream_receiverAux1 : F32.float;
  stream_receiverAux2 : F32.float
}.

(** The reference arguments of [parser_parse] after the call. *)
Record result_t := {
  r_buffer : list Z;
  r_buffer_size : Z;
  r_buffer_index : Z;
  r_motor_index : Z;
  r_motor_percent : Z
}.

(** The payload functions: the new [size_] and [index_], and [in_payload]:
    the byte belongs to the payload of an inbound message (type 200 and
    above). *)
Definition size_next (p : parser_t) (byte : Z) : Z :=
  if parser_state_ p =? 3 then byte else size_ p.

Definition index_next (p : parser_t) : Z :=
  if parser_state_ p =? 5 then to_uint8 (index_ p + 1) else 0.

Definition in_payload (p : parser_t) (byte : Z) : bool :=
  (200 <=? type_ p) && (parser_state_ p =? 5)
  && (index_next p <=? size_next p byte).

(** The parser state transition function. *)
Definition next_state (p : parser_t) (byte : Z) : Z :=
  if (parser_state_ p =? 0) && (byte =? 36) then 1
  else if (parser_state_ p =? 1) && (byte =? 77) then 2
  else if (parser_state_ p =? 2) && ((byte =? 60) || (byte =? 62)) then 3
  else if parser_state_ p =? 3 then 4
  else if parser_state_ p =? 4 then 5
  else if (parser_state_ p =? 5) && in_payload p byte then 5
  else if parser_state_ p =? 5 then 0
  else parser_state_ p.

(** The checksum transition function. *)
Definition crc_next (p : parser_t) (byte : Z) : Z :=
  if parser_state_ p =? 3 then byte
  else if parser_state_ p =? 4 then Z.lxor (crc_ p) byte
  else if in_payload p byte then Z.lxor (crc_ p) byte
  else if parser_state_ p =? 5 then crc_ p
  else 0.

(** Message dispatch: a reply is serialised by this call. *)
Definition ready_of (p : parser_t) (s : stream_t) : bool :=
  stream_serialAvailable s
  && (next_state p (stream_serialByte s) =? 0)
  && (crc_next p (stream_serialByte s) =? stream_serialByte s).

(** [parser_parse]: the new statics and the reference arguments. *)
Definition parser_parse
    (p : parser_t) (s : stream_t)
    (buffer0 : list Z) (buffer_index0 : Z)
    (state_phi state_theta state_psi : F32.float)
  : parser_t * result_t :=
  let byte := stream_serialByte s in
  (* Payload functions *)
  let size1 := size_next p byte in
  let index1 := index_next p in
  let in_payload := in_payload p byte in
  (* Command acquisition function *)
  let type1 := if parser_state_ p =? 4 then byte else type_ p in
  (* Checksum transition function *)
  let crc1 := crc_next p byte in
  (* Parser state transition function *)
  let state1 := next_state p byte in
  (* Incoming payload accumulation *)
  let pindex := if in_payload then to_uint8 (index1 - 1) else 0 in
  let buffer1 :=
    if in_payload then <[Z.to_nat pindex := byte]> buffer0 else buffer0 in
  (* Message dispatch *)
  let ready := ready_of p s in
  let buffer_index1 := if ready then 0 else buffer_index0 in
  let o0 := {| buffer := buffer1; buffer_size := buffer_size_ p;
               buffer_checksum := buffer_checksum_ p |} in
  let '(o, motor_index, motor_percent) :=
    if type1 =? 121 then
      let o1 := prepareToSerializeFloats o0 ready type1 6 in
      let o2 := serializeFloat o1 ready (stream_receiverThrottle s) in
      let o3 := serializeFloat o2 ready (stream_receiverRoll s) in
      let o4 := serializeFloat o3 ready (stream_receiverPitch s) in
      let o5 := serializeFloat o4 ready (stream_receiverYaw s) in
      let o6 := serializeFloat o5 ready (stream_receiverAux1 s) in
      let o7 := serializeFloat o6 ready (stream_receiverAux2 s) in
      (completeSend o7 ready, 0, 0)
    else if type1 =? 122 then
      let o1 := prepareToSerializeFloats o0 ready type1 3 in
      let o2 := serializeFloat o1 ready state_phi in
      let o3 := serializeFloat o2 ready state_theta in
      let o4 := serializeFloat o3 ready state_psi in
      (completeSend o4 ready, 0, 0)
    else if type1 =? 215 then
      (o0, default 0 (buffer1 !! 0%nat), default 0 (buffer1 !! 1%nat))
    else (o0, 0, 0) in
  ({| parser_state_ := state1;
      type_ := type1;
      crc_ := crc1;
      size_ := size1;
      index_ := index1;
      buffer_size_ := buffer_size o;
      buffer_checksum_ := buffer_checksum o |},
   {| r_buffer := buffer o;
      r_buffer_size := buffer_size o;
      r_buffer_index := buffer_index1;
      r_motor_index := motor_index;
      r_motor_percent := motor_percent |}).

(** The statics at start-up (zero-initialised). *)
Definition parser_init : parser_t :=
  {| parser_state_ := 0; type_ := 0; crc_ := 0; size_ := 0; index_ := 0;
     buffer_size_ := 0; buffer_checksum_ := 0 |}.

(** Feeding a run of bytes, the out buffer and read index carried from call
    to call; the result of the last call is returned. *)
Fixpoint feed
    (p : parser_t) (r : result_t) (phi theta psi : F32.float)
    (input : list stream_t) : parser_t * result_t :=
  match input with
  | [] => (p, r)
  | s :: rest =>
      let '(p1, r1) :=
        parser_parse p s (r_buffer r) (r_buffer_index r) phi theta psi in
      feed p1 r1 phi theta psi rest
  end.

(** The little-endian bytes of a 32-bit value. *)
Definition le32 (u : Z) : list Z :=
  [Z.land u 255; Z.land (Z.shiftr u 8) 255;
   Z.land (Z.shiftr u 16) 255; Z.land (Z.shiftr u 24) 255].

(** XOR of a run of bytes. *)
Definition xor_all (l : list Z) : Z := foldl Z.lxor 0 l.

(** A serial byte with data available, the receiver channels at zero. *)
Definition serial (byte : Z) : stream_t :=
  {| stream_serialByte := byte;
     stream_serialAvailable := true;
     stream_receiverThrottle := F32.of_Z 0;
     stream_receiverRoll := F32.of_Z 0;
     stream_receiverPitch := F32.of_Z 0;
     stream_receiverYaw := F32.of_Z 0;
     stream_receiverAux1 := F32.of_Z 0;
     stream_receiverAux2 := F32.of_Z 0 |}.

(** The caller's variables before the first call: a zeroed buffer. *)
Definition result_init : result_t :=
  {| r_buffer := replicate 32 0;
     r_buffer_size := 0;
     r_buffer_index := 0;
     r_motor_index := 0;
     r_motor_percent := 0 |}.

(** The float [2^-10] (0.0009765625). *)
Definition f_2pm10 : F32.float := S754_finite false 8388608 (-33).

(** The encoding the spec gives for a float: [round((v + 2) * 1000)], in
    exact arithmetic, halves rounded up. *)
Definition spec_encoding (v : F32.float) : Z :=
  Qfloor ((F32.to_Q v + 2) * 1000 + (1 # 2))%Q.

(** The out buffer holds the bytes [l] so far: its size is their count and
    they are its first cells. *)
Definition written (o : outbuf) (l : list Z) : Prop :=
  buffer_size o = Z.of_nat (length l) /\ take (length l) (buffer o) = l.

(** Serialising a run of bytes, one [serialize] each. *)
Definition serialize_all (o : outbuf) (bytes : list Z) : outbuf :=
  foldl (fun o byte => serialize o true byte) o bytes.

End Msp.

(** * Further parts of the sources *)

(** ** Who arms and who stops the ESC (src/board.h) *)

Module BoardTrace.
Import Board.

(** A receiver task that can arm: [attemptToArm] is reached (the receiver
    is in [STATE_UPDATE]) with the arm switch on and the ESC ready. *)
Definition arms (t : task) : bool :=
  match t with
  | TaskReceiver rx =>
      match rx_state rx with
      | STATE_UPDATE => rx_aux1IsSet rx && esc_isReady rx
      | _ => false
      end
  | TaskAttitude _ _ _ => false
  end.

(** A receiver task that reports the loss of the signal. *)
Definition reports_loss (t : task) : bool :=
  match t with
  | TaskReceiver rx =>
      match rx_state rx with
      | STATE_CHECK => negb (rx_hasSignal rx)
      | _ => false
      end
  | TaskAttitude _ _ _ => false
  end.

Definition is_stop (e : effect) : bool :=
  match e with EscStop => true | _ => false end.

(** A board with every condition of [readyToArm] met, not armed. *)
Definition ready_board : board :=
  {| m_arming := {| isArmed := false; haveSignal := true;
                    gotFailsafe := false; throttleIsDown := true;
                    switchOkay := true; angleOkay := true;
                    gyroDoneCalibrating := true;
                    accDoneCalibrating := true |};
     doNotRepeat := false; effects := [] |}.

End BoardTrace.

(** ** Reading the reply and receiving a payload (src/parser.hpp) *)

Module MspIo.
Import Msp.

(** [parser_read]: the size is decremented, the byte at [buffer_index] is
    returned ([None] when the index is outside the buffer) and the index
    is incremented; size and index are [uint8_t]. *)
Definition parser_read (buffer : list Z) (buffer_size buffer_index : Z)
  : option Z * Z * Z :=
  (buffer !! Z.to_nat buffer_index,
   to_uint8 (buffer_size - 1),
   to_uint8 (buffer_index + 1)).

(** [n] calls of [parser_read] in a row; the bytes are returned in order
    with the last size and index. *)
Fixpoint read_n (n : nat) (buffer : list Z) (buffer_size buffer_index : Z)
  : list (option Z) * Z * Z :=
  match n with
  | O => ([], buffer_size, buffer_index)
  | S n' =>
      let '(byte, size1, index1) :=
        parser_read buffer buffer_size buffer_index in
      let '(bytes, size2, index2) := read_n n' buffer size1 index1 in
      (byte :: bytes, size2, index2)
  end.

(** The statics after a call that serialises nothing, and the buffer
    after the payload store of a call. *)
Definition advance (p : parser_t) (byte : Z) : parser_t :=
  {| parser_state_ := next_state p byte;
     type_ := if parser_state_ p =? 4 then byte else type_ p;
     crc_ := crc_next p byte;
     size_ := size_next p byte;
     index_ := index_next p;
     buffer_size_ := buffer_size_ p;
     buffer_checksum_ := buffer_checksum_ p |}.

Definition stored (p : parser_t) (byte : Z) (buffer : list Z) : list Z :=
  if in_payload p byte
  then <[Z.to_nat (to_uint8 (index_next p - 1)) := byte]> buffer
  else buffer.

(** The floats a reply of type 121 or 122 carries, encoded. *)
Definition reply_payload
    (type : Z) (s : stream_t) (phi theta psi : F32.float) : list Z :=
  if type =? 121 then
    le32 (uintval (stream_receiverThrottle s))
    ++ le32 (uintval (stream_receiverRoll s))
    ++ le32 (uintval (stream_receiverPitch s))
    ++ le32 (uintval (stream_receiverYaw s))
    ++ le32 (uintval (stream_receiverAux1 s))
    ++ le32 (uintval (stream_receiverAux2 s))
  else
    le32 (uintval phi) ++ le32 (uintval theta) ++ le32 (uintval psi).

(** A whole reply: header, length, type, payload and checksum. *)
Definition reply (type : Z) (payload : list Z) : list Z :=
  let body := Z.of_nat (length payload) :: type :: payload in
  [36; 77; 62] ++ body ++ [xor_all body].

(** The bytes of a request up to its checksum: the header with either
    direction character, the payload length, the type and the payload. *)
Definition request (dir size type : Z) (payload : list Z) : list Z :=
  [36; 77; dir; size; type] ++ payload.

End MspIo.

(** ** The signal watch of the receiver (src/receiver.h) *)

Module ReceiverCheck.
Import Board.

Definition FRAME_COMPLETE : Z := 1.
Definition FRAME_FAILSAFE : Z := 2.
Definition FRAME_PROCESSING_REQUIRED : Z := 4.
Definition FRAME_DROPPED : Z := 8.
Definition NEED_SIGNAL_MAX_DELAY_US : Z := 1000000 / 10.

(** The receiver fields [check] reads and writes. *)
Record check_t := {
  c_state : state_e;
  c_inFailsafeMode : bool;
  c_needSignalBefore : Z;
  c_auxiliaryProcessingRequired : bool;
  c_signalReceived : bool;
  c_dataProcessingRequired : bool;
  c_nextUpdateAtUs : Z
}.

Definition flag (frameStatus bit : Z) : bool :=
  negb (Z.land frameStatus bit =? 0).

Section Check.

(** [cmpTimeUs] comes from time.h, which is not among the sources. *)
Variable cmpTimeUs : Z -> Z -> Z.

(** [Receiver::check].  [frameStatus] is what [devCheck] returns; it is
    only called in [STATE_CHECK]. *)
Definition check (currentTimeUs frameStatus : Z) (rx : check_t)
  : check_t * bool :=
  match c_state rx with
  | STATE_CHECK =>
      let complete := flag frameStatus FRAME_COMPLETE in
      let inFailsafeMode :=
        if complete then flag frameStatus FRAME_FAILSAFE
        else c_inFailsafeMode rx in
      let frameDropped := flag frameStatus FRAME_DROPPED in
      let signalReceived :=
        complete && negb (inFailsafeMode || frameDropped) in
      let needSignalBefore :=
        if signalReceived
        then to_uint32 (currentTimeUs + NEED_SIGNAL_MAX_DELAY_US)
        else c_needSignalBefore rx in
      let auxiliaryProcessingRequired :=
        if flag frameStatus FRAME_PROCESSING_REQUIRED then true
        else c_auxiliaryProcessingRequired rx in
      let m_signalReceived :=
        if signalReceived then true
        else if needSignalBefore <=? currentTimeUs then false
        else c_signalReceived rx in
      let dataProcessingRequired :=
        if signalReceived
           || (0 <? cmpTimeUs currentTimeUs (c_nextUpdateAtUs rx))
        then true else c_dataProcessingRequired rx in
      ({| c_state := c_state rx;
          c_inFailsafeMode := inFailsafeMode;
          c_needSignalBefore := needSignalBefore;
          c_auxiliaryProcessingRequired := auxiliaryProcessingRequired;
          c_signalReceived := m_signalReceived;
          c_dataProcessingRequired := dataProcessingRequired;
          c_nextUpdateAtUs := c_nextUpdateAtUs rx |},
       dataProcessingRequired || auxiliaryProcessingRequired)
  | _ => (rx, true)
  end.

(** A run of [check] calls, each with its time and frame status. *)
Definition checks (rx : check_t) (calls : list (Z * Z)) : check_t :=
  foldl (fun rx call => fst (check (fst call) (snd call) rx)) rx calls.

End Check.

(** A frame that counts as signal: complete, neither flagged fail-safe
    nor dropped. *)
Definition good_frame (frameStatus : Z) : bool :=
  flag frameStatus FRAME_COMPLETE
  && negb (flag frameStatus FRAME_FAILSAFE)
  && negb (flag frameStatus FRAME_DROPPED).

End ReceiverCheck.

(** ** Stick commands (src/receiver.h) *)

Module Commands.

Definition fabs : F32.float -> F32.float := SFabs.
Definition neg : F32.float -> F32.float := SFopp.

(** [Receiver::updateCommand]. *)
Definition updateCommand (raw sgn : F32.float) : F32.float :=
  let tmp := F32.fminf (fabs (F32.sub raw (F32.of_Z 1500))) (F32.of_Z 500) in
  let cmd := F32.mul tmp sgn in
  if F32.ltb raw (F32.of_Z 1500) then neg cmd else cmd.

(** The loop of [updateCommands] over roll, pitch and yaw: [m_command]
    after it (slot 0 is not written). *)
Definition updateCommands_axes
    (raw : list F32.float) (m_command : list F32.float) : list F32.float :=
  foldl (fun cmds axis =>
           match raw !! axis with
           | Some r =>
               <[axis := updateCommand r
                           (F32.of_Z (if (axis =? Receiver.YAW)%nat
                                      then -1 else 1))]> cmds
           | None => cmds
           end)
        m_command (seq Receiver.ROLL 3).

(** The stick deflection in microseconds, limited to 500 either way. *)
Definition deflection (r : Z) : Z := Z.max (-500) (Z.min 500 (r - 1500)).

End Commands.

(** ** The arming logic of the older main loop (src/hackflight.hpp) *)

Module Hackflight.

(** The fields [checkReceiver] reads and writes. *)
Record state := {
  armed : bool;
  failsafe : bool;
  safeToArm : bool
}.

(** What it does to the outside. *)
Inductive effect :=
| Cut
| ShowArmedStatus (on : bool).

(** What the receiver and the vehicle state answer during one call:
    [lostSignal()], [ready()], [inArmedState()], [inactive()] and the two
    [safeAngle] tests. *)
Record inputs := {
  lostSignal : bool;
  ready : bool;
  inArmedState : bool;
  inactive : bool;
  safePhi : bool;
  safeTheta : bool
}.

(** [Hackflight::checkReceiver]: the new state and the effects in the
    order they are issued. *)
Definition checkReceiver (i : inputs) (s : state) : state * list effect :=
  if lostSignal i && armed s then
    ({| armed := false; failsafe := true; safeToArm := safeToArm s |},
     [Cut; ShowArmedStatus false])
  else if negb (ready i) then (s, [])
  else
    (* Disarm *)
    let armed1 := if armed s && negb (inArmedState i) then false
                  else armed s in
    (* Avoid arming if aux1 switch down on startup *)
    let safe1 := if negb (safeToArm s) then negb (inArmedState i)
                 else safeToArm s in
    (* Arm *)
    let armed2 :=
      if safe1 && negb armed1 && inactive i && inArmedState i
         && negb (failsafe s) && safePhi i && safeTheta i
      then true else armed1 in
    (* Cut motors on throttle-down *)
    let cut := if armed2 && inactive i then [Cut] else [] in
    ({| armed := armed2; failsafe := failsafe s; safeToArm := safe1 |},
     cut ++ [ShowArmedStatus armed2]).

(** A run of calls; the effects are collected in order. *)
Fixpoint run (s : state) (calls : list inputs) : state * list effect :=
  match calls with
  | [] => (s, [])
  | i :: rest =>
      let '(s1, e1) := checkReceiver i s in
      let '(s2, e2) := run s1 rest in
      (s2, e1 ++ e2)
  end.

(** The state [begin] leaves (not armed). *)
Definition start : state :=
  {| armed := false; failsafe := false; safeToArm := false |}.

End Hackflight.

(** ** The motor device (src/stm32/src/drivers/motor.c) *)

Module Motor.

(** The two tables a device can carry: the null table of motor.c and the
    table of a real device, which dshot_bitbang.c fills in. *)
Inductive vtable := motorNullVTable | deviceVTable.

(** What [vTable.enable()] and [vTable.updateStart()] return:
    [motorEnableNull] and [motorUpdateStartNull] for the null table, and
    for a real device the answer the hardware gives at that call. *)
Definition vt_enable (t : vtable) (answer : bool) : bool :=
  match t with motorNullVTable => false | deviceVTable => answer end.

Definition vt_updateStart (t : vtable) (answer : bool) : bool :=
  match t with motorNullVTable => true | deviceVTable => answer end.

(** The calls made through the table. *)
Inductive call :=
| CallShutdown
| CallDisable
| CallEnable
| CallUpdateStart
| CallWrite (index : nat) (value : F32.float)
| CallUpdateComplete.

Record motorDevice_t := {
  initialized : bool;
  enabled : bool;
  motorEnableTimeMs : Z;
  count : nat;
  vTable : vtable
}.

(** The static [motorNullDevice], once [motorInit] has given it the null
    table. *)
Definition motorNullDevice : motorDevice_t :=
  {| initialized := false; enabled := false; motorEnableTimeMs := 0;
     count := 0; vTable := motorNullVTable |}.

(** [motorInit]: [dev] is what [dshotBitbangDevInit] returns. *)
Definition motorInit (dev : option motorDevice_t) (motorCount : nat)
  : motorDevice_t :=
  match dev with
  | Some d =>
      {| initialized := true; enabled := false; motorEnableTimeMs := 0;
         count := motorCount; vTable := vTable d |}
  | None => motorNullDevice
  end.

(** [motorShutdown]. *)
Definition motorShutdown (d : motorDevice_t) : motorDevice_t * list call :=
  ({| initialized := false; enabled := false; motorEnableTimeMs := 0;
      count := count d; vTable := vTable d |}, [CallShutdown]).

(** [motorDisable]. *)
Definition motorDisable (d : motorDevice_t) : motorDevice_t * list call :=
  ({| initialized := initialized d; enabled := false;
      motorEnableTimeMs := 0; count := count d; vTable := vTable d |},
   [CallDisable]).

(** [motorEnable]; [millis] is the clock's answer.  The table is only
    asked when the device is initialised. *)
Definition motorEnable (millis : Z) (answer : bool) (d : motorDevice_t)
  : motorDevice_t * list call :=
  if initialized d then
    if vt_enable (vTable d) answer then
      ({| initialized := initialized d; enabled := true;
          motorEnableTimeMs := millis; count := count d;
          vTable := vTable d |}, [CallEnable])
    else (d, [CallEnable])
  else (d, []).

(** [motorWrite]: the calls made through the table; [values i] is
    [values[i]]. *)
Definition motorWrite (values : nat -> F32.float) (answer : bool)
    (d : motorDevice_t) : list call :=
  if enabled d then
    if negb (vt_updateStart (vTable d) answer) then [CallUpdateStart]
    else
      [CallUpdateStart]
      ++ map (fun i => CallWrite i (values i)) (seq 0 (count d))
      ++ [CallUpdateComplete]
  else [].

(** The operations of the driver as a caller issues them. *)
Inductive op :=
| OpShutdown
| OpDisable
| OpEnable (millis : Z) (answer : bool)
| OpWrite (values : nat -> F32.float) (answer : bool).

Definition apply (d : motorDevice_t) (o : op) : motorDevice_t * list call :=
  match o with
  | OpShutdown => motorShutdown d
  | OpDisable => motorDisable d
  | OpEnable millis answer => motorEnable millis answer d
  | OpWrite values answer => (d, motorWrite values answer d)
  end.

Fixpoint run (d : motorDevice_t) (ops : list op)
  : motorDevice_t * list call :=
  match ops with
  | [] => (d, [])
  | o :: rest =>
      let '(d1, c1) := apply d o in
      let '(d2, c2) := run d1 rest in
      (d2, c1 ++ c2)
  end.

(** The calls a device that is off can still get. *)
Definition is_off_call (c : call) : bool :=
  match c with CallShutdown | CallDisable => true | _ => false end.

Definition is_enabling (o : op) : bool :=
  match o with OpEnable _ answer => answer | _ => false end.

End Motor.

(** ** The SPI clock divider (src/stm32f4/src/spi.c) *)

Module Spi.

Section Divider.

(** The core clock in Hz, a [uint32_t] set by the start-up code. *)
Variable SystemCoreClock : Z.

(** The [for] loop of [spiCalculateDivider]: [fuel] bounds the number of
    turns. *)
Fixpoint divider_loop (fuel : nat) (spiClk divisor freq : Z) : option Z :=
  if (freq <? spiClk) && (divisor <? 256) then
    match fuel with
    | O => None
    | S fuel' =>
        divider_loop fuel' (Z.shiftr spiClk 1)
          (to_uint16 (Z.shiftl divisor 1)) freq
    end
  else Some divisor.

(** [spiCalculateDivider]. *)
Definition spiCalculateDivider (fuel : nat) (freq : Z) : option Z :=
  divider_loop fuel (Z.shiftr (SystemCoreClock / 2) 1) 2 freq.

End Divider.

End Spi.

(** * Facts on fixed-width integers *)

Lemma to_uint16_small z : 0 <= z < 65536 -> to_uint16 z = z.
Proof. intros H. unfold to_uint16. now apply Z.mod_small. Qed.

Lemma to_uint8_small z : 0 <= z < 256 -> to_uint8 z = z.
Proof. intros H. unfold to_uint8. now apply Z.mod_small. Qed.

Lemma to_uint32_small z : 0 <= z < 4294967296 -> to_uint32 z = z.
Proof. intros H. unfold to_uint32. now apply Z.mod_small. Qed.

Lemma to_uint8_range z : 0 <= to_uint8 z < 256.
Proof. unfold to_uint8. apply Z.mod_pos_bound. lia. Qed.

Lemma cmp32_small a b :
  -2147483648 <= a - b < 2147483648 -> cmp32 a b = a - b.
Proof.
  intros H. unfold cmp32, to_int32, to_uint32.
  destruct (Z_lt_le_dec (a - b) 0) as [Hn | Hp].
  - replace ((a - b) mod 4294967296) with (a - b + 4294967296).
    + destruct (Z.ltb_spec (a - b + 4294967296) 2147483648); lia.
    + apply Z.mod_unique with (q := -1); lia.
  - rewrite Z.mod_small by lia.
    destruct (Z.ltb_spec (a - b) 2147483648); lia.
Qed.

(** * Facts on single-precision floats that hold integers *)

Section F32Facts.

Import F32.

(** ** Number of binary digits *)

Lemma digits2_size (p : positive) : digits2_pos p = Pos.size p.
Proof. induction p; simpl; congruence. Qed.

Lemma digits_bounds (p : positive) :
  2 ^ (Zpos (digits2_pos p) - 1) <= Zpos p < 2 ^ Zpos (digits2_pos p).
Proof.
  rewrite digits2_size. split.
  - assert (H : Zpos (2 ^ Pos.size p) <= Zpos p~0) by exact (Pos.size_le p).
    rewrite Pos2Z.inj_pow in H.
    replace (Zpos (Pos.size p)) with (Zpos (Pos.size p) - 1 + 1) in H by lia.
    rewrite Z.pow_add_r in H by lia. lia.
  - assert (H : Zpos p < Zpos (2 ^ Pos.size p)) by exact (Pos.size_gt p).
    now rewrite Pos2Z.inj_pow in H.
Qed.

Lemma digits_unique (p : positive) (d : Z) :
  2 ^ (d - 1) <= Zpos p < 2 ^ d -> Zpos (digits2_pos p) = d.
Proof.
  intros [Hl Hu]. destruct (digits_bounds p) as [Hl' Hu'].
  assert (Hd : 0 < d).
  { destruct (Z_lt_le_dec 0 d) as [| Hn]; [assumption |].
    destruct (Z.eq_dec d 0) as [-> | Hne]; [simpl in Hu; lia |].
    rewrite Z.pow_neg_r in Hu by lia. lia. }
  destruct (Z.lt_trichotomy (Zpos (digits2_pos p)) d) as [Hlt | [Heq | Hgt]].
  - assert (2 ^ Zpos (digits2_pos p) <= 2 ^ (d - 1))
      by (apply Z.pow_le_mono_r; lia). lia.
  - assumption.
  - assert (2 ^ d <= 2 ^ (Zpos (digits2_pos p) - 1))
      by (apply Z.pow_le_mono_r; lia). lia.
Qed.

Lemma digits_mul_pow2 (n m : positive) (k : Z) :
  0 <= k -> Zpos m = Zpos n * 2 ^ k ->
  Zpos (digits2_pos m) = Zpos (digits2_pos n) + k.
Proof.
  intros Hk Hm. apply digits_unique. rewrite Hm.
  destruct (digits_bounds n) as [Hl Hu].
  replace (Zpos (digits2_pos n) + k - 1) with (Zpos (digits2_pos n) - 1 + k)
    by lia.
  rewrite !Z.pow_add_r by lia.
  assert (0 < 2 ^ k) by (apply Z.pow_pos_nonneg; lia).
  split; nia.
Qed.

Lemma digits_le_24 (v : positive) :
  Zpos v < 2 ^ 24 -> 1 <= Zpos (digits2_pos v) <= 24.
Proof.
  intros Hv. destruct (digits_bounds v) as [Hl _]. split; [lia |].
  destruct (Z_le_gt_dec (Zpos (digits2_pos v)) 24) as [| Hgt]; [assumption |].
  assert (2 ^ 24 <= 2 ^ (Zpos (digits2_pos v) - 1))
    by (apply Z.pow_le_mono_r; lia). lia.
Qed.

(** ** Shifts *)

Lemma iter_xO_val (m d : positive) :
  Zpos (Pos.iter xO m d) = Zpos m * 2 ^ Zpos d.
Proof.
  revert m. induction d as [| d IH] using Pos.peano_ind; intros m.
  - simpl. lia.
  - rewrite Pos.iter_succ, Pos2Z.inj_succ, Z.pow_succ_r by lia.
    rewrite Pos2Z.inj_xO, IH. lia.
Qed.

Lemma iter_pos_iter {A : Type} (f : A -> A) (p : positive) (x : A) :
  iter_pos f p x = Pos.iter f x p.
Proof.
  revert x. induction p as [p IH | p IH |]; intros x; simpl.
  - rewrite !IH, !Pos.iter_swap. reflexivity.
  - rewrite !IH. reflexivity.
  - reflexivity.
Qed.

Lemma shr_1_exact (n : positive) :
  shr_1 {| shr_m := Zpos n * 2; shr_r := false; shr_s := false |}
  = {| shr_m := Zpos n; shr_r := false; shr_s := false |}.
Proof. replace (Zpos n * 2) with (Zpos n~0) by lia. reflexivity. Qed.

Lemma shr_exact (p n : positive) :
  iter_pos shr_1 p
    {| shr_m := Zpos n * 2 ^ Zpos p; shr_r := false; shr_s := false |}
  = {| shr_m := Zpos n; shr_r := false; shr_s := false |}.
Proof.
  rewrite iter_pos_iter. revert n.
  induction p as [| p IH] using Pos.peano_ind; intros n.
  - simpl. replace (Zpos n * 2 ^ 1) with (Zpos n * 2) by lia.
    apply shr_1_exact.
  - rewrite Pos.iter_succ_r, Pos2Z.inj_succ, Z.pow_succ_r by lia.
    assert (Hq : exists q, Zpos n * 2 ^ Zpos p = Zpos q).
    { assert (0 < 2 ^ Zpos p) by (apply Z.pow_pos_nonneg; lia).
      destruct (Zpos n * 2 ^ Zpos p) as [| q | q] eqn:E; try lia.
      now exists q. }
    destruct Hq as [q Hq].
    replace (Zpos n * (2 * 2 ^ Zpos p)) with (Zpos q * 2) by lia.
    rewrite shr_1_exact, <- Hq. apply IH.
Qed.

(** ** Rounding of a value that needs none *)

Lemma fexp_normal (e : Z) : -149 <= e - 24 -> fexp prec emax e = e - 24.
Proof. intros H. unfold fexp, emin, prec, emax. lia. Qed.

Lemma round_aux_exact (sx : bool) (n m : positive) (kk e : Z) :
  Zpos (digits2_pos n) = 24 -> 0 <= kk -> Zpos m = Zpos n * 2 ^ kk ->
  -149 <= e + kk <= 104 ->
  binary_round_aux prec emax sx (Zpos m) e loc_Exact
  = S754_finite sx n (e + kk).
Proof.
  intros Hn Hk Hm He.
  assert (Hd : Zpos (digits2_pos m) = 24 + kk).
  { rewrite (digits_mul_pow2 n m kk Hk Hm). lia. }
  unfold binary_round_aux, shr_fexp. simpl Zdigits2. rewrite Hd.
  rewrite fexp_normal by lia.
  replace (24 + kk + e - 24 - e) with kk by lia.
  assert (Hshr : shr (shr_record_of_loc (Zpos m) loc_Exact) e kk
                 = ({| shr_m := Zpos n; shr_r := false; shr_s := false |},
                    e + kk)).
  { unfold shr, shr_record_of_loc. destruct kk as [| p | p]; try lia.
    - f_equal; [| lia]. f_equal. rewrite Hm. simpl. lia.
    - rewrite Hm, shr_exact. reflexivity. }
  rewrite Hshr. simpl. rewrite Hn.
  rewrite fexp_normal by lia.
  replace (24 + (e + kk) - 24 - (e + kk)) with 0 by lia. simpl.
  destruct (Z.leb_spec (e + kk) (emax - prec)) as [| Hgt];
    [reflexivity | unfold emax, prec in Hgt; lia].
Qed.

Lemma norm_mantissa (v : positive) :
  Zpos v < 2 ^ 24 ->
  let d := Zpos (digits2_pos v) in
  Zpos (Z.to_pos (Zpos v * 2 ^ (24 - d))) = Zpos v * 2 ^ (24 - d) /\
  Zpos (digits2_pos (Z.to_pos (Zpos v * 2 ^ (24 - d)))) = 24.
Proof.
  intros Hv d. pose proof (digits_le_24 v Hv) as Hd. fold d in Hd.
  assert (Hp : 0 < 2 ^ (24 - d)) by (apply Z.pow_pos_nonneg; lia).
  assert (E : Zpos (Z.to_pos (Zpos v * 2 ^ (24 - d))) = Zpos v * 2 ^ (24 - d)).
  { rewrite Z2Pos.id; [reflexivity | nia]. }
  split; [exact E |].
  rewrite (digits_mul_pow2 v _ (24 - d)); [fold d; lia | lia | exact E].
Qed.

(** A positive integer below [2^24], given as [m * 2^-s], rounds to its
    canonical form. *)
Lemma round_int (sx : bool) (m v : positive) (s : Z) :
  0 <= s <= 100 -> Zpos m = Zpos v * 2 ^ s -> Zpos v < 2 ^ 24 ->
  binary_round prec emax sx m (- s) = norm_pos sx v.
Proof.
  intros Hs Hm Hv. unfold binary_round, norm_pos.
  pose proof (digits_le_24 v Hv) as Hd.
  destruct (norm_mantissa v Hv) as [En Dn].
  set (d := Zpos (digits2_pos v)) in *.
  set (n := Z.to_pos (Zpos v * 2 ^ (24 - d))) in *.
  rewrite (digits_mul_pow2 v m s) by (lia || exact Hm). fold d.
  replace (d + s + - s) with d by lia.
  rewrite fexp_normal by lia.
  unfold shl_align.
  destruct (d - 24 - - s) as [| p | p] eqn:E.
  - replace (d - 24) with (- s + 0) by lia.
    apply round_aux_exact; try lia; try assumption.
    rewrite Hm, En. replace (24 - d) with s by lia. simpl. lia.
  - replace (d - 24) with (- s + Zpos p) by lia.
    apply round_aux_exact; try lia; try assumption.
    rewrite Hm, En. replace s with (24 - d + Zpos p) at 1 by lia.
    rewrite Z.pow_add_r by lia. lia.
  - replace (d - 24) with (d - 24 + 0) at 2 by lia.
    apply round_aux_exact; try lia; try assumption.
    rewrite iter_xO_val, Hm, En.
    replace (24 - d) with (s + Zpos p) by lia.
    rewrite Z.pow_add_r by lia. simpl. lia.
Qed.

Lemma of_Z_pos (v : positive) :
  Zpos v < 2 ^ 24 -> of_Z (Zpos v) = norm_pos false v.
Proof.
  intros Hv. unfold of_Z, binary_normalize.
  apply (round_int false v v 0); [lia | simpl; lia | assumption].
Qed.

Lemma of_Z_0 : of_Z 0 = S754_zero false.
Proof. reflexivity. Qed.


(** ** Reading an integer back *)

Lemma norm_pos_shape (sx : bool) (v : positive) :
  Zpos v < 2 ^ 24 ->
  exists (m : positive) (e : Z),
    norm_pos sx v = S754_finite sx m e /\ -23 <= e <= 0 /\
    Zpos m = Zpos v * 2 ^ (- e) /\ Zpos (digits2_pos m) = 24 /\
    e = Zpos (digits2_pos v) - 24.
Proof.
  intros Hv. pose proof (digits_le_24 v Hv) as Hd.
  destruct (norm_mantissa v Hv) as [En Dn].
  eexists _, _. split; [reflexivity |].
  repeat split; try lia; try assumption.
  rewrite En. f_equal. f_equal. lia.
Qed.

Lemma to_Z_norm_pos (v : positive) :
  Zpos v < 2 ^ 24 -> to_Z (norm_pos false v) = Zpos v.
Proof.
  intros Hv. destruct (norm_pos_shape false v Hv)
    as (m & e & -> & He & Hm & _ & _).
  unfold to_Z. destruct e as [| p | p]; try lia.
  - simpl in Hm. rewrite Z.shiftl_0_r. lia.
  - rewrite Z.shiftr_div_pow2 by lia. rewrite Hm.
    replace (- Zneg p) with (Zpos p) by lia.
    apply Z.div_mul. apply Z.pow_nonzero; lia.
Qed.

Lemma lrintf_norm_pos (v : positive) :
  Zpos v < 2 ^ 24 -> lrintf (norm_pos false v) = Zpos v.
Proof.
  intros Hv. destruct (norm_pos_shape false v Hv)
    as (m & e & -> & He & Hm & _ & _).
  unfold lrintf. destruct e as [| p | p]; try lia.
  - simpl in Hm. rewrite Z.shiftl_0_r. lia.
  - replace (- Zneg p) with (Zpos p) in Hm by lia.
    rewrite Z.shiftl_mul_pow2, Z.mul_1_l by lia.
    assert (Hp : 0 < 2 ^ Zpos p) by (apply Z.pow_pos_nonneg; lia).
    rewrite Hm, Z.div_mul, Z.mod_mul by lia.
    destruct (Z.compare_spec (2 * 0) (2 ^ Zpos p)); lia.
Qed.

Lemma to_Z_of_Z (n : Z) : 0 <= n < 2 ^ 24 -> to_Z (of_Z n) = n.
Proof.
  intros Hn. destruct n as [| v | v]; try lia; [reflexivity |].
  rewrite of_Z_pos by lia. apply to_Z_norm_pos. lia.
Qed.

Lemma lrintf_of_Z (n : Z) : 0 <= n < 2 ^ 24 -> lrintf (of_Z n) = n.
Proof.
  intros Hn. destruct n as [| v | v]; try lia; [reflexivity |].
  rewrite of_Z_pos by lia. apply lrintf_norm_pos. lia.
Qed.

(** ** Order *)

Lemma compare_norm_pos (a b : positive) :
  Zpos a < 2 ^ 24 -> Zpos b < 2 ^ 24 ->
  SFcompare (norm_pos false a) (norm_pos false b) = Some (Zpos a ?= Zpos b).
Proof.
  intros Ha Hb.
  destruct (norm_pos_shape false a Ha) as (ma & ea & -> & Hea & Hma & _ & Da).
  destruct (norm_pos_shape false b Hb) as (mb & eb & -> & Heb & Hmb & _ & Db).
  destruct (digits_bounds a) as [La Ua]. destruct (digits_bounds b) as [Lb Ub].
  simpl. f_equal. change (a ?= b)%positive with (Zpos a ?= Zpos b).
  destruct (Z.compare_spec ea eb) as [Heq | Hlt | Hgt].
  - change (PosDef.Pos.compare_cont Eq ma mb) with (Zpos ma ?= Zpos mb).
    rewrite Hma, Hmb, <- Heq.
    assert (Hp : 0 < 2 ^ (- ea)) by (apply Z.pow_pos_nonneg; lia).
    destruct (Z.compare_spec (Zpos a) (Zpos b)) as [E | L | G].
    + rewrite E. apply Z.compare_refl.
    + apply Z.compare_lt_iff. nia.
    + apply Z.compare_gt_iff. nia.
  - symmetry. apply Z.compare_lt_iff.
    assert (2 ^ Zpos (digits2_pos a) <= 2 ^ (Zpos (digits2_pos b) - 1))
      by (apply Z.pow_le_mono_r; lia). lia.
  - symmetry. apply Z.compare_gt_iff.
    assert (2 ^ Zpos (digits2_pos b) <= 2 ^ (Zpos (digits2_pos a) - 1))
      by (apply Z.pow_le_mono_r; lia). lia.
Qed.

Lemma compare_of_Z (a b : Z) :
  0 <= a < 2 ^ 24 -> 0 <= b < 2 ^ 24 ->
  SFcompare (of_Z a) (of_Z b) = Some (a ?= b).
Proof.
  intros Ha Hb.
  destruct a as [| a | a], b as [| b | b]; try lia; try reflexivity.
  - rewrite (of_Z_pos b) by lia. reflexivity.
  - rewrite (of_Z_pos a) by lia. reflexivity.
  - rewrite (of_Z_pos a), (of_Z_pos b) by lia.
    apply compare_norm_pos; lia.
Qed.

Lemma of_Z_not_nan (a : Z) : 0 <= a < 2 ^ 24 -> is_nan (of_Z a) = false.
Proof.
  intros Ha. destruct a as [| a | a]; try lia; [reflexivity |].
  rewrite of_Z_pos by lia. reflexivity.
Qed.

Lemma ltb_of_Z (a b : Z) :
  0 <= a < 2 ^ 24 -> 0 <= b < 2 ^ 24 -> ltb (of_Z a) (of_Z b) = (a <? b).
Proof.
  intros Ha Hb. unfold ltb, SFltb. rewrite compare_of_Z by assumption.
  unfold Z.ltb. destruct (a ?= b); reflexivity.
Qed.

Lemma fmaxf_of_Z (a b : Z) :
  0 <= a < 2 ^ 24 -> 0 <= b < 2 ^ 24 ->
  fmaxf (of_Z a) (of_Z b) = of_Z (Z.max a b).
Proof.
  intros Ha Hb. unfold fmaxf.
  rewrite !of_Z_not_nan, ltb_of_Z by assumption.
  destruct (Z.ltb_spec a b); f_equal; lia.
Qed.

Lemma fminf_of_Z (a b : Z) :
  0 <= a < 2 ^ 24 -> 0 <= b < 2 ^ 24 ->
  fminf (of_Z a) (of_Z b) = of_Z (Z.min a b).
Proof.
  intros Ha Hb. unfold fminf.
  rewrite !of_Z_not_nan, ltb_of_Z by assumption.
  destruct (Z.ltb_spec b a); f_equal; lia.
Qed.

Lemma float_to_uint16_of_Z (n : Z) :
  0 <= n < 65536 -> Receiver.float_to_uint16 (of_Z n) = n.
Proof.
  intros Hn. unfold Receiver.float_to_uint16.
  rewrite to_Z_of_Z by lia. now apply to_uint16_small.
Qed.

(** ** Sums and differences of integers are exact *)

Lemma shl_align_val (m : positive) (e ez : Z) :
  ez <= e -> Zpos (fst (shl_align m e ez)) = Zpos m * 2 ^ (e - ez).
Proof.
  intros H. unfold shl_align.
  destruct (ez - e) as [| p | p] eqn:E; try lia.
  - replace (e - ez) with 0 by lia. simpl. lia.
  - simpl. rewrite iter_xO_val. f_equal. f_equal. lia.
Qed.

Lemma aligned_val (v m : positive) (e ez : Z) :
  Zpos m = Zpos v * 2 ^ (- e) -> e <= 0 -> ez <= e ->
  Zpos (fst (shl_align m e ez)) = Zpos v * 2 ^ (- ez).
Proof.
  intros Hm He Hz. rewrite shl_align_val, Hm by assumption.
  rewrite <- Z.mul_assoc, <- Z.pow_add_r by lia. f_equal. f_equal. lia.
Qed.

Lemma add_norm_pos (a b : positive) :
  Zpos a + Zpos b < 2 ^ 24 ->
  add (norm_pos false a) (norm_pos false b) = norm_pos false (a + b).
Proof.
  intros Hab.
  destruct (norm_pos_shape false a) as (ma & ea & -> & Hea & Hma & _ & _);
    [lia |].
  destruct (norm_pos_shape false b) as (mb & eb & -> & Heb & Hmb & _ & _);
    [lia |].
  unfold add, SFadd. simpl cond_Zopp.
  rewrite (aligned_val a ma ea (Z.min ea eb)) by (assumption || lia).
  rewrite (aligned_val b mb eb (Z.min ea eb)) by (assumption || lia).
  set (ez := Z.min ea eb).
  assert (Hp : 0 < 2 ^ (- ez)) by (apply Z.pow_pos_nonneg; lia).
  destruct (Zpos a * 2 ^ (- ez) + Zpos b * 2 ^ (- ez)) as [| m | m] eqn:E;
    try nia.
  unfold binary_normalize.
  replace ez with (- (- ez)) at 1 by lia.
  apply round_int; [lia | | lia].
  rewrite <- E, Pos2Z.inj_add. lia.
Qed.

Lemma add_of_Z (a b : Z) :
  0 <= a -> 0 <= b -> a + b < 2 ^ 24 -> add (of_Z a) (of_Z b) = of_Z (a + b).
Proof.
  intros Ha Hb Hab.
  destruct a as [| a | a], b as [| b | b]; try lia.
  - reflexivity.
  - rewrite Z.add_0_l, (of_Z_pos b) by lia. reflexivity.
  - rewrite Z.add_0_r, (of_Z_pos a) by lia. reflexivity.
  - rewrite (of_Z_pos a), (of_Z_pos b) by lia.
    rewrite add_norm_pos by lia. symmetry.
    apply (of_Z_pos (a + b)). lia.
Qed.

Lemma sub_norm_pos (a b : positive) :
  Zpos b < Zpos a -> Zpos a < 2 ^ 24 ->
  sub (norm_pos false a) (norm_pos false b) = norm_pos false (a - b).
Proof.
  intros Hba Ha.
  destruct (norm_pos_shape false a) as (ma & ea & -> & Hea & Hma & _ & _);
    [lia |].
  destruct (norm_pos_shape false b) as (mb & eb & -> & Heb & Hmb & _ & _);
    [lia |].
  unfold sub, SFsub. simpl cond_Zopp.
  rewrite (aligned_val a ma ea (Z.min ea eb)) by (assumption || lia).
  rewrite (aligned_val b mb eb (Z.min ea eb)) by (assumption || lia).
  set (ez := Z.min ea eb).
  assert (Hp : 0 < 2 ^ (- ez)) by (apply Z.pow_pos_nonneg; lia).
  destruct (Zpos a * 2 ^ (- ez) - Zpos b * 2 ^ (- ez)) as [| m | m] eqn:E;
    try nia.
  unfold binary_normalize.
  replace ez with (- (- ez)) at 1 by lia.
  apply round_int; [lia | | lia].
  rewrite <- E, Pos2Z.inj_sub by lia. lia.
Qed.

Lemma sub_of_Z (a b : Z) :
  0 <= b <= a -> a < 2 ^ 24 -> sub (of_Z a) (of_Z b) = of_Z (a - b).
Proof.
  intros Hb Ha.
  destruct a as [| a | a], b as [| b | b]; try lia.
  - reflexivity.
  - rewrite Z.sub_0_r, (of_Z_pos a) by lia. reflexivity.
  - destruct (Z.eq_dec (Zpos a) (Zpos b)) as [E | N].
    + injection E as ->. rewrite Z.sub_diag, (of_Z_pos b) by lia.
      destruct (norm_pos_shape false b) as (mb & eb & -> & Heb & Hmb & _ & _);
        [lia |].
      unfold sub, SFsub. simpl cond_Zopp.
      rewrite Z.sub_diag. reflexivity.
    + rewrite (of_Z_pos a), (of_Z_pos b) by lia.
      rewrite sub_norm_pos by lia. symmetry.
      replace (Zpos a - Zpos b) with (Zpos (a - b))
        by (rewrite Pos2Z.inj_sub; lia).
      apply of_Z_pos. rewrite Pos2Z.inj_sub; lia.
Qed.

(** ** Exact quotients *)

Lemma new_location_0 (n : Z) : new_location n 0 = loc_Exact.
Proof. unfold new_location. destruct (Z.even n); reflexivity. Qed.

Lemma digits_mul_le (a b : positive) :
  Zpos (digits2_pos (a * b))
  <= Zpos (digits2_pos a) + Zpos (digits2_pos b).
Proof.
  destruct (digits_bounds a) as [_ Ua]. destruct (digits_bounds b) as [_ Ub].
  destruct (digits_bounds (a * b)) as [Lab _].
  rewrite Pos2Z.inj_mul in Lab.
  destruct (Z_le_gt_dec (Zpos (digits2_pos (a * b)))
              (Zpos (digits2_pos a) + Zpos (digits2_pos b))) as [| Hgt];
    [assumption |].
  assert (2 ^ (Zpos (digits2_pos a) + Zpos (digits2_pos b))
          <= 2 ^ (Zpos (digits2_pos (a * b)) - 1))
    by (apply Z.pow_le_mono_r; lia).
  rewrite Z.pow_add_r in H by lia. nia.
Qed.

Lemma div_norm_pos (q b : positive) :
  Zpos q * Zpos b < 2 ^ 24 ->
  div (norm_pos false (q * b)) (norm_pos false b) = norm_pos false q.
Proof.
  intros Hqb.
  assert (Hq : Zpos q < 2 ^ 24) by nia.
  assert (Hb : Zpos b < 2 ^ 24) by nia.
  pose proof (digits_mul_le q b) as Hdig.
  destruct (norm_pos_shape false (q * b))
    as (m1 & e1 & -> & He1 & Hm1 & D1 & E1); [lia |].
  destruct (norm_pos_shape false b)
    as (m2 & e2 & -> & He2 & Hm2 & D2 & E2); [lia |].
  pose proof (digits_le_24 q Hq) as Hdq.
  destruct (norm_mantissa q Hq) as [En Dn].
  unfold div, SFdiv, SFdiv_core_binary. simpl Zdigits2. rewrite D1, D2.
  replace (24 + e1 - (24 + e2)) with (e1 - e2) by lia.
  rewrite fexp_normal by lia.
  replace (Z.min (e1 - e2 - 24) (e1 - e2)) with (e1 - e2 - 24) by lia.
  replace (e1 - e2 - (e1 - e2 - 24)) with 24 by lia.
  set (kk := Zpos (digits2_pos q) - e1 + e2).
  set (n := Z.to_pos (Zpos q * 2 ^ (24 - Zpos (digits2_pos q)))) in *.
  assert (Hkk : 0 <= kk) by (unfold kk; lia).
  assert (P1 : 0 < 2 ^ (- e1)) by (apply Z.pow_pos_nonneg; lia).
  assert (P2 : 0 < 2 ^ (- e2)) by (apply Z.pow_pos_nonneg; lia).
  assert (Pk : 0 < 2 ^ kk) by (apply Z.pow_pos_nonneg; lia).
  assert (Hpow : 2 ^ (24 - Zpos (digits2_pos q)) * 2 ^ kk * 2 ^ (- e2)
                 = 2 ^ 24 * 2 ^ (- e1)).
  { rewrite <- !Z.pow_add_r by lia. f_equal. unfold kk. lia. }
  assert (Hm' : Z.shiftl (Zpos m1) 24 = (Zpos n * 2 ^ kk) * Zpos m2).
  { rewrite Z.shiftl_mul_pow2, Hm1, Hm2, En, Pos2Z.inj_mul by lia.
    transitivity (Zpos q * Zpos b *
                  (2 ^ (24 - Zpos (digits2_pos q)) * 2 ^ kk * 2 ^ (- e2)));
      [rewrite Hpow; ring | ring]. }
  destruct (Z.div_eucl (Z.shiftl (Zpos m1) 24) (Zpos m2)) as [q' r] eqn:E.
  assert (Hq' : q' = Zpos n * 2 ^ kk).
  { change q' with (fst (q', r)). rewrite <- E.
    change (fst (Z.div_eucl (Z.shiftl (Zpos m1) 24) (Zpos m2)))
      with (Z.shiftl (Zpos m1) 24 / Zpos m2).
    rewrite Hm'. apply Z.div_mul. lia. }
  assert (Hr : r = 0).
  { change r with (snd (q', r)). rewrite <- E.
    change (snd (Z.div_eucl (Z.shiftl (Zpos m1) 24) (Zpos m2)))
      with (Z.shiftl (Zpos m1) 24 mod Zpos m2).
    rewrite Hm'. apply Z.mod_mul. lia. }
  subst r. rewrite new_location_0. simpl xorb.
  assert (Hq'pos : 0 < q') by (rewrite Hq'; apply Z.mul_pos_pos; lia).
  destruct q' as [| mq | mq]; try lia.
  unfold norm_pos. fold n.
  replace (Zpos (digits2_pos q) - 24) with (e1 - e2 - 24 + kk)
    by (unfold kk; lia).
  apply round_aux_exact; try assumption; unfold kk; lia.
Qed.

Lemma div_of_Z (q b : Z) :
  0 < q -> 0 < b -> q * b < 2 ^ 24 ->
  div (of_Z (q * b)) (of_Z b) = of_Z q.
Proof.
  intros Hq Hb Hqb.
  destruct q as [| q | q], b as [| b | b]; try lia.
  assert (Zpos q < 2 ^ 24) by nia. assert (Zpos b < 2 ^ 24) by nia.
  change (Zpos q * Zpos b) with (Zpos (q * b)).
  rewrite (of_Z_pos (q * b)), (of_Z_pos b), (of_Z_pos q)
    by (assumption || (rewrite Pos2Z.inj_mul; lia)).
  now apply div_norm_pos.
Qed.

End F32Facts.

Section MagnitudeFacts.
Import F32.

(** ** Right shifts drop low bits *)

Lemma shr_1_m (mrs : shr_record) :
  0 <= shr_m mrs -> shr_m (shr_1 mrs) = shr_m mrs / 2.
Proof.
  destruct mrs as [m r s]. cbn [shr_m]. intros Hm.
  destruct m as [| p | p]; [reflexivity | | lia].
  destruct p as [p | p |]; cbn [shr_1 shr_m].
  - apply Z.div_unique with 1; lia.
  - apply Z.div_unique with 0; lia.
  - reflexivity.
Qed.

Lemma shr_m_iter (p : positive) (mrs : shr_record) :
  0 <= shr_m mrs ->
  shr_m (iter_pos shr_1 p mrs) = shr_m mrs / 2 ^ Zpos p.
Proof.
  rewrite iter_pos_iter. intros Hm.
  induction p as [| p IH] using Pos.peano_ind.
  - cbn [Pos.iter]. rewrite shr_1_m by assumption. reflexivity.
  - rewrite Pos.iter_succ, shr_1_m.
    + rewrite IH, Pos2Z.inj_succ, Z.pow_succ_r by lia.
      rewrite Z.div_div by (try apply Z.pow_pos_nonneg; lia).
      f_equal. lia.
    + rewrite IH. apply Z.div_pos; [assumption |].
      apply Z.pow_pos_nonneg; lia.
Qed.

Lemma shr_spec (mrs : shr_record) (e n : Z) :
  0 <= shr_m mrs ->
  shr_m (fst (shr mrs e n)) = shr_m mrs / 2 ^ Z.max n 0 /\
  snd (shr mrs e n) = e + Z.max n 0.
Proof.
  intros Hm. destruct n as [| p | p]; cbn [shr fst snd].
  - rewrite Z.div_1_r. split; [reflexivity | lia].
  - rewrite shr_m_iter by assumption.
    replace (Z.max (Zpos p) 0) with (Zpos p) by lia. split; reflexivity.
  - replace (Z.max (Zneg p) 0) with 0 by lia.
    rewrite Z.div_1_r. split; [reflexivity | lia].
Qed.

Lemma shr_zero (p : positive) :
  iter_pos shr_1 p {| shr_m := 0; shr_r := false; shr_s := false |}
  = {| shr_m := 0; shr_r := false; shr_s := false |}.
Proof.
  rewrite iter_pos_iter.
  induction p as [| p IH] using Pos.peano_ind.
  - reflexivity.
  - rewrite Pos.iter_succ, IH. reflexivity.
Qed.

(** Nothing is lost when the bits shifted out are zero. *)
Lemma shr_divisible (m e n : Z) :
  0 <= m -> m mod 2 ^ Z.max n 0 = 0 ->
  loc_of_shr_record (fst (shr (shr_record_of_loc m loc_Exact) e n))
  = loc_Exact.
Proof.
  intros Hm Hd. destruct n as [| p | p]; cbn [shr fst]; try reflexivity.
  replace (Z.max (Zpos p) 0) with (Zpos p) in Hd by lia.
  assert (Hp : 0 < 2 ^ Zpos p) by (apply Z.pow_pos_nonneg; lia).
  cbn [shr_record_of_loc].
  destruct (Z.eq_dec m 0) as [-> | Hne].
  - rewrite shr_zero. reflexivity.
  - assert (E : m = m / 2 ^ Zpos p * 2 ^ Zpos p).
    { rewrite (Z.div_mod m (2 ^ Zpos p)) at 1 by lia. lia. }
    destruct (m / 2 ^ Zpos p) as [| q | q] eqn:Eq; try nia.
    rewrite E, shr_exact. reflexivity.
Qed.

Lemma rne_bounds (m : Z) (l : location) :
  m <= round_nearest_even m l <= m + 1.
Proof.
  destruct l as [| []]; cbn [round_nearest_even]; try lia.
  destruct (Z.even m); lia.
Qed.

Lemma shr_record_of_loc_m (m : Z) (l : location) :
  shr_m (shr_record_of_loc m l) = m.
Proof. destruct l as [| []]; reflexivity. Qed.

(** ** The two stages of [binary_round_aux] *)

Lemma round_aux_shape (sx : bool) (mx ex : Z) (lx : location) :
  0 <= mx ->
  exists m1 : Z,
    let n1 := Z.max (fexp prec emax (Zdigits2 mx + ex) - ex) 0 in
    let e1 := ex + n1 in
    let n2 := Z.max (fexp prec emax (Zdigits2 m1 + e1) - e1) 0 in
    mx / 2 ^ n1 <= m1 <= mx / 2 ^ n1 + 1 /\
    (lx = loc_Exact -> mx mod 2 ^ n1 = 0 -> m1 = mx / 2 ^ n1) /\
    binary_round_aux prec emax sx mx ex lx
    = match m1 / 2 ^ n2 with
      | Z0 => S754_zero sx
      | Zpos m =>
          if e1 + n2 <=? emax - prec then S754_finite sx m (e1 + n2)
          else S754_infinity sx
      | Zneg _ => S754_nan
      end.
Proof.
  intros Hm.
  set (n := fexp prec emax (Zdigits2 mx + ex) - ex).
  assert (Hrec : 0 <= shr_m (shr_record_of_loc mx lx))
    by (rewrite shr_record_of_loc_m; assumption).
  destruct (shr_spec (shr_record_of_loc mx lx) ex n Hrec) as [Hm1 He1].
  rewrite shr_record_of_loc_m in Hm1.
  set (r1 := fst (shr (shr_record_of_loc mx lx) ex n)) in *.
  set (m1 := round_nearest_even (shr_m r1) (loc_of_shr_record r1)).
  exists m1. cbv zeta. fold n.
  pose proof (rne_bounds (shr_m r1) (loc_of_shr_record r1)) as Hb.
  fold m1 in Hb. rewrite Hm1 in Hb.
  assert (Hq : 0 <= mx / 2 ^ Z.max n 0).
  { apply Z.div_pos; [assumption | apply Z.pow_pos_nonneg; lia]. }
  split; [exact Hb |]. split.
  - intros -> Hd. unfold m1.
    unfold r1. rewrite shr_divisible by assumption.
    fold r1. cbn [round_nearest_even]. exact Hm1.
  - unfold binary_round_aux, shr_fexp. fold n.
    destruct (shr (shr_record_of_loc mx lx) ex n) as [r1' e1'] eqn:E1.
    cbn [fst snd] in *. subst r1. subst e1'. fold m1.
    set (e1 := ex + Z.max n 0).
    set (n2 := fexp prec emax (Zdigits2 m1 + e1) - e1).
    assert (Hrec2 : 0 <= shr_m (shr_record_of_loc m1 loc_Exact))
      by (cbn [shr_record_of_loc shr_m]; lia).
    destruct (shr_spec (shr_record_of_loc m1 loc_Exact) e1 n2 Hrec2)
      as [Hm2 He2].
    destruct (shr (shr_record_of_loc m1 loc_Exact) e1 n2) as [r2 e2].
    cbn [fst snd shr_record_of_loc shr_m] in *. rewrite Hm2, He2.
    reflexivity.
Qed.

(** ** The exponent chosen for a magnitude *)

Lemma fexp_eq (x : Z) : fexp prec emax x = Z.max (x - 24) (-149).
Proof. reflexivity. Qed.

Lemma Zdigits2_bounds (m : Z) :
  0 < m -> 2 ^ (Zdigits2 m - 1) <= m < 2 ^ Zdigits2 m.
Proof.
  destruct m as [| p | p]; try lia. intros _. apply digits_bounds.
Qed.

Lemma pow2_split (a b : Z) : 0 <= b <= a -> 2 ^ a = 2 ^ (a - b) * 2 ^ b.
Proof. intros H. rewrite <- Z.pow_add_r by lia. f_equal. lia. Qed.

Lemma pow2_pos (a : Z) : 0 <= a -> 0 < 2 ^ a.
Proof. intros H. apply Z.pow_pos_nonneg; lia. Qed.

Lemma pow2_le_inv (a b : Z) : 0 <= a -> 0 <= b -> 2 ^ a <= 2 ^ b -> a <= b.
Proof.
  intros Ha Hb H. destruct (Z_le_gt_dec a b) as [| Hgt]; [assumption |].
  assert (2 ^ (b + 1) <= 2 ^ a) by (apply Z.pow_le_mono_r; lia).
  rewrite Z.pow_add_r in * by lia. pose proof (pow2_pos b Hb). lia.
Qed.

(** The shift of a value that is at most [2^k]. *)
Lemma shift_le (m e k : Z) :
  0 <= m -> e <= k -> -149 <= k -> m <= 2 ^ (k - e) ->
  let n := Z.max (fexp prec emax (Zdigits2 m + e) - e) 0 in
  e + n <= k /\
  0 <= m / 2 ^ n <= 2 ^ (k - e - n) /\
  (m < 2 ^ (k - e) -> m / 2 ^ n < 2 ^ (k - e - n)) /\
  (m = 2 ^ (k - e) -> m mod 2 ^ n = 0) /\
  (e <= 104 -> k <= 127 -> e + n <= 104).
Proof.
  intros Hm He Hk Hle. cbv zeta. rewrite fexp_eq.
  set (n := Z.max (Z.max (Zdigits2 m + e - 24) (-149) - e) 0).
  assert (Hd : Zdigits2 m + e - 1 <= k).
  { destruct (Z.eq_dec m 0) as [-> | Hne]; [cbn; lia |].
    destruct (Zdigits2_bounds m) as [Hl _]; [lia |].
    assert (0 < Zdigits2 m) by (destruct m; cbn; lia).
    assert (Zdigits2 m - 1 <= k - e); [| lia].
    apply pow2_le_inv; lia. }
  assert (Hn : 0 <= n <= k - e) by lia.
  pose proof (pow2_pos n (proj1 Hn)) as Hp.
  pose proof (pow2_split (k - e) n Hn) as Hs.
  split; [lia |]. split; [| split; [| split]].
  - split; [apply Z.div_pos; lia |].
    apply Z.div_le_upper_bound; lia.
  - intros Hlt. apply Z.div_lt_upper_bound; lia.
  - intros ->. rewrite Hs. apply Z.mod_mul. lia.
  - lia.
Qed.

(** The shift of a value that is at least [2^k]. *)
Lemma shift_ge (m e k : Z) :
  0 < m -> -149 <= k -> (k <= e \/ 2 ^ (k - e) <= m) ->
  let n := Z.max (fexp prec emax (Zdigits2 m + e) - e) 0 in
  0 < m / 2 ^ n /\ (k <= e + n \/ 2 ^ (k - e - n) <= m / 2 ^ n).
Proof.
  intros Hm Hk Hge. cbv zeta. rewrite fexp_eq.
  set (n := Z.max (Z.max (Zdigits2 m + e - 24) (-149) - e) 0).
  destruct (Zdigits2_bounds m Hm) as [Hl _].
  assert (Hdp : 0 < Zdigits2 m) by (destruct m; cbn; lia).
  assert (Hn0 : 0 <= n) by lia.
  pose proof (pow2_pos n Hn0) as Hp.
  assert (Hnm : 2 ^ n <= m).
  { destruct (Z_le_gt_dec n (Zdigits2 m - 1)) as [Hc | Hc].
    - apply Z.le_trans with (2 ^ (Zdigits2 m - 1)); [| assumption].
      apply Z.pow_le_mono_r; lia.
    - destruct Hge as [Hge | Hge]; [lia |].
      apply Z.le_trans with (2 ^ (k - e)); [| assumption].
      apply Z.pow_le_mono_r; lia. }
  split.
  - apply Z.div_str_pos. lia.
  - destruct (Z_le_gt_dec k (e + n)) as [| Hgt]; [now left | right].
    destruct Hge as [Hge | Hge]; [lia |].
    apply Z.div_le_lower_bound; [lia |].
    rewrite (pow2_split (k - e) n) in Hge by lia. lia.
Qed.

(** ** Rounding keeps a value on its side of a power of two *)

Lemma round_aux_le (mx ex : Z) (lx : location) (k : Z) :
  0 <= mx -> ex <= k -> ex <= 104 -> -149 <= k <= 127 ->
  mx <= 2 ^ (k - ex) -> (mx = 2 ^ (k - ex) -> lx = loc_Exact) ->
  le_pow2 (binary_round_aux prec emax false mx ex lx) k.
Proof.
  intros Hm He H104 Hk Hle Hex.
  destruct (round_aux_shape false mx ex lx Hm) as (m1 & Hb & Hexact & ->).
  destruct (shift_le mx ex k Hm He (proj1 Hk) Hle)
    as (He1 & Hq & Hlt & Hmod & Hfin).
  set (n1 := Z.max (fexp prec emax (Zdigits2 mx + ex) - ex) 0) in *.
  set (e1 := ex + n1) in *.
  assert (Hm1 : 0 <= m1 <= 2 ^ (k - e1)).
  { replace (k - e1) with (k - ex - n1) by (unfold e1; lia).
    destruct (Z.eq_dec mx (2 ^ (k - ex))) as [E | N].
    - rewrite (Hexact (Hex E) (Hmod E)). lia.
    - assert (mx / 2 ^ n1 < 2 ^ (k - ex - n1)) by (apply Hlt; lia). lia. }
  destruct (shift_le m1 e1 k (proj1 Hm1) He1 (proj1 Hk) (proj2 Hm1))
    as (He2 & Hq2 & _ & _ & Hfin2).
  set (n2 := Z.max (fexp prec emax (Zdigits2 m1 + e1) - e1) 0) in *.
  destruct (m1 / 2 ^ n2) as [| m | m] eqn:E2; [exact I | | lia].
  assert (H2 : e1 + n2 <= 104) by (apply Hfin2; [apply Hfin |]; lia).
  destruct (Z.leb_spec (e1 + n2) (emax - prec)) as [| Hgt];
    [| unfold emax, prec in Hgt; lia].
  cbn [le_pow2]. split; [lia |].
  replace (k - (e1 + n2)) with (k - e1 - n2) by lia. lia.
Qed.

Lemma round_aux_ge (mx ex : Z) (lx : location) (k : Z) :
  0 < mx -> -149 <= k -> (k <= ex \/ 2 ^ (k - ex) <= mx) ->
  ge_pow2 (binary_round_aux prec emax false mx ex lx) k.
Proof.
  intros Hm Hk Hge.
  destruct (round_aux_shape false mx ex lx) as (m1 & Hb & _ & ->); [lia |].
  destruct (shift_ge mx ex k Hm Hk Hge) as (Hq & Hge1).
  set (n1 := Z.max (fexp prec emax (Zdigits2 mx + ex) - ex) 0) in *.
  set (e1 := ex + n1) in *.
  assert (Hm1 : 0 < m1) by lia.
  assert (Hge1' : k <= e1 \/ 2 ^ (k - e1) <= m1).
  { destruct Hge1 as [| H]; [now left | right].
    replace (k - e1) with (k - ex - n1) by (unfold e1; lia). lia. }
  destruct (shift_ge m1 e1 k Hm1 Hk Hge1') as (Hq2 & Hge2).
  set (n2 := Z.max (fexp prec emax (Zdigits2 m1 + e1) - e1) 0) in *.
  destruct (m1 / 2 ^ n2) as [| m | m] eqn:E2; try lia.
  destruct (e1 + n2 <=? emax - prec); [| exact I].
  cbn [ge_pow2].
  replace (k - (e1 + n2)) with (k - e1 - n2) by lia. exact Hge2.
Qed.

Lemma round_aux_pos0 (mx ex : Z) (lx : location) :
  0 <= mx -> pos0 (binary_round_aux prec emax false mx ex lx).
Proof.
  intros Hm.
  destruct (round_aux_shape false mx ex lx Hm) as (m1 & Hb & _ & ->).
  cbv zeta in *.
  set (n1 := Z.max (fexp prec emax (Zdigits2 mx + ex) - ex) 0) in *.
  set (n2 := Z.max _ 0).
  assert (0 <= mx / 2 ^ n1) by (apply Z.div_pos; [| apply pow2_pos]; lia).
  assert (0 <= m1 / 2 ^ n2) by (apply Z.div_pos; [| apply pow2_pos]; lia).
  destruct (m1 / 2 ^ n2) as [| m | m]; [exact I | | lia].
  destruct (_ <=? _); reflexivity.
Qed.

(** ** Products, quotients and sums against powers of two *)

Lemma ge_pow2_max (k e : Z) (m : positive) :
  k <= e \/ 2 ^ (k - e) <= Zpos m -> 2 ^ Z.max (k - e) 0 <= Zpos m.
Proof.
  intros [H | H].
  - replace (Z.max (k - e) 0) with 0 by lia. cbn. lia.
  - destruct (Z_le_gt_dec (k - e) 0) as [Hn | Hp].
    + replace (Z.max (k - e) 0) with 0 by lia. cbn. lia.
    + replace (Z.max (k - e) 0) with (k - e) by lia. exact H.
Qed.

Lemma mul_ge_pow2 (x y : float) (a b : Z) :
  ge_pow2 x a -> ge_pow2 y b -> -149 <= a + b ->
  ge_pow2 (mul x y) (a + b).
Proof.
  destruct x as [sx | [] | | [] mx ex]; try contradiction;
    destruct y as [sy | [] | | [] my ey]; try contradiction;
    intros Hx Hy Hk; try exact I.
  unfold mul, SFmul. cbn [xorb].
  apply round_aux_ge; [lia | assumption |].
  apply ge_pow2_max in Hx, Hy.
  destruct (Z_le_gt_dec (a + b) (ex + ey)) as [| Hgt]; [now left | right].
  apply Z.le_trans with (2 ^ (Z.max (a - ex) 0 + Z.max (b - ey) 0)).
  - apply Z.pow_le_mono_r; lia.
  - rewrite Z.pow_add_r, Pos2Z.inj_mul by lia.
    apply Z.mul_le_mono_nonneg; try assumption; apply Z.pow_nonneg; lia.
Qed.

Lemma mul_le_pow2 (x y : float) (a b : Z) :
  le_pow2 x a -> le_pow2 y b -> -149 <= a + b <= 104 ->
  le_pow2 (mul x y) (a + b).
Proof.
  destruct x as [sx | sx | | [] mx ex]; try contradiction;
    destruct y as [sy | sy | | [] my ey]; try contradiction;
    intros Hx Hy Hk; try exact I.
  destruct Hx as [Hex Hmx], Hy as [Hey Hmy].
  unfold mul, SFmul. cbn [xorb].
  assert (Hp : Zpos (mx * my) <= 2 ^ (a + b - (ex + ey))).
  { replace (a + b - (ex + ey)) with ((a - ex) + (b - ey)) by lia.
    rewrite Z.pow_add_r, Pos2Z.inj_mul by lia.
    apply Z.mul_le_mono_nonneg; lia. }
  apply round_aux_le; try lia. reflexivity.
Qed.

Lemma div_le_pow2 (x y : float) (a b : Z) :
  le_pow2 x a -> ge_pow2 y b -> -149 <= a - b <= 127 ->
  le_pow2 (div x y) (a - b).
Proof.
  destruct x as [sx | sx | | [] mx ex]; try contradiction;
    destruct y as [sy | [] | | [] my ey]; try contradiction;
    intros Hx Hy Hk; try exact I.
  destruct Hx as [Hex Hmx]. apply ge_pow2_max in Hy.
  unfold div, SFdiv, SFdiv_core_binary. cbn [xorb].
  set (d1 := Zdigits2 (Zpos mx)). set (d2 := Zdigits2 (Zpos my)).
  rewrite fexp_eq.
  set (e' := Z.min (Z.max (d1 + ex - (d2 + ey) - 24) (-149)) (ex - ey)).
  set (s := ex - ey - e').
  set (m' := match s with
             | 0 => Zpos mx
             | Zpos _ => Z.shiftl (Zpos mx) s
             | Zneg _ => 0
             end).
  assert (Hs : 0 <= s) by (unfold s, e'; lia).
  assert (Hm' : m' = Zpos mx * 2 ^ s).
  { unfold m'. destruct s as [| p | p] eqn:Es; try lia.
    apply Z.shiftl_mul_pow2. lia. }
  destruct (Zdigits2_bounds (Zpos mx)) as [Hl1 _]; [lia |].
  destruct (Zdigits2_bounds (Zpos my)) as [_ Hu2]; [lia |].
  fold d1 in Hl1. fold d2 in Hu2.
  assert (Hd1p : 0 < d1) by (unfold d1; cbn; lia).
  assert (Hd2p : 0 < d2) by (unfold d2; cbn; lia).
  assert (Hd1 : d1 - 1 <= a - ex) by (apply pow2_le_inv; lia).
  assert (Hd2 : Z.max (b - ey) 0 < d2).
  { destruct (Z_lt_le_dec (Z.max (b - ey) 0) d2) as [| Hc]; [assumption |].
    assert (2 ^ d2 <= 2 ^ Z.max (b - ey) 0)
      by (apply Z.pow_le_mono_r; lia). lia. }
  assert (He' : e' <= a - b) by (unfold e'; lia).
  pose proof (Z_div_mod m' (Zpos my) eq_refl) as Hdm.
  destruct (Z.div_eucl m' (Zpos my)) as [q r]. destruct Hdm as [Hq Hr].
  set (t := Z.max (b - ey) 0) in *.
  assert (Ht : 0 <= t) by (unfold t; lia).
  assert (Hexp : a - ex + s = (a - b - e') + t \/ a - ex + s <= a - b - e').
  { unfold s, t. lia. }
  assert (Hbound : m' <= 2 ^ (a - b - e') * 2 ^ t).
  { rewrite Hm'.
    apply Z.le_trans with (2 ^ (a - ex) * 2 ^ s).
    - apply Z.mul_le_mono_nonneg_r; [apply Z.pow_nonneg; lia | assumption].
    - rewrite <- !Z.pow_add_r by lia.
      apply Z.pow_le_mono_r; lia. }
  pose proof (pow2_pos (a - b - e') ltac:(lia)) as Hpk.
  pose proof (pow2_pos t Ht) as Hpt.
  assert (Hq0 : 0 <= q) by nia.
  assert (Hqle : q <= 2 ^ (a - b - e')) by nia.
  apply round_aux_le; try lia.
  intros Eq. assert (r = 0) by nia. subst r. apply new_location_0.
Qed.

Lemma shl_align_snd (m : positive) (e t : Z) :
  t <= e -> snd (shl_align m e t) = t.
Proof.
  intros H. unfold shl_align.
  destruct (t - e) as [| p | p] eqn:E; cbn [snd]; lia.
Qed.

Lemma shl_align_ge (m : positive) (e t k : Z) :
  k <= e \/ 2 ^ (k - e) <= Zpos m ->
  k <= snd (shl_align m e t)
  \/ 2 ^ (k - snd (shl_align m e t)) <= Zpos (fst (shl_align m e t)).
Proof.
  intros H. destruct (Z_le_gt_dec e t) as [Hle | Hgt].
  - unfold shl_align. destruct (t - e) as [| p | p] eqn:E; try lia;
      exact H.
  - rewrite shl_align_snd, shl_align_val by lia.
    apply ge_pow2_max in H.
    destruct (Z_le_gt_dec k t) as [| Hk]; [now left | right].
    apply Z.le_trans with (2 ^ Z.max (k - e) 0 * 2 ^ (e - t)).
    + rewrite <- Z.pow_add_r by lia. apply Z.pow_le_mono_r; lia.
    + apply Z.mul_le_mono_nonneg_r; [apply Z.pow_nonneg; lia | assumption].
Qed.

Lemma add_ge_pow2 (x y : float) (k : Z) :
  ge_pow2 x k -> pos0 y -> -149 <= k -> ge_pow2 (add x y) k.
Proof.
  destruct x as [sx | [] | | [] mx ex]; try contradiction;
    destruct y as [sy | [] | | [] my ey]; try discriminate;
    try contradiction; intros Hx Hy Hk; try exact I; try exact Hx.
  unfold add, SFadd. cbn [cond_Zopp].
  set (ez := Z.min ex ey).
  pose proof (shl_align_ge mx ex ez k Hx) as Hx'.
  rewrite shl_align_snd in Hx' by (unfold ez; lia).
  set (mx' := fst (shl_align mx ex ez)) in *.
  set (my' := fst (shl_align my ey ez)).
  change (Zpos mx' + Zpos my') with (Zpos (mx' + my')).
  cbn [binary_normalize]. unfold binary_round.
  assert (HM : k <= ez \/ 2 ^ (k - ez) <= Zpos (mx' + my')).
  { destruct Hx' as [| H]; [now left | right]. lia. }
  pose proof (shl_align_ge (mx' + my') ez
                (fexp prec emax (Zpos (digits2_pos (mx' + my')) + ez)) k HM)
    as Hal.
  destruct (shl_align (mx' + my') ez _) as [mz ez'].
  cbn [fst snd] in Hal.
  apply round_aux_ge; [lia | assumption | exact Hal].
Qed.

Lemma div_pos0 (x y : float) :
  pos0 x -> pos0 y -> (forall s, y <> S754_zero s) ->
  (forall s, y <> S754_infinity s) -> pos0 (div x y).
Proof.
  destruct x as [sx | sx | | sx mx ex]; try contradiction;
    destruct y as [sy | sy | | sy my ey]; try contradiction;
    cbn [pos0]; intros Hx Hy Hz Hi; subst;
    try (now elim (Hz sy)); try (now elim (Hi false)); try exact I;
    try reflexivity.
  unfold div, SFdiv. cbn [xorb].
  destruct (SFdiv_core_binary prec emax (Zpos mx) ex (Zpos my) ey)
    as [[mz ez] lz] eqn:E.
  apply round_aux_pos0.
  unfold SFdiv_core_binary in E.
  set (m' := match _ - _ with 0 => Zpos mx | Zpos _ => _ | Zneg _ => 0 end)
    in E.
  assert (Hm' : 0 <= m').
  { unfold m'. destruct (_ - _); try lia. apply Z.shiftl_nonneg. lia. }
  pose proof (Z_div_mod m' (Zpos my) eq_refl) as Hdm.
  destruct (Z.div_eucl m' (Zpos my)) as [q r].
  injection E as <- _ _. nia.
Qed.

(** [lrintf] of a value that is at most [2^k]. *)
Lemma lrintf_le_pow2 (x : float) (k : Z) :
  le_pow2 x k -> 0 <= k -> lrintf x <= 2 ^ k.
Proof.
  destruct x as [s | s | | [] m e]; try contradiction; intros H Hk.
  - cbn. apply Z.pow_nonneg. lia.
  - destruct H as [He Hm]. unfold lrintf.
    destruct e as [| p | p].
    + rewrite Z.shiftl_0_r. now rewrite Z.sub_0_r in Hm.
    + rewrite Z.shiftl_mul_pow2 by lia.
      rewrite (pow2_split k (Zpos p)) by lia.
      apply Z.mul_le_mono_nonneg_r; [apply Z.pow_nonneg; lia | assumption].
    + rewrite Z.shiftl_mul_pow2, Z.mul_1_l by lia.
      replace (k - Zneg p) with (k + Zpos p) in Hm by lia.
      rewrite Z.pow_add_r in Hm by lia.
      pose proof (pow2_pos (Zpos p) ltac:(lia)) as Hp.
      pose proof (pow2_pos k Hk) as Hpk.
      pose proof (Z.div_mod (Zpos m) (2 ^ Zpos p) ltac:(lia)) as Hdm.
      pose proof (Z.mod_pos_bound (Zpos m) (2 ^ Zpos p) Hp) as Hr.
      set (q := Zpos m / 2 ^ Zpos p) in *.
      set (r := Zpos m mod 2 ^ Zpos p) in *.
      assert (Hq : q <= 2 ^ k) by nia.
      destruct (Z.eq_dec q (2 ^ k)) as [E | N].
      * assert (r = 0) by nia.
        replace (2 * r ?= 2 ^ Zpos p) with Lt; [lia |].
        symmetry. apply Z.compare_lt_iff. lia.
      * destruct (_ ?= _); [destruct (Z.even q) | |]; lia.
Qed.

End MagnitudeFacts.

(** * Arming: fail-safe latch and arm-switch interlock *)

Section BoardFacts.

Import Board.

Lemma readyToArm_failsafe (b : board) :
  gotFailsafe (m_arming b) = true -> readyToArm b = false.
Proof.
  intros H. unfold readyToArm. rewrite H.
  destruct (accDoneCalibrating _), (angleOkay _); reflexivity.
Qed.

Lemma readyToArm_switch (b : board) :
  switchOkay (m_arming b) = false -> readyToArm b = false.
Proof.
  intros H. unfold readyToArm. rewrite H.
  destruct (accDoneCalibrating _), (angleOkay _), (gotFailsafe _),
    (haveSignal _), (gyroDoneCalibrating _); reflexivity.
Qed.

(** [attemptToArm] leaves the record of a disarmed board alone when
    [readyToArm] is false. *)
Lemma attemptToArm_not_ready (esc aux1 : bool) (b : board) :
  readyToArm b = false -> isArmed (m_arming b) = false ->
  m_arming (attemptToArm esc aux1 b) = m_arming b.
Proof.
  intros Hr Ha. unfold attemptToArm. cbv zeta. rewrite !Hr, !Ha.
  destruct aux1; cbv iota; rewrite ?Hr, ?Ha, orb_true_r; reflexivity.
Qed.

(** [updateFromReceiver] never arms and never clears the latch. *)
Lemma updateFromReceiver_disarmed (thr aux1 sig : bool) (b : board) :
  isArmed (m_arming b) = false ->
  isArmed (m_arming (updateFromReceiver thr aux1 sig b)) = false /\
  gotFailsafe (m_arming (updateFromReceiver thr aux1 sig b))
  = gotFailsafe (m_arming b).
Proof.
  intros Ha. unfold updateFromReceiver. rewrite Ha.
  repeat case_match; simpl; auto.
Qed.

Lemma updateFromReceiver_armed (thr aux1 sig : bool) (b : board) :
  isArmed (m_arming b) = true ->
  gotFailsafe (m_arming (updateFromReceiver thr aux1 sig b)) = true ->
  isArmed (m_arming (updateFromReceiver thr aux1 sig b)) = false \/
  gotFailsafe (m_arming b) = true.
Proof.
  intros Ha. unfold updateFromReceiver. rewrite Ha.
  case_match; simpl; auto.
Qed.

Lemma attemptToArm_gotFailsafe (esc aux1 : bool) (b : board) :
  gotFailsafe (m_arming (attemptToArm esc aux1 b)) = gotFailsafe (m_arming b).
Proof.
  unfold attemptToArm, disarm. repeat case_match; reflexivity.
Qed.

(** The latch is an invariant of every task. *)
Lemma step_keeps_latch (b : board) (t : task) :
  gotFailsafe (m_arming b) = true -> isArmed (m_arming b) = false ->
  gotFailsafe (m_arming (step b t)) = true /\
  isArmed (m_arming (step b t)) = false.
Proof.
  intros Hf Ha. destruct t as [rx | angle gyro acc]; simpl.
  - unfold updateArmingFromReceiver. destruct (rx_state rx); auto.
    + destruct (updateFromReceiver_disarmed (rx_throttleIsDown rx)
        (rx_aux1IsSet rx) (rx_hasSignal rx) b Ha) as [H1 H2].
      rewrite H1, H2. auto.
    + rewrite attemptToArm_not_ready
        by (assumption || now apply readyToArm_failsafe). auto.
  - auto.
Qed.

Lemma run_keeps_latch (ts : list task) (b : board) :
  gotFailsafe (m_arming b) = true -> isArmed (m_arming b) = false ->
  gotFailsafe (m_arming (run b ts)) = true /\
  isArmed (m_arming (run b ts)) = false.
Proof.
  revert b. induction ts as [| t ts IH]; intros b Hf Ha.
  - split; assumption.
  - simpl. destruct (step_keeps_latch b t Hf Ha) as [Hf' Ha'].
    apply IH; assumption.
Qed.

(** Setting the latch disarms in the same call. *)
Lemma step_sets_latch (b : board) (t : task) :
  gotFailsafe (m_arming b) = false ->
  gotFailsafe (m_arming (step b t)) = true ->
  isArmed (m_arming (step b t)) = false.
Proof.
  intros Hf Hs. destruct t as [rx | angle gyro acc]; simpl in *.
  - unfold updateArmingFromReceiver in *. destruct (rx_state rx).
    + destruct (isArmed (m_arming b)) eqn:Ha.
      * destruct (updateFromReceiver_armed _ _ _ b Ha Hs); congruence.
      * apply updateFromReceiver_disarmed; assumption.
    + congruence.
    + congruence.
    + rewrite attemptToArm_gotFailsafe in Hs. congruence.
  - congruence.
Qed.

(** C1. Once [gotFailsafe] becomes true, in the very call that sets it
    [isArmed] is false, and after every further run of receiver and
    attitude tasks [isArmed] is still false, [gotFailsafe] still true and
    [readyToArm] false, so that no [attemptToArm] arms.  The code never
    clears the latch: the property holds for every continuation, a
    fortiori until a valid frame has come and the arm switch is off. *)
Theorem failsafe_latched (b : board) (t : task) (ts : list task) :
  gotFailsafe (m_arming b) = false ->
  gotFailsafe (m_arming (step b t)) = true ->
  isArmed (m_arming (step b t)) = false /\
  isArmed (m_arming (run (step b t) ts)) = false /\
  gotFailsafe (m_arming (run (step b t) ts)) = true /\
  readyToArm (run (step b t) ts) = false /\
  (forall esc aux1,
     isArmed (m_arming (attemptToArm esc aux1 (run (step b t) ts))) = false).
Proof.
  intros Hf Hs.
  pose proof (step_sets_latch b t Hf Hs) as Ha.
  destruct (run_keeps_latch ts (step b t) Hs Ha) as [Hf' Ha'].
  pose proof (readyToArm_failsafe _ Hf') as Hr.
  repeat split; try assumption.
  intros esc aux1. now rewrite attemptToArm_not_ready.
Qed.

Lemma failsafe_latched_witness :
  isArmed (m_arming (step armed_board (rx_check true true false))) = false /\
  isArmed (m_arming (run (step armed_board (rx_check true true false))
    [rx_check true false true; rx_update false; TaskAttitude true true true;
     rx_check true true true; rx_update true])) = false.
Proof.
  pose proof (failsafe_latched armed_board (rx_check true true false)
    [rx_check true false true; rx_update false; TaskAttitude true true true;
     rx_check true true true; rx_update true] eq_refl eq_refl) as H.
  exact (conj (proj1 H) (proj1 (proj2 H))).
Defined.

(** A receiver update of a disarmed board that sees the switch on keeps
    [switchOkay] false. *)
Lemma updateFromReceiver_switch_on (thr sig : bool) (b : board) :
  isArmed (m_arming b) = false ->
  readyToArm (with_arming (set_throttleIsDown thr) b) = false ->
  switchOkay (m_arming (updateFromReceiver thr true sig b)) = false.
Proof.
  intros Ha Hr. unfold updateFromReceiver. rewrite Ha, Hr. simpl.
  case_match; reflexivity.
Qed.

(** [switchOkay] is written by [updateFromReceiver] alone, and set only
    with the switch off. *)
Lemma updateFromReceiver_sets_switch (thr aux1 sig : bool) (b : board) :
  switchOkay (m_arming b) = false ->
  switchOkay (m_arming (updateFromReceiver thr aux1 sig b)) = true ->
  aux1 = false.
Proof.
  unfold updateFromReceiver, disarm. intros Hs.
  destruct aux1; [| reflexivity].
  repeat case_match; simpl in *; congruence.
Qed.

Lemma attemptToArm_switchOkay (esc aux1 : bool) (b : board) :
  switchOkay (m_arming (attemptToArm esc aux1 b)) = switchOkay (m_arming b).
Proof.
  unfold attemptToArm, disarm. repeat case_match; reflexivity.
Qed.

(** While the switch is never seen off, a disarmed board whose
    [switchOkay] is false stays so. *)
Lemma step_keeps_interlock (b : board) (t : task) :
  switch_never_off t = true ->
  isArmed (m_arming b) = false -> switchOkay (m_arming b) = false ->
  isArmed (m_arming (step b t)) = false /\
  switchOkay (m_arming (step b t)) = false.
Proof.
  intros Ht Ha Hs. destruct t as [rx | angle gyro acc]; simpl.
  - unfold switch_never_off, task_aux1 in Ht.
    unfold updateArmingFromReceiver. destruct (rx_state rx); auto.
    + destruct (rx_aux1IsSet rx); [| discriminate]. split.
      * now apply updateFromReceiver_disarmed.
      * apply updateFromReceiver_switch_on; [assumption |].
        now apply readyToArm_switch.
    + rewrite attemptToArm_not_ready
        by (assumption || now apply readyToArm_switch). auto.
  - auto.
Qed.

Lemma run_keeps_interlock (ts : list task) (b : board) :
  forallb switch_never_off ts = true ->
  isArmed (m_arming b) = false -> switchOkay (m_arming b) = false ->
  isArmed (m_arming (run b ts)) = false /\
  switchOkay (m_arming (run b ts)) = false.
Proof.
  revert b. induction ts as [| t ts IH]; intros b Hts Ha Hs.
  - split; assumption.
  - simpl in Hts. apply andb_true_iff in Hts as [Ht Hts]. simpl.
    destruct (step_keeps_interlock b t Ht Ha Hs) as [Ha' Hs'].
    apply IH; assumption.
Qed.

(** C2. From a disarmed board whose [switchOkay] is false (the state at
    boot), no run of tasks in which the arm switch is never seen off arms
    the board or sets [switchOkay].  [switchOkay] goes from false to true
    only in a receiver update with aux1 not set, and an update of a
    disarmed board with aux1 set that finds [readyToArm] false leaves it
    false. *)
Theorem arm_switch_interlock
    (b0 b : board) (t : task) (ts : list task) (thr sig : bool) :
  isArmed (m_arming b0) = false -> switchOkay (m_arming b0) = false ->
  forallb switch_never_off ts = true ->
  (isArmed (m_arming (run b0 ts)) = false /\
   switchOkay (m_arming (run b0 ts)) = false /\
   readyToArm (run b0 ts) = false) /\
  (switchOkay (m_arming b) = false ->
   switchOkay (m_arming (step b t)) = true ->
   exists rx, t = TaskReceiver rx /\ rx_state rx = STATE_CHECK /\
              rx_aux1IsSet rx = false) /\
  (isArmed (m_arming b) = false ->
   readyToArm (with_arming (set_throttleIsDown thr) b) = false ->
   switchOkay (m_arming (updateFromReceiver thr true sig b)) = false).
Proof.
  intros Ha Hs Hts. split; [| split].
  - destruct (run_keeps_interlock ts b0 Hts Ha Hs) as [Ha' Hs'].
    repeat split; try assumption. now apply readyToArm_switch.
  - intros Hb Hb'. destruct t as [rx | angle gyro acc]; simpl in Hb'.
    + exists rx. split; [reflexivity |].
      unfold updateArmingFromReceiver in Hb'.
      destruct (rx_state rx) eqn:Est; try congruence.
      * split; [reflexivity |].
        eapply updateFromReceiver_sets_switch; eassumption.
      * rewrite attemptToArm_switchOkay in Hb'. congruence.
    + congruence.
  - apply updateFromReceiver_switch_on.
Qed.

Lemma arm_switch_interlock_witness :
  isArmed (m_arming (run boot
    [TaskAttitude true true true; rx_check true true true; rx_update true;
     rx_check true true true; rx_update true])) = false.
Proof.
  pose proof (arm_switch_interlock boot boot (rx_check true false true)
    [TaskAttitude true true true; rx_check true true true; rx_update true;
     rx_check true true true; rx_update true] true true
    eq_refl eq_refl eq_refl) as H.
  exact (proj1 (proj1 H)).
Defined.

End BoardFacts.

(** * The fail-safe table *)

Section FailValueFacts.

Import Receiver.

Lemma failsafeChannelConfigs_eq :
  failsafeChannelConfigs
  = replicate 3 {| mode := 0; step := 30 |}
    ++ [{| mode := 0; step := 5 |}]
    ++ replicate 14 {| mode := 1; step := 30 |}.
Proof. reflexivity. Qed.

Lemma configs_lookup (channel : nat) :
  (channel < CHANNEL_COUNT)%nat ->
  exists cfg, failsafeChannelConfigs !! channel = Some cfg /\
    mode cfg = (if (channel <? 4)%nat then FAILSAFE_MODE_AUTO
                else FAILSAFE_MODE_HOLD) /\
    step cfg = (if (channel =? 3)%nat then 5 else 30).
Proof.
  intros H. rewrite failsafeChannelConfigs_eq. unfold CHANNEL_COUNT in H.
  do 18 (destruct channel as [| channel];
         [eexists; split; [reflexivity | split; reflexivity] |]).
  lia.
Qed.

Lemma getFailValue_flight (rcData : list F32.float) (channel : nat) :
  (channel < 4)%nat ->
  getFailValue rcData channel
  = Some (if (channel =? THROTTLE)%nat then 885 else 1500).
Proof.
  intros H. unfold getFailValue. rewrite failsafeChannelConfigs_eq.
  do 4 (destruct channel as [| channel]; [reflexivity |]). lia.
Qed.

Lemma getFailValue_aux (rcData : list F32.float) (channel : nat) :
  (4 <= channel < CHANNEL_COUNT)%nat ->
  getFailValue rcData channel = float_to_uint16 <$> rcData !! channel.
Proof.
  intros H. unfold getFailValue. rewrite failsafeChannelConfigs_eq.
  unfold CHANNEL_COUNT in H.
  do 4 (destruct channel as [| channel]; [lia |]).
  do 14 (destruct channel as [| channel]; [reflexivity |]). lia.
Qed.

(** C4 (amended). [getFailValue] with the table it builds: every channel
    is in AUTO or in HOLD mode.  In AUTO mode roll, pitch and yaw give
    1500 and throttle gives 885; in HOLD mode, and in INVALID mode, which
    shares its branch of the [switch], the channel's current value is
    returned converted to the [uint16_t] of the return type, so that a
    fraction is dropped.  No channel is in SET mode. *)
Theorem failValueOfConfig_table
    (rcData : list F32.float) (channel : nat) :
  (channel < CHANNEL_COUNT)%nat ->
  (exists cfg, failsafeChannelConfigs !! channel = Some cfg /\
     getFailValue rcData channel = failValueOfConfig cfg rcData channel /\
     (mode cfg = FAILSAFE_MODE_AUTO \/ mode cfg = FAILSAFE_MODE_HOLD) /\
     (mode cfg = FAILSAFE_MODE_AUTO ->
      (channel = ROLL \/ channel = PITCH \/ channel = YAW ->
       getFailValue rcData channel = Some 1500) /\
      (channel = THROTTLE -> getFailValue rcData channel = Some 885)) /\
     (mode cfg = FAILSAFE_MODE_HOLD ->
      getFailValue rcData channel
      = float_to_uint16 <$> rcData !! channel)) /\
  (forall cfg,
     (mode cfg = FAILSAFE_MODE_AUTO ->
      (channel = ROLL \/ channel = PITCH \/ channel = YAW ->
       failValueOfConfig cfg rcData channel = Some 1500) /\
      (channel = THROTTLE ->
       failValueOfConfig cfg rcData channel = Some 885)) /\
     (mode cfg = FAILSAFE_MODE_HOLD \/ mode cfg = FAILSAFE_MODE_INVALID ->
      failValueOfConfig cfg rcData channel
      = float_to_uint16 <$> rcData !! channel)).
Proof.
  intros Hc. split.
  - destruct (configs_lookup channel Hc) as (cfg & Hl & Hm & _).
    exists cfg. split; [assumption |].
    assert (Hg : getFailValue rcData channel
                 = failValueOfConfig cfg rcData channel)
      by (unfold getFailValue; now rewrite Hl).
    split; [assumption |]. rewrite Hg.
    split; [rewrite Hm; destruct (channel <? 4)%nat; auto |].
    unfold failValueOfConfig. split.
    + intros ->. split.
      * intros [-> | [-> | ->]]; reflexivity.
      * intros ->. reflexivity.
    + intros ->. reflexivity.
  - intros cfg. unfold failValueOfConfig. split.
    + intros ->. split.
      * intros [-> | [-> | ->]]; reflexivity.
      * intros ->. reflexivity.
    + intros [-> | ->]; reflexivity.
Qed.

(** The pulse widths 1000.25 and 1500.5 as floats. *)
Lemma sample_fractions :
  (F32.to_Q (S754_finite false 16388096 (-14)) == 4001 # 4)%Q /\
  (F32.to_Q (S754_finite false 12292096 (-13)) == 3001 # 2)%Q.
Proof. split; vm_compute; reflexivity. Qed.

Lemma failValueOfConfig_table_witness :
  getFailValue
    (<[5%nat := S754_finite false 16388096 (-14)]>
       (replicate 18 (F32.of_Z 1500))) 5
  = Some 1000.
Proof.
  destruct (proj1 (failValueOfConfig_table
                     (<[5%nat := S754_finite false 16388096 (-14)]>
                        (replicate 18 (F32.of_Z 1500))) 5
                     ltac:(unfold CHANNEL_COUNT; lia)))
    as (cfg & Hl & _ & _ & _ & Hhold).
  rewrite Hhold; [reflexivity |].
  injection Hl as <-. reflexivity.
Defined.

(** The claim's "kept" fails on channel 5, a HOLD channel, at the value
    1000.25: what comes back is 1000, and 1000 put back into the channel
    array is not the value that was there. *)
Lemma hold_value_counterexample :
  let x := S754_finite false 16388096 (-14) in
  let rcData := <[5%nat := x]> (replicate 18 (F32.of_Z 1500)) in
  (mode <$> failsafeChannelConfigs !! 5%nat) = Some FAILSAFE_MODE_HOLD /\
  rcData !! 5%nat = Some x /\
  getFailValue rcData 5 = Some 1000 /\
  F32.of_Z 1000 <> x /\
  ~ (inject_Z 1000 == F32.to_Q x)%Q.
Proof.
  cbv zeta. repeat split; try (vm_compute; reflexivity).
  - vm_compute. discriminate.
  - vm_compute. discriminate.
Qed.

(** The SET branch of the [switch], which no channel reaches: with the
    step 30 of the table it gives 220, the low eight bits of
    [PWM_PULSE_MIN + 25 * 30 = 1500]. *)
Lemma set_branch_step_30 :
  failValueOfConfig {| mode := FAILSAFE_MODE_SET; step := 30 |} [] ROLL
  = Some 220 /\
  rxfail_step_to_channel_value 30 = 1500 mod 256.
Proof. split; reflexivity. Qed.

(** C10 (amended). The table [getFailValue] builds gives mode AUTO to
    channels 0-3 and mode HOLD to channels 4-17, with step 5 on channel 3
    and 30 elsewhere.  Hence for a channel from 4 on the function returns
    the current [rcData[channel]] converted to its return type
    [uint16_t]: a whole pulse width from 0 to 65535 comes back unchanged,
    a fraction is dropped.  The first four channels get the AUTO
    constants, no channel is in SET mode, and the result does not depend
    on the steps. *)
Theorem getFailValue_modes (rcData : list F32.float) (channel : nat) (n : Z) :
  (channel < CHANNEL_COUNT)%nat ->
  (exists cfg, failsafeChannelConfigs !! channel = Some cfg /\
     mode cfg = (if (channel <? 4)%nat then FAILSAFE_MODE_AUTO
                 else FAILSAFE_MODE_HOLD) /\
     step cfg = (if (channel =? 3)%nat then 5 else 30) /\
     mode cfg <> FAILSAFE_MODE_SET /\
     forall s, failValueOfConfig (set_step s cfg) rcData channel
               = getFailValue rcData channel) /\
  ((4 <= channel)%nat ->
   getFailValue rcData channel = float_to_uint16 <$> rcData !! channel) /\
  ((4 <= channel)%nat -> 0 <= n < 65536 ->
   rcData !! channel = Some (F32.of_Z n) ->
   getFailValue rcData channel = Some n) /\
  ((channel < 4)%nat ->
   getFailValue rcData channel
   = Some (if (channel =? THROTTLE)%nat then 885 else 1500)).
Proof.
  intros Hc. split; [| split; [| split]].
  - destruct (configs_lookup channel Hc) as (cfg & Hl & Hm & Hs).
    exists cfg. repeat split; try assumption.
    + rewrite Hm. destruct (channel <? 4)%nat; discriminate.
    + intros s. unfold getFailValue. rewrite Hl.
      unfold failValueOfConfig, set_step. simpl. rewrite Hm.
      destruct (channel <? 4)%nat; reflexivity.
  - intros H4. apply getFailValue_aux. lia.
  - intros H4 Hn Hr. rewrite getFailValue_aux by lia. rewrite Hr. simpl.
    f_equal. now apply float_to_uint16_of_Z.
  - apply getFailValue_flight.
Qed.

Lemma getFailValue_modes_witness :
  getFailValue (replicate 18 (F32.of_Z 1234)) 7 = Some 1234.
Proof.
  pose proof (getFailValue_modes (replicate 18 (F32.of_Z 1234)) 7 1234) as H.
  refine (proj1 (proj2 (proj2 (H _))) _ _ eq_refl);
    unfold CHANNEL_COUNT; lia.
Defined.

(** The claim's "unchanged" fails on channel 4 at the value 1500.5: the
    function returns 1500. *)
Lemma fraction_dropped_counterexample :
  let x := S754_finite false 12292096 (-13) in
  let rcData := <[4%nat := x]> (replicate 18 (F32.of_Z 1500)) in
  rcData !! 4%nat = Some x /\
  getFailValue rcData 4 = Some 1500 /\
  F32.of_Z 1500 <> x /\
  ~ (inject_Z 1500 == F32.to_Q x)%Q.
Proof.
  cbv zeta. repeat split; try (vm_compute; reflexivity).
  - vm_compute. discriminate.
  - vm_compute. discriminate.
Qed.

End FailValueFacts.

(** * Signal loss: hold window and fallback *)

Section SignalLossFacts.

Import Receiver.

(** A loop over the channels [0 .. k-1], by its invariant. *)
Lemma foldl_seq_inv {A : Type} (P : nat -> A -> Prop) (f : A -> nat -> A)
    (a : A) (k : nat) :
  P 0%nat a ->
  (forall n x, (n < k)%nat -> P n x -> P (S n) (f x n)) ->
  P k (foldl f a (seq 0 k)).
Proof.
  induction k as [| k IH]; intros H0 Hstep.
  - exact H0.
  - rewrite seq_S, foldl_app. simpl. apply Hstep; [lia |].
    apply IH; [assumption |]. intros n x Hn. apply Hstep. lia.
Qed.

Lemma getFailValue_ext (r1 r2 : list F32.float) (c : nat) :
  r1 !! c = r2 !! c -> getFailValue r1 c = getFailValue r2 c.
Proof.
  intros H. unfold getFailValue, failValueOfConfig.
  destruct (failsafeChannelConfigs !! c); [| reflexivity].
  rewrite H. reflexivity.
Qed.

Lemma getFailValue_some (raw : list F32.float) (c : nat) (sample : F32.float) :
  (c < CHANNEL_COUNT)%nat -> raw !! c = Some sample ->
  exists v, getFailValue raw c = Some v /\ 0 <= v < 65536.
Proof.
  intros Hc Hs. destruct (Nat.lt_ge_cases c 4) as [H4 | H4].
  - rewrite getFailValue_flight by assumption.
    eexists. split; [reflexivity |]. destruct (c =? THROTTLE)%nat; lia.
  - rewrite getFailValue_aux, Hs by lia. simpl.
    eexists. split; [reflexivity |].
    unfold float_to_uint16, to_uint16. apply Z.mod_pos_bound. lia.
Qed.

(** Taking the fail value twice changes nothing. *)
Lemma getFailValue_idem (raw mid : list F32.float) (c : nat) (v : Z) :
  (c < CHANNEL_COUNT)%nat ->
  getFailValue raw c = Some v -> 0 <= v < 65536 ->
  mid !! c = Some (F32.of_Z v) ->
  getFailValue mid c = Some v.
Proof.
  intros Hc Hv Hr Hm. destruct (Nat.lt_ge_cases c 4) as [H4 | H4].
  - rewrite getFailValue_flight in * by assumption. assumption.
  - rewrite getFailValue_aux, Hm by lia. simpl. f_equal.
    now apply float_to_uint16_of_Z.
Qed.

Section OneCall.

Variable useRx : bool.
Variable nowMs : Z.
Variable raw0 : list F32.float.
Variable per0 : list Z.
Hypothesis Hraw : length raw0 = CHANNEL_COUNT.
Hypothesis Hper : length per0 = CHANNEL_COUNT.

Lemma inv1_start :
  inv1 useRx nowMs raw0 per0 0 {| l_period := per0; l_raw := raw0; l_valid := true |}.
Proof using Hraw Hper.
  unfold inv1. simpl. repeat split; try assumption; try lia.
Qed.

Lemma inv1_step (n : nat) (l : loss_t) :
  (n < CHANNEL_COUNT)%nat -> inv1 useRx nowMs raw0 per0 n l ->
  inv1 useRx nowMs raw0 per0 (S n) (lossStep useRx nowMs l n).
Proof using Hraw Hper.
  intros Hn (Hl1 & Hl2 & Hrest & Hdone & Hvalid).
  destruct (lookup_lt_is_Some_2 raw0 n) as [sample Hs]; [lia |].
  destruct (lookup_lt_is_Some_2 per0 n) as [p Hp]; [lia |].
  destruct (Hrest n (Nat.le_refl n)) as [Er Ep].
  unfold lossStep. rewrite Er, Hs, Ep, Hp.
  fold (taken useRx sample). fold (held nowMs p).
  assert (Hlt : forall c, (c < S n)%nat -> (c < n)%nat \/ c = n) by lia.
  destruct (taken useRx sample) eqn:Et; [| destruct (held nowMs p) eqn:Eh].
  - (* accepted *)
    unfold inv1. simpl. rewrite !length_insert.
    split; [assumption |]. split; [assumption |]. split; [| split].
    + intros c Hc. rewrite !list_lookup_insert_ne by lia. apply Hrest. lia.
    + intros c s' p' Hc Hs' Hp'. destruct (Hlt c Hc) as [Hc' | ->].
      * rewrite !list_lookup_insert_ne by lia. now apply Hdone.
      * rewrite !list_lookup_insert_eq by lia.
        rewrite Hs in Hs'. rewrite Hp in Hp'.
        injection Hs' as <-. injection Hp' as <-.
        rewrite Et. simpl. split; reflexivity.
    + rewrite Hvalid. split.
      * intros H c s' p' Hc H4 Hs' Hp'. destruct (Hlt c Hc) as [Hc' | ->].
        -- now apply (H c).
        -- rewrite Hs in Hs'. injection Hs' as <-. now rewrite Et.
      * intros H c s' p' Hc. apply H. lia.
  - (* held *)
    unfold inv1. split; [assumption |]. split; [assumption |].
    split; [| split].
    + intros c Hc. apply Hrest. lia.
    + intros c s' p' Hc Hs' Hp'. destruct (Hlt c Hc) as [Hc' | ->].
      * now apply Hdone.
      * rewrite Hs in Hs'. rewrite Hp in Hp'.
        injection Hs' as <-. injection Hp' as <-.
        rewrite Et, Eh, Er, Ep, Hs, Hp. simpl. split; reflexivity.
    + rewrite Hvalid. split.
      * intros H c s' p' Hc H4 Hs' Hp'. destruct (Hlt c Hc) as [Hc' | ->].
        -- now apply (H c).
        -- rewrite Hp in Hp'. injection Hp' as <-. rewrite Eh.
           apply orb_true_r.
      * intros H c s' p' Hc. apply H. lia.
  - (* fail value *)
    rewrite (getFailValue_ext (l_raw l) raw0 n) by (rewrite Er; reflexivity).
    destruct (getFailValue_some raw0 n sample Hn Hs) as (v & Hv & Hvr).
    rewrite Hv. unfold inv1. simpl. rewrite !length_insert.
    split; [assumption |]. split; [assumption |]. split; [| split].
    + intros c Hc. rewrite !list_lookup_insert_ne by lia. apply Hrest. lia.
    + intros c s' p' Hc Hs' Hp'. destruct (Hlt c Hc) as [Hc' | ->].
      * rewrite !list_lookup_insert_ne by lia. now apply Hdone.
      * rewrite !list_lookup_insert_eq by lia.
        rewrite Hs in Hs'. rewrite Hp in Hp'.
        injection Hs' as <-. injection Hp' as <-.
        rewrite Et, Eh, Ep, Hp, Hv. simpl. split; reflexivity.
    + destruct (n <? 4)%nat eqn:E4.
      * apply Nat.ltb_lt in E4. split; [discriminate |].
        intros H. specialize (H n sample p (Nat.lt_succ_diag_r n) E4 Hs Hp).
        rewrite Et, Eh in H. discriminate.
      * apply Nat.ltb_ge in E4. rewrite Hvalid. split.
        -- intros H c s' p' Hc H4. apply H; lia.
        -- intros H c s' p' Hc. apply H. lia.
Qed.

Lemma inv1_end :
  inv1 useRx nowMs raw0 per0 CHANNEL_COUNT
    (foldl (lossStep useRx nowMs)
       {| l_period := per0; l_raw := raw0; l_valid := true |}
       (seq 0 CHANNEL_COUNT)).
Proof using Hraw Hper.
  apply (foldl_seq_inv (inv1 useRx nowMs raw0 per0)); [apply inv1_start |].
  intros n x Hn. now apply inv1_step.
Qed.

End OneCall.

Lemma applyFailValues_spec (mid : list F32.float) (c : nat) :
  length mid = CHANNEL_COUNT -> (c < CHANNEL_COUNT)%nat ->
  applyFailValues mid !! c = F32.of_Z <$> getFailValue mid c.
Proof.
  intros Hlen Hc.
  assert (H : inv2 mid CHANNEL_COUNT (applyFailValues mid)).
  { unfold applyFailValues. apply (foldl_seq_inv (inv2 mid)).
    - unfold inv2. split; [reflexivity | split; [reflexivity | intros; lia]].
    - intros n x Hn (Hl & Hrest & Hdone).
      rewrite (getFailValue_ext x mid n) by (apply Hrest; lia).
      destruct (lookup_lt_is_Some_2 mid n) as [s Hs]; [lia |].
      destruct (getFailValue_some mid n s Hn Hs) as (v & Hv & _).
      rewrite Hv. unfold inv2. rewrite length_insert.
      split; [assumption |]. split.
      + intros c' Hc'. rewrite list_lookup_insert_ne by lia.
        apply Hrest. lia.
      + intros c' Hc'. destruct (Nat.eq_dec c' n) as [-> | Hne].
        * rewrite list_lookup_insert_eq by lia. now rewrite Hv.
        * rewrite list_lookup_insert_ne by lia. apply Hdone. lia. }
  destruct H as (_ & _ & Hdone). now apply Hdone.
Qed.


(** One call of [detectAndApplySignalLossBehaviour] on the channel values
    just read.  An accepted sample restarts the channel's 300 ms window.
    A sample that is not accepted (an invalid pulse, or no usable
    signal), once the window is over, is replaced by the channel's
    [getFailValue]; and as soon as this happens to one of the four flight
    channels, every channel is output at its [getFailValue], windows
    still open included, and fail-safe mode is entered.  With all four
    flight channels fine, an accepted sample is output as it is. *)
Lemma signal_loss_fallback
    (rx : rx_t) (currentTimeUs : Z) (raw : list F32.float)
    (c : nat) (sample : F32.float) (p : Z) :
  length raw = CHANNEL_COUNT ->
  length (m_invalidPulsePeriod rx) = CHANNEL_COUNT ->
  raw !! c = Some sample -> m_invalidPulsePeriod rx !! c = Some p ->
  let out := detectAndApplySignalLossBehaviour rx currentTimeUs raw in
  let rx' := fst (fst out) in
  let raw' := snd (fst out) in
  let call := snd out in
  m_invalidPulsePeriod rx' !! c
    = Some (if accepted rx sample
            then to_uint32 (currentTimeUs / 1000 + MAX_INVALID__PULSE_TIME)
            else p) /\
  (accepted rx sample = false -> expired currentTimeUs p = true ->
   raw' !! c = F32.of_Z <$> getFailValue raw c) /\
  (call = OnValidDataFailed <->
   exists c0 s0 p0, (c0 < 4)%nat /\ raw !! c0 = Some s0 /\
     m_invalidPulsePeriod rx !! c0 = Some p0 /\
     accepted rx s0 = false /\ expired currentTimeUs p0 = true) /\
  (call = OnValidDataFailed ->
   raw' !! c = F32.of_Z <$> getFailValue raw c /\
   m_inFailsafeMode rx' = true) /\
  (call = OnValidDataReceived -> accepted rx sample = true ->
   raw' !! c = Some sample).
Proof.
  intros Hraw Hper Hs Hp.
  assert (Hc : (c < CHANNEL_COUNT)%nat)
    by (rewrite <- Hraw; eapply lookup_lt_Some; eassumption).
  set (useRx := m_signalReceived rx && negb (m_inFailsafeMode rx)).
  set (nowMs := currentTimeUs / 1000).
  pose proof (inv1_end useRx nowMs raw (m_invalidPulsePeriod rx) Hraw Hper)
    as (Hl1 & Hl2 & _ & Hdone & Hvalid).
  destruct (Hdone c sample p Hc Hs Hp) as [Dp Dr].
  unfold detectAndApplySignalLossBehaviour. fold useRx. fold nowMs.
  set (l := foldl (lossStep useRx nowMs) _ _) in *. clearbody l.
  change (accepted rx sample) with (taken useRx sample).
  change (expired currentTimeUs p) with (negb (held nowMs p)).
  assert (Hcascade : l_valid l = false <->
            exists c0 s0 p0, (c0 < 4)%nat /\ raw !! c0 = Some s0 /\
              m_invalidPulsePeriod rx !! c0 = Some p0 /\
              accepted rx s0 = false /\ expired currentTimeUs p0 = true).
  { split.
    - intros Hf.
      destruct (lookup_lt_is_Some_2 raw 0) as [s0 E0]; [rewrite Hraw; unfold CHANNEL_COUNT; lia |].
      destruct (lookup_lt_is_Some_2 raw 1) as [s1 E1]; [rewrite Hraw; unfold CHANNEL_COUNT; lia |].
      destruct (lookup_lt_is_Some_2 raw 2) as [s2 E2]; [rewrite Hraw; unfold CHANNEL_COUNT; lia |].
      destruct (lookup_lt_is_Some_2 raw 3) as [s3 E3]; [rewrite Hraw; unfold CHANNEL_COUNT; lia |].
      destruct (lookup_lt_is_Some_2 (m_invalidPulsePeriod rx) 0) as [p0 F0]; [rewrite Hper; unfold CHANNEL_COUNT; lia |].
      destruct (lookup_lt_is_Some_2 (m_invalidPulsePeriod rx) 1) as [p1 F1]; [rewrite Hper; unfold CHANNEL_COUNT; lia |].
      destruct (lookup_lt_is_Some_2 (m_invalidPulsePeriod rx) 2) as [p2 F2]; [rewrite Hper; unfold CHANNEL_COUNT; lia |].
      destruct (lookup_lt_is_Some_2 (m_invalidPulsePeriod rx) 3) as [p3 F3]; [rewrite Hper; unfold CHANNEL_COUNT; lia |].
      destruct (taken useRx s0 || held nowMs p0) eqn:G0;
        [| exists 0%nat, s0, p0; apply orb_false_iff in G0 as [G G'];
           repeat split; try assumption; try lia;
           unfold expired; fold nowMs; fold (held nowMs p0);
           now rewrite G'].
      destruct (taken useRx s1 || held nowMs p1) eqn:G1;
        [| exists 1%nat, s1, p1; apply orb_false_iff in G1 as [G G'];
           repeat split; try assumption; try lia;
           unfold expired; fold nowMs; fold (held nowMs p1);
           now rewrite G'].
      destruct (taken useRx s2 || held nowMs p2) eqn:G2;
        [| exists 2%nat, s2, p2; apply orb_false_iff in G2 as [G G'];
           repeat split; try assumption; try lia;
           unfold expired; fold nowMs; fold (held nowMs p2);
           now rewrite G'].
      destruct (taken useRx s3 || held nowMs p3) eqn:G3;
        [| exists 3%nat, s3, p3; apply orb_false_iff in G3 as [G G'];
           repeat split; try assumption; try lia;
           unfold expired; fold nowMs; fold (held nowMs p3);
           now rewrite G'].
      exfalso. assert (Ht : l_valid l = true); [| congruence].
      apply Hvalid. intros c0 s' p' _ H4 Hs' Hp'.
      destruct c0 as [| [| [| [| c0]]]]; try lia; congruence.
    - intros (c0 & s0 & p0 & H4 & E0 & F0 & Ha & He).
      destruct (l_valid l) eqn:Ev; [| reflexivity].
      assert (H : taken useRx s0 || held nowMs p0 = true).
      { destruct Hvalid as [Hv _]. apply (Hv eq_refl c0 s0 p0);
          try assumption. unfold CHANNEL_COUNT. lia. }
      change (accepted rx s0) with (taken useRx s0) in Ha.
      change (expired currentTimeUs p0) with (negb (held nowMs p0)) in He.
      rewrite Ha in H. simpl in H. rewrite H in He. discriminate. }
  destruct (l_valid l) eqn:Ev; simpl.
  - split; [exact Dp |]. split; [| split; [| split]].
    + intros Ha He. rewrite Dr, Ha.
      apply negb_true_iff in He. now rewrite He.
    + split; [discriminate |]. intros H. apply Hcascade in H. discriminate.
    + discriminate.
    + intros _ Ha. rewrite Dr. change (accepted rx sample) with (taken useRx sample) in Ha. now rewrite Ha.
  - assert (Hfail : applyFailValues (l_raw l) !! c
                    = F32.of_Z <$> getFailValue raw c).
    { rewrite applyFailValues_spec by assumption.
      destruct (getFailValue_some raw c sample Hc Hs) as (v & Hv & Hvr).
      rewrite Hv.
      assert (G : getFailValue (l_raw l) c = Some v); [| now rewrite G].
      destruct (taken useRx sample || held nowMs p).
      - rewrite (getFailValue_ext (l_raw l) raw c); [assumption |].
        now rewrite Dr.
      - apply (getFailValue_idem raw); try assumption.
        now rewrite Dr, Hv. }
    split; [exact Dp |]. split; [| split; [| split]].
    + intros _ _. exact Hfail.
    + split; [intros _; now apply Hcascade | reflexivity].
    + intros _. split; [exact Hfail | reflexivity].
    + discriminate.
Qed.


(** A throttle pulse of 800 with the window over: 885 is put out. *)
Lemma signal_loss_fallback_example :
  snd (fst (detectAndApplySignalLossBehaviour rx_start 1000000
              (map (samples 1500 [(THROTTLE, 800)]) (seq 0 CHANNEL_COUNT))))
    !! THROTTLE
  = Some (F32.of_Z 885).
Proof.
  pose proof (signal_loss_fallback rx_start 1000000
    (map (samples 1500 [(THROTTLE, 800)]) (seq 0 CHANNEL_COUNT))
    THROTTLE (F32.of_Z 800) 0 eq_refl eq_refl eq_refl eq_refl) as H.
  exact (proj1 (proj2 H) eq_refl eq_refl).
Defined.

(** C3. The hold is missing.  Frame A, at 1000 ms, has the valid throttle
    pulse 1500 and opens the throttle window until 1300 ms.  Frame B, at
    1200 ms, inside that window, has the invalid throttle pulse 800: the
    loop takes its [continue], which the source comments as holding the
    channel value, but [readChannelsApplyRanges] has already stored the
    fresh sample in the same array, so the value put out is the invalid
    pulse 800 and not the 1500 of frame A.  The frame does not end in
    fail-safe. *)
Theorem invalid_pulse_not_held :
  isPulseValid 1500 = true /\
  m_raw rx_after_A !! THROTTLE = Some (F32.of_Z 1500) /\
  m_invalidPulsePeriod rx_after_A !! THROTTLE = Some 1300 /\
  isPulseValid 800 = false /\
  expired 1200000 1300 = false /\
  m_inFailsafeMode rx_after_B = false /\
  m_raw rx_after_B !! THROTTLE = Some (F32.of_Z 800) /\
  m_raw rx_after_B !! THROTTLE <> Some (F32.of_Z 1500).
Proof.
  assert (HB : m_raw rx_after_B !! THROTTLE = Some (F32.of_Z 800))
    by (vm_compute; reflexivity).
  repeat split; try (vm_compute; reflexivity).
  rewrite HB. vm_compute. discriminate.
Qed.

End SignalLossFacts.

(** * Frame-rate training *)

Section TrainingFacts.

Import Receiver.


Lemma sum_Z_nonneg (l : list Z) : Forall in_u16 l -> 0 <= sum_Z l.
Proof.
  induction 1 as [| x l Hx _ IH]; simpl; [lia |]. unfold in_u16 in Hx.
  fold (sum_Z l). lia.
Qed.

Lemma sum_Z_bound (l : list Z) :
  Forall in_u16 l -> sum_Z l <= 65535 * Z.of_nat (length l).
Proof.
  induction 1 as [| x l Hx _ IH]; simpl length; [simpl; lia |].
  unfold in_u16 in Hx. simpl. fold (sum_Z l). lia.
Qed.

Lemma max_Z_range (l : list Z) : Forall in_u16 l -> 0 <= max_Z l <= 65535.
Proof.
  induction 1 as [| x l Hx _ IH]; simpl; [lia |]. unfold in_u16 in Hx.
  fold (max_Z l). lia.
Qed.

Lemma min_Z_range (l : list Z) : Forall in_u16 l -> 0 <= min_Z l <= 65535.
Proof.
  induction 1 as [| x l Hx _ IH]; simpl; [unfold UINT16_MAX; lia |].
  unfold in_u16 in Hx. fold (min_Z l). lia.
Qed.

Lemma min_max_sum (l : list Z) :
  Forall in_u16 l -> l <> [] ->
  min_Z l <= max_Z l /\ max_Z l <= sum_Z l.
Proof.
  induction 1 as [| x l Hx Hl IH]; intros Hne; [congruence |].
  simpl. fold (min_Z l) (max_Z l) (sum_Z l). unfold in_u16 in Hx.
  destruct l as [| y l'].
  - simpl. unfold UINT16_MAX. lia.
  - destruct IH as [I1 I2]; [discriminate |].
    pose proof (sum_Z_nonneg _ Hl). lia.
Qed.

(** With two samples or more, the sum covers the extremes. *)
Lemma extremes_le_sum (l : list Z) :
  Forall in_u16 l -> (2 <= length l)%nat -> min_Z l + max_Z l <= sum_Z l.
Proof.
  intros Hl Hlen. destruct l as [| x l]; [simpl in Hlen; lia |].
  apply Forall_cons in Hl as [Hx Hl]. unfold in_u16 in Hx.
  assert (Hne : l <> []) by (destruct l; [simpl in Hlen; lia | discriminate]).
  destruct (min_max_sum l Hl Hne) as [I1 I2].
  simpl. fold (min_Z l) (max_Z l) (sum_Z l). lia.
Qed.

Lemma set_training_twice (s1 s2 : F32.float) (c1 c2 M1 M2 m1 m2 : Z)
    (sf : smoothingFilter_t) :
  set_training s1 c1 M1 m1 (set_training s2 c2 M2 m2 sf)
  = set_training s1 c1 M1 m1 sf.
Proof. reflexivity. Qed.

(** One sample below the limit: the accumulator takes it. *)
Lemma accumulate_sample_below
    (sf : smoothingFilter_t) (s c M m x : Z) :
  filterInitialized sf = false ->
  0 <= s -> s + x < 2 ^ 24 -> 0 <= c -> c + 1 < 50 ->
  in_u16 M -> in_u16 m -> in_u16 x ->
  rcSmoothingAccumulateSample (set_training (F32.of_Z s) c M m sf) x
  = (set_training (F32.of_Z (s + x)) (c + 1) (Z.max M x) (Z.min m x) sf,
     false).
Proof.
  unfold in_u16. intros Hi Hs Hsx Hc Hc1 HM Hm Hx.
  unfold rcSmoothingAccumulateSample. simpl. rewrite Hi.
  rewrite add_of_Z by lia.
  rewrite fmaxf_of_Z, fminf_of_Z by lia.
  rewrite !float_to_uint16_of_Z by lia.
  rewrite to_uint32_small by lia.
  unfold SMOOTHING_FILTER_TRAINING_SAMPLES.
  destruct (Z.leb_spec 50 (c + 1)); [lia | reflexivity].
Qed.

(** The sample that reaches the limit: average, then reset. *)
Lemma accumulate_sample_last
    (sf : smoothingFilter_t) (s M m x : Z) :
  filterInitialized sf = false ->
  0 <= s -> s + x < 2 ^ 24 ->
  in_u16 M -> in_u16 m -> in_u16 x ->
  Z.min m x + Z.max M x <= s + x ->
  rcSmoothingAccumulateSample (set_training (F32.of_Z s) 49 M m sf) x
  = (rcSmoothingResetAccumulation
       (set_averageFrameTimeUs
          (to_uint32
             (F32.lrintf
                (F32.div (F32.of_Z (s + x - Z.min m x - Z.max M x))
                         (F32.of_Z 48))))
          sf),
     true).
Proof.
  unfold in_u16. intros Hi Hs Hsx HM Hm Hx Hext.
  unfold rcSmoothingAccumulateSample. simpl. rewrite Hi.
  rewrite add_of_Z by lia.
  rewrite fmaxf_of_Z, fminf_of_Z by lia.
  rewrite !float_to_uint16_of_Z by lia.
  rewrite !sub_of_Z by lia.
  reflexivity.
Qed.

Lemma accumulate_prefix (xs : list Z) :
  forall (sf : smoothingFilter_t) (s c M m : Z),
  filterInitialized sf = false ->
  0 <= s -> s + sum_Z xs < 2 ^ 24 ->
  0 <= c -> c + Z.of_nat (length xs) < 50 ->
  in_u16 M -> in_u16 m -> Forall in_u16 xs ->
  accumulate (set_training (F32.of_Z s) c M m sf) xs
  = (set_training (F32.of_Z (s + sum_Z xs)) (c + Z.of_nat (length xs))
       (Z.max M (max_Z xs)) (Z.min m (min_Z xs)) sf,
     replicate (length xs) false).
Proof.
  induction xs as [| x xs IH]; intros sf s c M m Hi Hs Hsum Hc Hlen HM Hm Hxs.
  - simpl. unfold in_u16, UINT16_MAX in *.
    rewrite Z.add_0_r, Z.add_0_r, Z.max_l, Z.min_l by lia. reflexivity.
  - apply Forall_cons in Hxs as [Hx Hxs].
    pose proof (sum_Z_nonneg xs Hxs) as Hnn.
    change (sum_Z (x :: xs)) with (x + sum_Z xs) in *.
    change (max_Z (x :: xs)) with (Z.max x (max_Z xs)).
    change (min_Z (x :: xs)) with (Z.min x (min_Z xs)).
    change (length (x :: xs)) with (S (length xs)) in *.
    simpl accumulate.
    rewrite accumulate_sample_below
      by (try assumption; unfold in_u16 in *; lia).
    rewrite IH by (try assumption; unfold in_u16 in *; lia).
    rewrite Nat2Z.inj_succ. f_equal.
    f_equal; [f_equal; lia | lia | lia | lia].
Qed.

Lemma accumulate_app (l1 l2 : list Z) (sf : smoothingFilter_t) :
  accumulate sf (l1 ++ l2)
  = (fst (accumulate (fst (accumulate sf l1)) l2),
     snd (accumulate sf l1) ++ snd (accumulate (fst (accumulate sf l1)) l2)).
Proof.
  revert sf. induction l1 as [| x l1 IH]; intros sf; simpl.
  - now destruct (accumulate sf l2).
  - destruct (rcSmoothingAccumulateSample sf x) as [sf1 d].
    rewrite IH. destruct (accumulate sf1 l1) as [sf2 f1]. simpl.
    now destruct (accumulate sf2 l2).
Qed.

Lemma sum_Z_app (l : list Z) (x : Z) : sum_Z (l ++ [x]) = sum_Z l + x.
Proof.
  induction l as [| y l IH]; simpl; [lia |].
  fold (sum_Z (l ++ [x])) (sum_Z l). lia.
Qed.

Lemma max_Z_app (l : list Z) (x : Z) :
  0 <= x -> max_Z (l ++ [x]) = Z.max (max_Z l) x.
Proof.
  intros Hx. induction l as [| y l IH]; simpl; [lia |].
  fold (max_Z (l ++ [x])) (max_Z l). lia.
Qed.

Lemma min_Z_app (l : list Z) (x : Z) :
  x <= 65535 -> min_Z (l ++ [x]) = Z.min (min_Z l) x.
Proof.
  intros Hx. induction l as [| y l IH]; simpl; [unfold UINT16_MAX; lia |].
  fold (min_Z (l ++ [x])) (min_Z l). lia.
Qed.

(** A run of equal samples. *)
Lemma sum_Z_replicate (n : nat) (T : Z) :
  sum_Z (replicate n T) = Z.of_nat n * T.
Proof.
  induction n as [| n IH]; [reflexivity |].
  rewrite Nat2Z.inj_succ. cbn [replicate]. unfold sum_Z in *.
  cbn [foldr]. rewrite IH. lia.
Qed.

Lemma max_Z_replicate (n : nat) (T : Z) :
  0 <= T -> max_Z (replicate (S n) T) = T.
Proof.
  intros HT. induction n as [| n IH]; [cbn; lia |].
  change (max_Z (replicate (S (S n)) T))
    with (Z.max T (max_Z (replicate (S n) T))).
  rewrite IH. lia.
Qed.

Lemma min_Z_replicate (n : nat) (T : Z) :
  T <= UINT16_MAX -> min_Z (replicate (S n) T) = T.
Proof.
  intros HT. induction n as [| n IH]; [cbn; lia |].
  change (min_Z (replicate (S (S n)) T))
    with (Z.min T (min_Z (replicate (S n) T))).
  rewrite IH. lia.
Qed.

Lemma reset_shape (sf : smoothingFilter_t) :
  trainingSum sf = F32.of_Z 0 -> trainingCount sf = 0 ->
  trainingMax sf = 0 -> trainingMin sf = UINT16_MAX ->
  sf = set_training (F32.of_Z 0) 0 0 UINT16_MAX sf.
Proof.
  destruct sf. simpl. intros -> -> -> ->. reflexivity.
Qed.

(** C6. Initial training from a reset accumulator, fed frame intervals
    within [950, 65500].  The first 49 calls return false and leave
    [averageFrameTimeUs] alone; the 50th returns true, sets
    [averageFrameTimeUs] to the (single precision, then [lrintf]) quotient
    of the sum less the smallest and the largest sample by 48 = count - 2,
    and resets the accumulator.  With a constant interval [T] the average
    is [T] exactly. *)
Theorem training_average
    (sf : smoothingFilter_t) (xs : list Z) (T : Z) (k : nat) :
  filterInitialized sf = false ->
  trainingSum sf = F32.of_Z 0 -> trainingCount sf = 0 ->
  trainingMax sf = 0 -> trainingMin sf = UINT16_MAX ->
  length xs = 50%nat ->
  Forall (fun x => SMOOTHING_RATE_MIN_US <= x <= SMOOTHING_RATE_MAX_US) xs ->
  let sf' := fst (accumulate sf xs) in
  snd (accumulate sf xs) = replicate 49 false ++ [true] /\
  ((k < 50)%nat ->
   averageFrameTimeUs (fst (accumulate sf (take k xs)))
   = averageFrameTimeUs sf /\
   snd (accumulate sf (take k xs)) = replicate k false) /\
  averageFrameTimeUs sf'
  = to_uint32
      (F32.lrintf
         (F32.div (F32.of_Z (sum_Z xs - min_Z xs - max_Z xs))
                  (F32.of_Z (Z.of_nat (length xs) - 2)))) /\
  trainingSum sf' = F32.of_Z 0 /\ trainingCount sf' = 0 /\
  trainingMax sf' = 0 /\ trainingMin sf' = UINT16_MAX /\
  (xs = replicate 50 T -> averageFrameTimeUs sf' = T).
Proof.
  intros Hi Hsum Hcnt Hmax Hmin Hlen Hxs.
  assert (Hu : Forall in_u16 xs).
  { eapply Forall_impl; [exact Hxs |]. intros x.
    unfold in_u16, SMOOTHING_RATE_MIN_US, SMOOTHING_RATE_MAX_US. lia. }
  rewrite (reset_shape sf Hsum Hcnt Hmax Hmin).
  assert (Hprefix : forall l, Forall in_u16 l -> (length l < 50)%nat ->
            accumulate (set_training (F32.of_Z 0) 0 0 UINT16_MAX sf) l
            = (set_training (F32.of_Z (sum_Z l)) (Z.of_nat (length l))
                 (max_Z l) (min_Z l) sf, replicate (length l) false)).
  { intros l Hl Hll. pose proof (sum_Z_bound l Hl) as Hb.
    pose proof (sum_Z_nonneg l Hl) as Hn.
    pose proof (max_Z_range l Hl) as HM. pose proof (min_Z_range l Hl) as Hm.
    rewrite accumulate_prefix
      by (try assumption; unfold in_u16, UINT16_MAX; lia).
    unfold UINT16_MAX in *.
    rewrite !Z.add_0_l, Z.max_r, Z.min_r by lia. reflexivity. }
  assert (Hne : xs <> []) by (intros ->; discriminate).
  destruct (exists_last Hne) as (l & x & ->).
  rewrite length_app in Hlen. simpl in Hlen.
  apply Forall_app in Hu as [Hl Hx]. apply Forall_cons in Hx as [Hx _].
  assert (Hll : length l = 49%nat) by lia.
  pose proof (sum_Z_bound l Hl) as Hb. pose proof (sum_Z_nonneg l Hl) as Hn.
  pose proof (max_Z_range l Hl) as HM. pose proof (min_Z_range l Hl) as Hm.
  assert (Hext : min_Z (l ++ [x]) + max_Z (l ++ [x]) <= sum_Z (l ++ [x])).
  { apply extremes_le_sum.
    - apply Forall_app. split; [assumption | now constructor].
    - rewrite length_app. simpl. lia. }
  unfold in_u16 in Hx.
  rewrite sum_Z_app, max_Z_app, min_Z_app in * by lia.
  assert (Hall : accumulate (set_training (F32.of_Z 0) 0 0 UINT16_MAX sf)
                   (l ++ [x])
                 = (rcSmoothingResetAccumulation
                      (set_averageFrameTimeUs
                         (to_uint32
                            (F32.lrintf
                               (F32.div
                                  (F32.of_Z (sum_Z l + x - Z.min (min_Z l) x
                                             - Z.max (max_Z l) x))
                                  (F32.of_Z 48))))
                         sf),
                    replicate 49 false ++ [true])).
  { rewrite accumulate_app, Hprefix by (assumption || lia).
    rewrite Hll. simpl fst. simpl snd.
    change (Z.of_nat 49) with 49. simpl accumulate.
    rewrite accumulate_sample_last
      by (try assumption; unfold in_u16; lia).
    reflexivity. }
  rewrite Hall. cbv zeta. simpl fst. simpl snd.
  split; [reflexivity |]. split; [| split; [| repeat split]].
  - intros Hk.
    rewrite Hprefix.
    + simpl. rewrite length_take. split; [reflexivity |].
      f_equal. rewrite length_app. simpl. lia.
    + apply Forall_take. apply Forall_app. split; [assumption |].
      now constructor.
    + rewrite length_take. lia.
  - simpl. rewrite length_app, Hll. reflexivity.
  - intros HT.
    assert (HlT : l = replicate 49 T /\ x = T).
    { change (replicate 50 T) with (replicate 49 T ++ [T]) in HT.
      apply app_inj_tail in HT. exact HT. }
    destruct HlT as [-> ->].
    assert (Hs : sum_Z (replicate 49 T) = 49 * T)
      by (rewrite sum_Z_replicate; lia).
    assert (Hmx : max_Z (replicate 49 T) = T)
      by (apply (max_Z_replicate 48); lia).
    assert (Hmn : min_Z (replicate 49 T) = T)
      by (apply (min_Z_replicate 48); unfold UINT16_MAX; lia).
    rewrite Hs, Hmx, Hmn.
    assert (HTr : SMOOTHING_RATE_MIN_US <= T <= SMOOTHING_RATE_MAX_US).
    { apply Forall_app in Hxs as [_ Hxs]. now apply Forall_inv in Hxs. }
    unfold SMOOTHING_RATE_MIN_US, SMOOTHING_RATE_MAX_US in HTr.
    cbn [averageFrameTimeUs rcSmoothingResetAccumulation
         set_averageFrameTimeUs set_training].
    replace (49 * T + T - Z.min T T - Z.max T T) with (T * 48) by lia.
    rewrite div_of_Z by lia. rewrite lrintf_of_Z by lia.
    apply to_uint32_small. lia.
Qed.

End TrainingFacts.

(** * Cut-off selection *)

Section CutoffFacts.

Import Receiver.

(** ** Signs *)

Lemma nonneg_round_aux (m e : Z) (l : location) :
  F32.nonneg (binary_round_aux F32.prec F32.emax false m e l) = true.
Proof.
  unfold binary_round_aux.
  destruct (shr_fexp _ _ m e l) as [mrs' e'].
  destruct (shr_fexp _ _ _ e' loc_Exact) as [mrs'' e''].
  destruct (shr_m mrs''); [reflexivity | | reflexivity].
  destruct (e'' <=? F32.emax - F32.prec); reflexivity.
Qed.

Lemma nonneg_of_Z (z : Z) : 0 <= z -> F32.nonneg (F32.of_Z z) = true.
Proof.
  intros Hz. destruct z as [| p | p]; try lia; [reflexivity |].
  unfold F32.of_Z, binary_normalize, binary_round.
  destruct (shl_align _ _ _) as [mz ez]. apply nonneg_round_aux.
Qed.

Lemma nonneg_mul (x y : F32.float) :
  F32.nonneg x = true -> F32.nonneg y = true -> F32.nonneg (F32.mul x y) = true.
Proof.
  destruct x as [[] | [] | | [] mx ex], y as [[] | [] | | [] my ey];
    simpl; intros Hx Hy; try discriminate; try reflexivity.
  apply nonneg_round_aux.
Qed.

Lemma nonneg_div (x y : F32.float) :
  F32.nonneg x = true -> F32.nonneg y = true -> F32.nonneg (F32.div x y) = true.
Proof.
  destruct x as [[] | [] | | [] mx ex], y as [[] | [] | | [] my ey];
    simpl; intros Hx Hy; try discriminate; try reflexivity.
  unfold F32.div, SFdiv.
  destruct (SFdiv_core_binary _ _ _ _ _ _) as [[mz ez] lz].
  apply nonneg_round_aux.
Qed.

Lemma nonneg_add (x y : F32.float) :
  F32.nonneg x = true -> F32.nonneg y = true -> F32.nonneg (F32.add x y) = true.
Proof.
  destruct x as [[] | [] | | [] mx ex], y as [[] | [] | | [] my ey];
    simpl; intros Hx Hy; try discriminate; try reflexivity.
  unfold F32.add, SFadd, binary_normalize, binary_round. simpl.
  destruct (shl_align _ _ _) as [mz ez]. apply nonneg_round_aux.
Qed.

Lemma lrintf_nonneg (x : F32.float) : F32.nonneg x = true -> 0 <= F32.lrintf x.
Proof.
  destruct x as [s | s | | s m e]; simpl; try lia.
  destruct s; [discriminate |]. intros _.
  destruct e as [| p | p].
  - rewrite Z.shiftl_0_r. lia.
  - apply Z.shiftl_nonneg. lia.
  - rewrite Z.shiftl_mul_pow2, Z.mul_1_l by lia.
    assert (Hp : 0 < 2 ^ Zpos p) by (apply Z.pow_pos_nonneg; lia).
    assert (Hq : 0 <= Zpos m / 2 ^ Zpos p) by (apply Z.div_pos; lia).
    destruct (_ ?= _); [destruct (Z.even _) | |]; lia.
Qed.

(** ** The computed cut-off *)

Lemma calc_nonpositive (avg s : Z) :
  avg <= 0 -> calcAutoSmoothingCutoff avg s = 0.
Proof.
  intros H. unfold calcAutoSmoothingCutoff.
  destruct (Z.ltb_spec 0 avg); [lia | reflexivity].
Qed.

Lemma calc_nonneg (avg s : Z) :
  0 <= s -> 0 <= calcAutoSmoothingCutoff avg s.
Proof.
  intros Hs. unfold calcAutoSmoothingCutoff.
  destruct (Z.ltb_spec 0 avg) as [Ha |]; [| lia].
  apply lrintf_nonneg. apply nonneg_mul.
  - apply nonneg_div; [reflexivity |].
    apply nonneg_mul; [apply nonneg_of_Z; lia | reflexivity].
  - apply nonneg_div; [reflexivity |].
    apply nonneg_add; [reflexivity |].
    apply nonneg_div; [apply nonneg_of_Z; lia | reflexivity].
Qed.

(** The literals are the floats nearest to 1.5 and 1e-6. *)
Lemma literals :
  f1_5 = F32.div (F32.of_Z 3) (F32.of_Z 2) /\
  f1em6 = F32.div (F32.of_Z 1) (F32.of_Z 1000000).
Proof. split; vm_compute; reflexivity. Qed.

Lemma to_int32_small (z : Z) : 0 <= z < 2147483648 -> to_int32 z = z.
Proof.
  intros H. unfold to_int32. rewrite to_uint32_small by lia.
  destruct (Z.ltb_spec z 2147483648); lia.
Qed.

(** ** The size of the computed cut-off *)

Lemma of_Z_ge_pow2 (v k : Z) :
  0 <= k -> 2 ^ k <= v -> F32.ge_pow2 (F32.of_Z v) k.
Proof.
  intros Hk Hv. pose proof (pow2_pos k Hk) as Hp.
  destruct v as [| v | v]; try lia.
  unfold F32.of_Z, binary_normalize, binary_round.
  assert (H0 : k <= 0 \/ 2 ^ (k - 0) <= Zpos v)
    by (right; now rewrite Z.sub_0_r).
  pose proof (shl_align_ge v 0
                (fexp F32.prec F32.emax (Zpos (digits2_pos v) + 0)) k H0)
    as Hal.
  destruct (shl_align v 0 _) as [mz ez]. cbn [fst snd] in Hal.
  apply round_aux_ge; [lia | lia | exact Hal].
Qed.

Lemma of_Z_pos0 (v : Z) : 0 <= v -> F32.pos0 (F32.of_Z v).
Proof.
  intros Hv. destruct v as [| v | v]; try lia; [exact I |].
  unfold F32.of_Z, binary_normalize, binary_round.
  destruct (shl_align v 0 _) as [mz ez]. apply round_aux_pos0. lia.
Qed.

(** From an average frame time of 512 us on, the computed cut-off is at
    most 4096, whatever the smoothness factor. *)
Lemma calc_le (avg s : Z) :
  512 <= avg -> 0 <= s -> calcAutoSmoothingCutoff avg s <= 4096.
Proof.
  intros Ha Hs. unfold calcAutoSmoothingCutoff.
  destruct (Z.ltb_spec 0 avg) as [_ |]; [| lia].
  assert (E1 : F32.of_Z 1 = S754_finite false 8388608 (-23))
    by (vm_compute; reflexivity).
  assert (E10 : F32.of_Z 10 = S754_finite false 10485760 (-20))
    by (vm_compute; reflexivity).
  change 4096 with (2 ^ 12).
  apply lrintf_le_pow2; [| lia].
  apply (mul_le_pow2 _ _ 11 1); [| | lia].
  - apply (div_le_pow2 _ _ 0 (-11)); [| | lia].
    + rewrite E1. cbn [F32.le_pow2]. split; [lia |]. vm_compute. discriminate.
    + apply (mul_ge_pow2 _ _ 9 (-20)); [| | lia].
      * apply of_Z_ge_pow2; [lia |]. change (2 ^ 9) with 512. lia.
      * unfold f1em6. cbn [F32.ge_pow2]. right. vm_compute. discriminate.
  - apply (div_le_pow2 _ _ 1 0); [| | lia].
    + unfold f1_5. cbn [F32.le_pow2]. split; [lia |]. vm_compute.
      discriminate.
    + apply add_ge_pow2; [| | lia].
      * rewrite E1. cbn [F32.ge_pow2]. right. vm_compute. discriminate.
      * apply div_pos0.
        -- now apply of_Z_pos0.
        -- rewrite E10. reflexivity.
        -- intros z. rewrite E10. discriminate.
        -- intros z. rewrite E10. discriminate.
Qed.

(** The narrowing assignment is a plain maximum as long as the computed
    value fits the 16-bit field. *)
Lemma autoCutoff_max (avg s : Z) :
  0 <= s -> calcAutoSmoothingCutoff (to_int32 avg) s <= 65535 ->
  autoCutoff avg s = Z.max 15 (calcAutoSmoothingCutoff (to_int32 avg) s).
Proof.
  intros Hs Hr. pose proof (calc_nonneg (to_int32 avg) s Hs) as Hn.
  unfold autoCutoff, SMOOTHING_CUTOFF_MIN_HZ.
  rewrite fmaxf_of_Z by lia. apply float_to_uint16_of_Z. lia.
Qed.

(** The stored cut-off for an average the code can hold: none or negative
    as an [int], or 512 us and more. *)
Lemma autoCutoff_range (avg s : Z) :
  0 <= s -> to_int32 avg <= 0 \/ 512 <= to_int32 avg ->
  autoCutoff avg s = Z.max 15 (calcAutoSmoothingCutoff (to_int32 avg) s) /\
  15 <= autoCutoff avg s <= 4096.
Proof.
  intros Hs Ha.
  assert (Hr : 0 <= calcAutoSmoothingCutoff (to_int32 avg) s <= 4096).
  { split; [now apply calc_nonneg |].
    destruct Ha as [Ha | Ha]; [rewrite calc_nonpositive by assumption; lia |].
    now apply calc_le. }
  rewrite autoCutoff_max by lia. lia.
Qed.

(** C7 (amended). With a cut-off setting on auto (0),
    [setSmoothingFilterCutoffs] stores [max(15, r)], where [r] is what
    [calcAutoSmoothingCutoff] returns: 0 for an average frame time of 0
    (or one that is negative as an [int]), else the [lrintf] of the
    single-precision evaluation of [(1 / (avg * 1e-6)) * (1.5 / (1 + s/10))],
    which is not always the rounding of the exact quotient.  For an average
    of 0 and for every average of 512 us and more (training yields 950 us
    and more) the stored cut-off lies between 15 and 4096, and it is 15
    when the average is 0.  The setpoint and the feed-forward cut-offs use
    the setpoint smoothness factor, the throttle cut-off the throttle
    one. *)
Theorem auto_cutoff_floor
    (gain : F32.float -> F32.float -> F32.float) (dT1 dT2 : F32.float)
    (pid : anglePid_t) (sf : smoothingFilter_t) :
  0 <= autoSmoothnessFactorSetpoint sf ->
  0 <= autoSmoothnessFactorThrottle sf ->
  to_int32 (averageFrameTimeUs sf) <= 0
  \/ 512 <= to_int32 (averageFrameTimeUs sf) ->
  let sf' := snd (setSmoothingFilterCutoffs gain dT1 dT2 pid sf) in
  let r := calcAutoSmoothingCutoff (to_int32 (averageFrameTimeUs sf)) in
  (setpointCutoffSetting sf = 0 ->
   setpointCutoffFrequency sf'
   = Z.max 15 (r (autoSmoothnessFactorSetpoint sf)) /\
   15 <= setpointCutoffFrequency sf' <= 4096) /\
  (throttleCutoffSetting sf = 0 ->
   throttleCutoffFrequency sf'
   = Z.max 15 (r (autoSmoothnessFactorThrottle sf)) /\
   15 <= throttleCutoffFrequency sf' <= 4096) /\
  (ffCutoffSetting sf = 0 ->
   feedforwardCutoffFrequency sf'
   = Z.max 15 (r (autoSmoothnessFactorSetpoint sf)) /\
   15 <= feedforwardCutoffFrequency sf' <= 4096) /\
  (forall s, 0 <= s -> 0 <= r s) /\
  (forall s, to_int32 (averageFrameTimeUs sf) <= 0 -> r s = 0) /\
  (forall s, 0 < to_int32 (averageFrameTimeUs sf) ->
   r s = F32.lrintf
           (F32.mul
              (F32.div (F32.of_Z 1)
                 (F32.mul (F32.of_Z (to_int32 (averageFrameTimeUs sf)))
                          f1em6))
              (F32.div f1_5
                 (F32.add (F32.of_Z 1)
                    (F32.div (F32.of_Z s) (F32.of_Z 10)))))).
Proof.
  intros Hs Ht Ha sf' r.
  split; [| split; [| split; [| split; [| split]]]].
  - intros H0. unfold sf', setSmoothingFilterCutoffs. simpl.
    rewrite H0. simpl. now apply autoCutoff_range.
  - intros H0. unfold sf', setSmoothingFilterCutoffs. simpl.
    rewrite H0. simpl. now apply autoCutoff_range.
  - intros H0. unfold sf', setSmoothingFilterCutoffs. simpl.
    rewrite H0. simpl. now apply autoCutoff_range.
  - intros s H. now apply calc_nonneg.
  - intros s H. unfold r. now apply calc_nonpositive.
  - intros s H. unfold r, calcAutoSmoothingCutoff.
    destruct (Z.ltb_spec 0 (to_int32 (averageFrameTimeUs sf)));
      [reflexivity | lia].
Qed.

(** A sample run for [auto_cutoff_floor]: 4000 us with the default factor
    30 gives 94. *)
Lemma auto_cutoff_floor_witness :
  setpointCutoffFrequency
    (snd (setSmoothingFilterCutoffs (fun _ _ => F32.of_Z 0) (F32.of_Z 0)
            (F32.of_Z 0)
            {| feedforwardLpfInitialized := false; feedforwardPt3 := [] |}
            (set_averageFrameTimeUs 4000 sf_boot)))
  = Z.max 15 94.
Proof.
  pose proof (auto_cutoff_floor (fun _ _ => F32.of_Z 0) (F32.of_Z 0)
    (F32.of_Z 0)
    {| feedforwardLpfInitialized := false; feedforwardPt3 := [] |}
    (set_averageFrameTimeUs 4000 sf_boot)) as H.
  assert (H30 : 0 <= 30) by lia.
  assert (Ha : to_int32 4000 <= 0 \/ 512 <= to_int32 4000)
    by (right; vm_compute; discriminate).
  assert (Hr : calcAutoSmoothingCutoff (to_int32 4000) 30 = 94)
    by (vm_compute; reflexivity).
  rewrite <- Hr.
  exact (proj1 (proj1 (H H30 H30 Ha) eq_refl)).
Defined.

(** At an average frame time of 2000 us with the factor 30 the exact
    value is 187.5, which rounds to 188; the single-precision evaluation
    falls just below the half and the code stores 187.  (At 10000 us the
    exact 37.5 becomes 38: no rule for halves gives both.) *)
Lemma auto_cutoff_counterexample :
  let sf' := snd (setSmoothingFilterCutoffs (fun _ _ => F32.of_Z 0)
                    (F32.of_Z 0) (F32.of_Z 0)
                    {| feedforwardLpfInitialized := false;
                       feedforwardPt3 := [] |}
                    (set_averageFrameTimeUs 2000 sf_boot)) in
  setpointCutoffFrequency sf' = 187 /\
  spec_cutoff 2000 30 = 188 /\ spec_cutoff_even 2000 30 = 188 /\
  (spec_cutoff_value 2000 30 == 375 # 2)%Q /\
  setpointCutoffFrequency sf' <> spec_cutoff 2000 30 /\
  autoCutoff 10000 30 = 38.
Proof.
  cbv zeta.
  assert (H : setpointCutoffFrequency
                (snd (setSmoothingFilterCutoffs (fun _ _ => F32.of_Z 0)
                        (F32.of_Z 0) (F32.of_Z 0)
                        {| feedforwardLpfInitialized := false;
                           feedforwardPt3 := [] |}
                        (set_averageFrameTimeUs 2000 sf_boot))) = 187)
    by (vm_compute; reflexivity).
  rewrite H. repeat split; try (vm_compute; reflexivity).
  vm_compute. discriminate.
Qed.

Lemma training_average_witness :
  averageFrameTimeUs (fst (accumulate sf_boot (replicate 50 4000))) = 4000.
Proof.
  assert (HF : Forall (fun x => SMOOTHING_RATE_MIN_US <= x
                                <= SMOOTHING_RATE_MAX_US)
                 (replicate 50 4000)).
  { apply Forall_replicate.
    unfold SMOOTHING_RATE_MIN_US, SMOOTHING_RATE_MAX_US. lia. }
  pose proof (training_average sf_boot (replicate 50 4000) 4000 10
    eq_refl eq_refl eq_refl eq_refl eq_refl eq_refl HF) as H.
  exact (proj2 (proj2 (proj2 (proj2 (proj2 (proj2 (proj2 H)))))) eq_refl).
Defined.

End CutoffFacts.

Section CastFacts.
Import F32.

(** The magnitude of a finite float as a fraction. *)
Lemma magnitude_Q (m : positive) (e : Z) :
  (0 < inject_Z (Zpos m) * Qpower 2 e)%Q /\
  Qfloor (inject_Z (Zpos m) * Qpower 2 e)
  = match e with
    | Zneg p => Z.shiftr (Zpos m) (Zpos p)
    | _ => Z.shiftl (Zpos m) e
    end.
Proof.
  split.
  - apply Qmult_lt_0_compat; [reflexivity | now apply Qpower_0_lt].
  - destruct e as [|p|p].
    + change (Qpower 2 0) with 1%Q. rewrite Qmult_1_r. apply Qfloor_Z.
    + rewrite Z.shiftl_mul_pow2 by lia.
      change 2%Q with (inject_Z 2).
      rewrite <- Zpower_Qpower by lia. rewrite <- inject_Z_mult.
      apply Qfloor_Z.
    + rewrite Z.shiftr_div_pow2 by lia.
      rewrite (Qpower_decomp_neg_pos p 2 1).
      rewrite Z.pow_1_l by lia.
      assert (E : (inject_Z (Zpos m) * (1 # 2 ^ p) == Zpos m # 2 ^ p)%Q).
      { unfold Qeq, Qmult, inject_Z. cbn [Qnum Qden]. lia. }
      rewrite E. unfold Qfloor. now rewrite Pos2Z.inj_pow.
Qed.

(** The C cast drops the fraction: [to_Z] is the floor of a non-negative
    float and the ceiling of a negative one. *)
Lemma to_Z_truncates (x : float) :
  to_Z x = if Qle_bool 0 (to_Q x) then Qfloor (to_Q x) else Qceiling (to_Q x).
Proof.
  destruct x as [s|s| |s m e]; try reflexivity.
  destruct (magnitude_Q m e) as [Hpos Hfl].
  unfold to_Z, to_Q. cbv zeta. rewrite <- Hfl.
  set (v := (inject_Z (Z.pos m) * Qpower 2 e)%Q) in *.
  destruct s.
  - assert (Hn : Qle_bool 0 (- v) = false).
    { apply not_true_is_false. rewrite Qle_bool_iff. intros H.
      apply (Qlt_irrefl 0). apply Qlt_le_trans with v; [assumption|].
      rewrite <- (Qopp_involutive v). 
      apply (Qopp_le_compat 0 (- v)) in H. exact H. }
    rewrite Hn. unfold Qceiling. now rewrite Qopp_involutive.
  - assert (Hp : Qle_bool 0 v = true).
    { apply Qle_bool_iff. now apply Qlt_le_weak. }
    now rewrite Hp.
Qed.

End CastFacts.

Section MspFacts.
Import Msp.

(** With [ready] false every serialising helper leaves the out buffer, its
    size and its checksum as they are. *)
Lemma addToOutBuf_idle (o : outbuf) (byte : Z) : addToOutBuf o false byte = o.
Proof. destruct o; reflexivity. Qed.

Lemma serialize_idle (o : outbuf) (byte : Z) : serialize o false byte = o.
Proof. destruct o; reflexivity. Qed.

Lemma prepareToSerialize_idle (o : outbuf) (type count size : Z) :
  prepareToSerialize o false type count size = o.
Proof. destruct o; reflexivity. Qed.

Lemma serializeFloat_idle (o : outbuf) (v : F32.float) :
  serializeFloat o false v = o.
Proof. unfold serializeFloat. cbv zeta. now rewrite !serialize_idle. Qed.

Lemma completeSend_idle (o : outbuf) : completeSend o false = o.
Proof. apply serialize_idle. Qed.

(** One byte appended by [addToOutBuf]. *)
Lemma addToOutBuf_written (o : outbuf) (l : list Z) (byte : Z) :
  written o l ->
  (length l < length (buffer o))%nat ->
  (length l < 255)%nat ->
  written (addToOutBuf o true byte) (l ++ [byte]) /\
  length (buffer (addToOutBuf o true byte)) = length (buffer o) /\
  buffer_checksum (addToOutBuf o true byte) = buffer_checksum o.
Proof.
  intros [Hs Ht] Hl Hb. unfold written, addToOutBuf. cbn [buffer buffer_size buffer_checksum].
  rewrite Hs, Nat2Z.id, length_app, length_insert. cbn [length].
  repeat split.
  - rewrite to_uint8_small by lia. lia.
  - replace (length l + 1)%nat with (S (length l)) by lia.
    rewrite (take_S_r _ _ byte).
    + rewrite take_insert_ge by lia. now rewrite Ht.
    + apply list_lookup_insert_eq. lia.
Qed.

(** One byte appended by [serialize], which also folds it into the
    checksum. *)
Lemma serialize_written (o : outbuf) (l : list Z) (byte : Z) :
  written o l ->
  (length l < length (buffer o))%nat ->
  (length l < 255)%nat ->
  written (serialize o true byte) (l ++ [byte]) /\
  length (buffer (serialize o true byte)) = length (buffer o) /\
  buffer_checksum (serialize o true byte) = Z.lxor (buffer_checksum o) byte.
Proof.
  intros Hw Hl Hb.
  destruct (addToOutBuf_written o l byte Hw Hl Hb) as ([Hs Ht] & Hlen & Hc).
  unfold written, serialize. cbn [buffer buffer_size buffer_checksum].
  rewrite Hc. repeat split; assumption.
Qed.

(** A run of bytes appended by [serialize]. *)
Lemma serialize_all_written (bytes : list Z) : forall (o : outbuf) (l : list Z),
  written o l ->
  (length l + length bytes <= length (buffer o))%nat ->
  (length l + length bytes <= 255)%nat ->
  written (serialize_all o bytes) (l ++ bytes) /\
  length (buffer (serialize_all o bytes)) = length (buffer o) /\
  buffer_checksum (serialize_all o bytes)
    = foldl Z.lxor (buffer_checksum o) bytes.
Proof.
  induction bytes as [|b bytes IH]; intros o l Hw Hl Hb.
  - rewrite app_nil_r, Nat.add_0_r in *. unfold serialize_all. cbn [foldl length].
    split; [assumption | split; reflexivity].
  - cbn [length] in Hl, Hb.
    destruct (serialize_written o l b Hw) as (Hw1 & Hlen1 & Hc1); [lia|lia|].
    destruct (IH (serialize o true b) (l ++ [b]) Hw1) as (Hw2 & Hlen2 & Hc2).
    + rewrite length_app, Hlen1. cbn [length]. lia.
    + rewrite length_app. cbn [length]. lia.
    + unfold serialize_all in *. cbn [foldl].
      rewrite <- app_assoc in Hw2. cbn [app] in Hw2.
      rewrite Hlen2, Hlen1, Hc2, Hc1.
      split; [assumption | split; reflexivity].
Qed.

(** [serializeFloat] is four [serialize] calls on the little-endian bytes. *)
Lemma serializeFloat_all (o : outbuf) (v : F32.float) :
  serializeFloat o true v = serialize_all o (le32 (uintval v)).
Proof. reflexivity. Qed.

Lemma serialize_all_app (o : outbuf) (l1 l2 : list Z) :
  serialize_all (serialize_all o l1) l2 = serialize_all o (l1 ++ l2).
Proof. unfold serialize_all. now rewrite foldl_app. Qed.

(** The whole type-122 reply as one run: header by [addToOutBuf], then
    length, type and payload by [serialize], then the checksum. *)
Lemma reply_written (o : outbuf) (type count : Z) (payload : list Z) :
  (5 + length payload < length (buffer o))%nat ->
  (5 + length payload < 255)%nat ->
  let o1 := prepareToSerializeFloats o true type count in
  let o2 := completeSend (serialize_all o1 payload) true in
  let body := to_uint8 (count * 4) :: type :: payload in
  written o2 ([36; 77; 62] ++ body ++ [xor_all body]) /\
  buffer_checksum o2 = 0.
Proof.
  intros Hl Hb o1 o2 body.
  set (o0 := {| buffer := buffer o; buffer_size := 0; buffer_checksum := 0 |}).
  assert (Hw0 : written o0 []) by (split; reflexivity).
  destruct (addToOutBuf_written o0 [] 36 Hw0) as (Hw1 & Hl1 & Hc1);
    [cbn; lia | cbn; lia |].
  destruct (addToOutBuf_written _ _ 77 Hw1) as (Hw2 & Hl2 & Hc2);
    [rewrite Hl1; cbn; lia | cbn; lia |].
  destruct (addToOutBuf_written _ _ 62 Hw2) as (Hw3 & Hl3 & Hc3);
    [rewrite Hl2, Hl1; cbn; lia | cbn; lia |].
  set (o3 := addToOutBuf (addToOutBuf (addToOutBuf o0 true 36) true 77) true 62) in *.
  assert (E : serialize_all o1 payload = serialize_all o3 body).
  { reflexivity. }
  destruct (serialize_all_written body o3 _ Hw3) as (Hw4 & Hl4 & Hc4).
  { rewrite Hl3, Hl2, Hl1. cbn. lia. }
  { cbn. lia. }
  destruct (serialize_written (serialize_all o3 body) _ (xor_all body) Hw4)
    as (Hw5 & Hl5 & Hc5).
  { rewrite length_app, Hl4, Hl3, Hl2, Hl1. cbn. lia. }
  { rewrite length_app. cbn. lia. }
  assert (Hx : buffer_checksum (serialize_all o3 body) = xor_all body).
  { rewrite Hc4, Hc3, Hc2, Hc1. reflexivity. }
  unfold o2, completeSend. rewrite E, Hx. split.
  - rewrite <- app_assoc in Hw5. exact Hw5.
  - rewrite Hc5, Hx. apply Z.lxor_nilpotent.
Qed.

(** A completed frame is not in state 4 one byte earlier: [ready] implies
    the type is the one already latched. *)
Lemma ready_state (p : parser_t) (s : stream_t) :
  ready_of p s = true -> (parser_state_ p =? 4) = false.
Proof.
  unfold ready_of, next_state. intros H.
  apply andb_true_iff in H as [H _]. apply andb_true_iff in H as [_ H].
  destruct (parser_state_ p =? 4) eqn:E4; [|reflexivity].
  apply Z.eqb_eq in E4. rewrite E4 in H. discriminate H.
Qed.

(** C8 (amended): when a frame completes with the type latched at 122, the
    out buffer holds the eighteen bytes of the attitude reply: the header
    [$M>], the length 12, the type 122, the little-endian bytes of the three
    32-bit values [uintval phi], [uintval theta], [uintval psi], and the XOR
    of length, type and payload; the reported size is 18 and the read index
    is 0.  The value sent for a float is the C cast of the single-precision
    [1000 * (v + 2)], which drops the fraction (floor for a non-negative
    product), reduced to 32 bits. *)
Theorem attitude_reply
    (p : parser_t) (s : stream_t) (buf : list Z) (bi : Z)
    (phi theta psi : F32.float) :
  type_ p = 122 ->
  ready_of p s = true ->
  (18 <= length buf)%nat ->
  let r := (parser_parse p s buf bi phi theta psi).2 in
  let payload :=
    le32 (uintval phi) ++ le32 (uintval theta) ++ le32 (uintval psi) in
  take 18 (r_buffer r)
    = [36; 77; 62; 12; 122] ++ payload ++ [xor_all (12 :: 122 :: payload)] /\
  r_buffer_size r = 18 /\
  r_buffer_index r = 0 /\
  (forall v : F32.float,
     let x := F32.mul (F32.of_Z 1000) (F32.add v (F32.of_Z 2)) in
     uintval v
     = to_uint32 (if Qle_bool 0 (F32.to_Q x) then Qfloor (F32.to_Q x)
                  else Qceiling (F32.to_Q x))).
Proof.
  intros Ht Hr Hl r payload.
  assert (Hs := ready_state p s Hr).
  assert (Hin : in_payload p (stream_serialByte s) = false).
  { unfold in_payload. now rewrite Ht. }
  subst r. unfold parser_parse. cbv zeta.
  rewrite Hs, Hin, Ht, Hr.
  change (122 =? 121) with false. change (122 =? 122) with true.
  cbv iota beta. cbn [snd r_buffer r_buffer_size r_buffer_index].
  set (o0 := {| buffer := buf; buffer_size := buffer_size_ p;
                buffer_checksum := buffer_checksum_ p |}).
  rewrite !serializeFloat_all, !serialize_all_app.
  destruct (reply_written o0 122 3 payload) as [[Hsz Htk] _];
    [cbn; lia | cbn; lia |].
  split; [exact Htk | split; [exact Hsz | split; [reflexivity |]]].
  intros v. unfold uintval. now rewrite to_Z_truncates.
Qed.

(** A sample run for [attitude_reply]: the request [$M<], length 0, type
    122, checksum 122 with the three angles at zero; each angle is sent as
    2000 (bytes 208, 7, 0, 0) and the checksum byte is 161. *)
Lemma attitude_reply_witness :
  let z := F32.of_Z 0 in
  let p := (feed parser_init result_init z z z
              (map serial [36; 77; 60; 0; 122])).1 in
  type_ p = 122 /\
  ready_of p (serial 122) = true /\
  take 18 (r_buffer (parser_parse p (serial 122) (replicate 32 0) 0 z z z).2)
  = [36; 77; 62; 12; 122; 208; 7; 0; 0; 208; 7; 0; 0; 208; 7; 0; 0; 161].
Proof.
  intros z p.
  assert (Ht : type_ p = 122) by (vm_compute; reflexivity).
  assert (Hr : ready_of p (serial 122) = true) by (vm_compute; reflexivity).
  assert (Hl : (18 <= length (replicate 32 0))%nat) by (vm_compute; lia).
  split; [exact Ht | split; [exact Hr |]].
  rewrite (proj1 (attitude_reply p (serial 122) (replicate 32 0) 0 z z z
                    Ht Hr Hl)).
  vm_compute. reflexivity.
Defined.

(** C8, as stated, fails at [v = 2^-10]: [(v + 2) * 1000] is
    [2000.9765625], which rounds to 2001, and the code sends 2000. *)
Lemma uintval_counterexample :
  (F32.to_Q f_2pm10 == 1 # 1024)%Q /\
  spec_encoding f_2pm10 = 2001 /\
  uintval f_2pm10 = 2000 /\
  uintval f_2pm10 <> spec_encoding f_2pm10.
Proof.
  repeat split; try (vm_compute; congruence).
Qed.


(** With [ready] false a call serialises nothing, whatever the type. *)
Lemma parse_idle
    (p : parser_t) (s : stream_t) (buf : list Z) (bi : Z)
    (phi theta psi : F32.float) :
  ready_of p s = false ->
  let byte := stream_serialByte s in
  let p' := (parser_parse p s buf bi phi theta psi).1 in
  let r := (parser_parse p s buf bi phi theta psi).2 in
  buffer_size_ p' = buffer_size_ p /\
  buffer_checksum_ p' = buffer_checksum_ p /\
  r_buffer_size r = buffer_size_ p /\
  r_buffer_index r = bi /\
  r_buffer r
  = if in_payload p byte
    then <[Z.to_nat (to_uint8 (index_next p - 1)) := byte]> buf
    else buf.
Proof.
  intros Hr byte p' r. subst p' r. unfold parser_parse. cbv zeta.
  rewrite Hr.
  rewrite !prepareToSerialize_idle || unfold prepareToSerializeFloats.
  rewrite !prepareToSerialize_idle, !serializeFloat_idle, !completeSend_idle.
  fold byte.
  destruct ((if parser_state_ p =? 4 then byte else type_ p) =? 121);
    [| destruct ((if parser_state_ p =? 4 then byte else type_ p) =? 122);
       [| destruct ((if parser_state_ p =? 4 then byte else type_ p) =? 215)]];
    cbn [fst snd buffer buffer_size buffer_checksum buffer_size_
         buffer_checksum_ r_buffer r_buffer_size r_buffer_index];
    (repeat split; try reflexivity);
    destruct (in_payload p byte); reflexivity.
Qed.

(** The transition function on a byte that does not fit the frame. *)
Lemma next_state_cases (p : parser_t) (byte : Z) :
  (0 <= parser_state_ p <= 5 -> 0 <= next_state p byte <= 5) /\
  (parser_state_ p = 0 -> byte <> 36 -> next_state p byte = 0) /\
  (parser_state_ p = 1 -> byte <> 77 -> next_state p byte = 1) /\
  (parser_state_ p = 2 -> byte <> 60 -> byte <> 62 -> next_state p byte = 2) /\
  (parser_state_ p = 5 -> in_payload p byte = false -> next_state p byte = 0).
Proof.
  unfold next_state. repeat split.
  - repeat case_match; lia.
  - repeat case_match; lia.
  - intros -> Hb. apply Z.eqb_neq in Hb. now rewrite Hb.
  - intros -> Hb. apply Z.eqb_neq in Hb. now rewrite Hb.
  - intros -> H1 H2. apply Z.eqb_neq in H1, H2. now rewrite H1, H2.
  - intros -> ->. reflexivity.
Qed.

(** The states a well-formed request walks through: 1, 2, 3, 4, 5 and back
    to 0, six in all. *)
Lemma six_states :
  let z := F32.of_Z 0 in
  map (fun n => parser_state_
         (feed parser_init result_init z z z
            (map serial (take n [36; 77; 60; 0; 122; 122]))).1)
      (seq 0 7)
  = [0; 1; 2; 3; 4; 5; 0].
Proof. vm_compute. reflexivity. Qed.

(** The motor fields of message 215 are handed out on every call while the
    type is latched, before the checksum byte has arrived and also when it
    is wrong: here the frame ends in 0 where the XOR is 230. *)
Lemma motor_dispatch_unchecked :
  let z := F32.of_Z 0 in
  let out := feed parser_init result_init z z z
               (map serial [36; 77; 60; 2; 215; 1; 50; 0]) in
  crc_ out.1 = 230 /\ r_motor_index out.2 = 1 /\ r_motor_percent out.2 = 50.
Proof. vm_compute. repeat split. Qed.

(** In state 0 with the type still latched at 122, a zero byte counts as a
    complete frame and the reply is serialised again. *)
Lemma idle_zero_byte_replies :
  let z := F32.of_Z 0 in
  let p := (feed parser_init result_init z z z
              (map serial [36; 77; 60; 0; 122; 122])).1 in
  parser_state_ p = 0 /\ ready_of p (serial 0) = true.
Proof. vm_compute. repeat split. Qed.

End MspFacts.

(** * More on arming (src/board.h) *)

Section BoardTraceFacts.
Import Board BoardTrace.

Lemma attemptToArm_arms (esc aux1 : bool) (b : board) :
  isArmed (m_arming b) = false ->
  isArmed (m_arming (attemptToArm esc aux1 b)) = true ->
  readyToArm b = true /\ aux1 = true /\ esc = true.
Proof.
  intros Ha H.
  destruct (readyToArm b) eqn:Hr.
  - unfold attemptToArm in H. cbv zeta in H. rewrite Hr, Ha in H.
    destruct aux1, esc; cbn [negb] in H;
      repeat case_match; cbn in H; try congruence; auto.
  - rewrite attemptToArm_not_ready in H by assumption. congruence.
Qed.

Lemma updateFromImu_isArmed (angle gyro acc : bool) (b : board) :
  isArmed (m_arming (updateFromImu angle gyro acc b)) = isArmed (m_arming b).
Proof. reflexivity. Qed.

(** The board goes from disarmed to armed in one place only. *)
Lemma step_arms (b : board) (t : task) :
  isArmed (m_arming b) = false ->
  isArmed (m_arming (step b t)) = true ->
  readyToArm b = true /\ arms t = true.
Proof.
  intros Ha H. destruct t as [rx | angle gyro acc]; cbn [step] in H.
  - unfold updateArmingFromReceiver in H. unfold arms.
    destruct (rx_state rx) eqn:Es; try congruence.
    + destruct (updateFromReceiver_disarmed (rx_throttleIsDown rx)
                  (rx_aux1IsSet rx) (rx_hasSignal rx) b Ha) as [H0 _].
      congruence.
    + destruct (attemptToArm_arms _ _ _ Ha H) as (Hr & -> & ->).
      now split.
  - rewrite updateFromImu_isArmed in H. congruence.
Qed.

Lemma run_arms (ts : list task) (b : board) :
  isArmed (m_arming b) = false ->
  isArmed (m_arming (run b ts)) = true -> existsb arms ts = true.
Proof.
  revert b. induction ts as [| t' ts IH]; intros b Ha H.
  - cbn in H. congruence.
  - cbn [run foldl] in H. cbn [existsb].
    destruct (isArmed (m_arming (step b t'))) eqn:E.
    + destruct (step_arms b t' Ha E) as [_ ->]. reflexivity.
    + rewrite (IH (step b t') E H). apply orb_true_r.
Qed.

(** X1. A board that is not armed becomes armed only by a receiver task in
    [STATE_UPDATE] with the arm switch on and the ESC ready, and only when
    [readyToArm] holds just before it; so a run that ends armed from a
    disarmed board contains such a task. *)
Theorem arming_gate (b : board) (t : task) (ts : list task) :
  isArmed (m_arming b) = false ->
  (isArmed (m_arming (step b t)) = true ->
   readyToArm b = true /\ arms t = true) /\
  (isArmed (m_arming (run b ts)) = true -> existsb arms ts = true).
Proof.
  intros Ha. split; [now apply step_arms | now apply run_arms].
Qed.

Lemma arming_gate_witness :
  readyToArm ready_board = true /\ arms (rx_update true) = true.
Proof.
  apply (proj1 (arming_gate ready_board (rx_update true) [] eq_refl)).
  reflexivity.
Defined.

(** [attemptToArm] with the switch off. *)
Lemma attemptToArm_off (esc : bool) (b : board) :
  isArmed (m_arming (attemptToArm esc false b)) = false /\
  effects (attemptToArm esc false b)
  = (if isArmed (m_arming b) then [EscStop] else []) ++ effects b.
Proof.
  unfold attemptToArm. cbv zeta.
  destruct (isArmed (m_arming b)) eqn:Ha.
  - unfold disarm. rewrite Ha. cbn.
    destruct (doNotRepeat b); cbn; [now split |].
    destruct (readyToArm _); cbn; now split.
  - rewrite Ha. cbn [orb negb].
    destruct (negb (doNotRepeat b || negb (readyToArm b))); cbn;
      now split.
Qed.

(** X2. With the arm switch off, the receiver task in [STATE_UPDATE]
    leaves the board disarmed; the ESC is stopped once if the board was
    armed and not at all otherwise; and the board stays disarmed over every
    further run of tasks that holds no arming task. *)
Theorem switch_off_disarms (b : board) (rx : rx_view) (ts : list task) :
  rx_state rx = STATE_UPDATE -> rx_aux1IsSet rx = false ->
  existsb arms ts = false ->
  let b' := step b (TaskReceiver rx) in
  isArmed (m_arming b') = false /\
  effects b' = (if isArmed (m_arming b) then [EscStop] else []) ++ effects b /\
  isArmed (m_arming (run b' ts)) = false.
Proof.
  intros Hs Hx Hts b'.
  assert (E : b' = attemptToArm (esc_isReady rx) false b).
  { unfold b', step, updateArmingFromReceiver. now rewrite Hs, Hx. }
  destruct (attemptToArm_off (esc_isReady rx) b) as [H1 H2].
  rewrite E. split; [exact H1 | split; [exact H2 |]].
  destruct (isArmed (m_arming (run (attemptToArm (esc_isReady rx) false b) ts)))
    eqn:Hr; [| reflexivity].
  rewrite (run_arms ts _ H1 Hr) in Hts. discriminate.
Qed.

Lemma switch_off_disarms_witness :
  isArmed (m_arming (step armed_board (rx_update false))) = false /\
  effects (step armed_board (rx_update false)) = [EscStop].
Proof.
  pose proof (switch_off_disarms armed_board
    {| rx_state := STATE_UPDATE; rx_throttleIsDown := true;
       rx_aux1IsSet := false; rx_hasSignal := true; esc_isReady := true |}
    [rx_check true true true] eq_refl eq_refl eq_refl) as H.
  exact (conj (proj1 H) (proj1 (proj2 H))).
Defined.

Lemma updateFromReceiver_gotFailsafe (thr aux1 sig : bool) (b : board) :
  gotFailsafe (m_arming (updateFromReceiver thr aux1 sig b))
  = gotFailsafe (m_arming b)
    || (isArmed (m_arming b) && negb sig && haveSignal (m_arming b)).
Proof.
  destruct (isArmed (m_arming b)) eqn:Ha.
  - unfold updateFromReceiver. rewrite Ha.
    destruct sig, (haveSignal (m_arming b)); cbn;
      rewrite ?Ha; cbn; rewrite ?orb_false_r, ?orb_true_r; reflexivity.
  - destruct (updateFromReceiver_disarmed thr aux1 sig b Ha) as [_ ->].
    cbn. now rewrite orb_false_r.
Qed.

(** X3. The fail-safe flag is set by one event only: a receiver task in
    [STATE_CHECK] that reports no signal to a board that is armed and had
    signal.  In particular a signal loss on a disarmed board does not
    latch. *)
Theorem failsafe_latch_origin (b : board) (t : task) :
  gotFailsafe (m_arming b) = false ->
  (gotFailsafe (m_arming (step b t)) = true <->
   isArmed (m_arming b) = true /\ haveSignal (m_arming b) = true /\
   reports_loss t = true).
Proof.
  intros Hg. destruct t as [rx | angle gyro acc]; cbn [step reports_loss].
  - unfold updateArmingFromReceiver.
    destruct (rx_state rx) eqn:Es.
    + rewrite updateFromReceiver_gotFailsafe, Hg. cbn [orb].
      rewrite !andb_true_iff. tauto.
    + rewrite Hg. intuition congruence.
    + rewrite Hg. intuition congruence.
    + rewrite attemptToArm_gotFailsafe, Hg. intuition congruence.
  - cbn. rewrite Hg. intuition congruence.
Qed.

Lemma failsafe_latch_origin_witness :
  gotFailsafe (m_arming (step armed_board (rx_check true true false))) = true.
Proof.
  apply (proj2 (failsafe_latch_origin armed_board
                  (rx_check true true false) eq_refl)).
  repeat split.
Defined.

(** What a task adds to the effects. *)
Lemma attemptToArm_effects (esc aux1 : bool) (b : board) :
  exists es,
    effects (attemptToArm esc aux1 b) = es ++ effects b /\
    (es = [] \/ es = [EscStop]) /\
    (es = [EscStop] <->
     isArmed (m_arming b) = true
     /\ isArmed (m_arming (attemptToArm esc aux1 b)) = false).
Proof.
  destruct aux1.
  - exists []. split; [| split; [now left |]].
    + unfold attemptToArm. cbv zeta.
      repeat case_match; reflexivity.
    + split; [discriminate |]. intros [Ha Hd].
      unfold attemptToArm in Hd. cbv zeta in Hd. rewrite Ha in Hd.
      destruct (readyToArm b) eqn:Hr.
      * congruence.
      * cbn in Hd. rewrite Ha in Hd. cbn in Hd. congruence.
  - destruct (attemptToArm_off esc b) as [H1 H2].
    exists (if isArmed (m_arming b) then [EscStop] else []).
    split; [exact H2 |]. rewrite H1.
    destruct (isArmed (m_arming b)); split; auto; intuition congruence.
Qed.

Lemma updateFromReceiver_effects (thr aux1 sig : bool) (b : board) :
  exists es,
    effects (updateFromReceiver thr aux1 sig b) = es ++ effects b /\
    (length (List.filter is_stop es) <= 1)%nat /\
    (existsb is_stop es = true <->
     isArmed (m_arming b) = true
     /\ isArmed (m_arming (updateFromReceiver thr aux1 sig b)) = false).
Proof.
  unfold updateFromReceiver. cbv zeta.
  destruct (isArmed (m_arming b)) eqn:Ha.
  - destruct (negb sig && haveSignal (m_arming b)).
    + exists [EscStop]. unfold disarm. cbn. rewrite Ha. cbn.
      split; [reflexivity |]. split; [lia |]. tauto.
    + exists [LedSet true]. cbn. rewrite Ha.
      split; [reflexivity |]. split; [lia |]. intuition congruence.
  - set (b2 := with_arming (set_throttleIsDown thr) b).
    set (b3 := if negb (readyToArm b2) && aux1
               then with_arming (set_switchOkay false) b2
               else if negb aux1
                    then with_arming (set_switchOkay true) b2 else b2).
    assert (E3 : effects b3 = effects b)
      by (unfold b3; repeat case_match; reflexivity).
    assert (A3 : isArmed (m_arming b3) = false)
      by (unfold b3; repeat case_match; cbn; assumption).
    destruct (negb (readyToArm b3)).
    + exists [LedWarningUpdate; WarningBlink]. cbn. rewrite E3, A3.
      split; [reflexivity |]. split; [lia |]. intuition congruence.
    + exists [LedWarningUpdate; WarningDisable]. cbn. rewrite E3, A3.
      split; [reflexivity |]. split; [lia |]. intuition congruence.
Qed.

(** X4. A task stops the ESC at most once, and it does so exactly when it
    takes the board from armed to disarmed: the ESC is never stopped while
    the board stays armed, and no disarming goes without the stop. *)
Theorem esc_stop_iff_disarm (b : board) (t : task) :
  exists es,
    effects (step b t) = es ++ effects b /\
    (length (List.filter is_stop es) <= 1)%nat /\
    (existsb is_stop es = true <->
     isArmed (m_arming b) = true /\ isArmed (m_arming (step b t)) = false).
Proof.
  destruct t as [rx | angle gyro acc]; cbn [step].
  - unfold updateArmingFromReceiver. destruct (rx_state rx).
    + apply updateFromReceiver_effects.
    + exists []. cbn. split; [reflexivity |]. split; [lia |].
      intuition congruence.
    + exists []. cbn. split; [reflexivity |]. split; [lia |].
      intuition congruence.
    + destruct (attemptToArm_effects (esc_isReady rx) (rx_aux1IsSet rx) b)
        as (es & He & Hes & Hiff).
      exists es. split; [exact He |].
      destruct Hes as [-> | ->]; cbn.
      * split; [lia |]. split; [discriminate |].
        intros H. apply Hiff in H. discriminate.
      * split; [lia |]. split; [intros _; now apply Hiff | reflexivity].
  - exists []. cbn. split; [reflexivity |]. split; [lia |].
    intuition congruence.
Qed.

End BoardTraceFacts.

(** * More on the serial protocol (src/parser.hpp) *)

Section MspIoFacts.
Import Msp MspIo.

(** A call that serialises nothing, in full. *)
Lemma parse_quiet
    (p : parser_t) (s : stream_t) (buf : list Z) (bi : Z)
    (phi theta psi : F32.float) :
  ready_of p s = false ->
  let byte := stream_serialByte s in
  let type1 := if parser_state_ p =? 4 then byte else type_ p in
  parser_parse p s buf bi phi theta psi
  = (advance p byte,
     {| r_buffer := stored p byte buf;
        r_buffer_size := buffer_size_ p;
        r_buffer_index := bi;
        r_motor_index :=
          if type1 =? 215 then default 0 (stored p byte buf !! 0%nat) else 0;
        r_motor_percent :=
          if type1 =? 215 then default 0 (stored p byte buf !! 1%nat)
          else 0 |}).
Proof.
  intros Hr byte type1. unfold parser_parse, advance, stored. cbv zeta.
  rewrite Hr. fold byte. fold type1.
  unfold prepareToSerializeFloats.
  rewrite !prepareToSerialize_idle, !serializeFloat_idle, !completeSend_idle.
  destruct (in_payload p byte);
  destruct (type1 =? 121) eqn:E1.
  all: try (apply Z.eqb_eq in E1; rewrite E1; reflexivity).
  all: destruct (type1 =? 122) eqn:E2.
  all: try (apply Z.eqb_eq in E2; rewrite E2; reflexivity).
  all: destruct (type1 =? 215); reflexivity.
Qed.

Lemma in_payload_header (p : parser_t) (byte : Z) :
  parser_state_ p <> 5 -> in_payload p byte = false.
Proof.
  intros H. unfold in_payload.
  apply Z.eqb_neq in H. rewrite H. now rewrite andb_false_r.
Qed.

(** The header bytes, one state each. *)
Lemma advance_header (p : parser_t) (byte : Z) (st : Z) :
  parser_state_ p = st ->
  (st = 0 /\ byte = 36) \/ (st = 1 /\ byte = 77)
  \/ (st = 2 /\ (byte = 60 \/ byte = 62)) \/ st = 3 \/ st = 4 ->
  advance p byte
  = {| parser_state_ := st + 1;
       type_ := if st =? 4 then byte else type_ p;
       crc_ := if st =? 3 then byte
               else if st =? 4 then Z.lxor (crc_ p) byte else 0;
       size_ := if st =? 3 then byte else size_ p;
       index_ := 0;
       buffer_size_ := buffer_size_ p;
       buffer_checksum_ := buffer_checksum_ p |} /\
  forall s, stream_serialByte s = byte -> ready_of p s = false.
Proof.
  intros Hs Hc.
  assert (Hin : in_payload p byte = false)
    by (apply in_payload_header; lia).
  assert (Hn : next_state p byte = st + 1).
  { unfold next_state. rewrite Hin, Hs.
    destruct Hc as [[-> ->] | [[-> ->] | [[-> [-> | ->]] | [-> | ->]]]];
      reflexivity. }
  split.
  - unfold advance. rewrite Hn. unfold crc_next, size_next, index_next.
    rewrite Hin, Hs.
    destruct Hc as [[-> ->] | [[-> ->] | [[-> [-> | ->]] | [-> | ->]]]];
      reflexivity.
  - intros s <-. unfold ready_of. rewrite Hn.
    replace (st + 1 =? 0) with false by (symmetry; apply Z.eqb_neq; lia).
    now rewrite andb_false_r.
Qed.

(** The first five bytes of a request with no payload, from state 0. *)
Lemma header_fed
    (p : parser_t) (r : result_t) (phi theta psi : F32.float)
    (dir n t : Z) :
  parser_state_ p = 0 -> dir = 60 \/ dir = 62 ->
  feed p r phi theta psi (map serial [36; 77; dir; n; t])
  = ({| parser_state_ := 5; type_ := t; crc_ := Z.lxor n t; size_ := n;
        index_ := 0; buffer_size_ := buffer_size_ p;
        buffer_checksum_ := buffer_checksum_ p |},
     {| r_buffer := r_buffer r; r_buffer_size := buffer_size_ p;
        r_buffer_index := r_buffer_index r;
        r_motor_index := if t =? 215 then default 0 (r_buffer r !! 0%nat)
                         else 0;
        r_motor_percent := if t =? 215 then default 0 (r_buffer r !! 1%nat)
                           else 0 |}).
Proof.
  intros Hs Hd. cbn [map feed].
  destruct (advance_header p 36 0 Hs) as [E0 R0]; [tauto |].
  rewrite parse_quiet by (now apply R0).
  cbn [r_buffer r_buffer_index stream_serialByte serial].
  rewrite E0. unfold stored at 1. rewrite in_payload_header by lia.
  set (p1 := {| parser_state_ := 0 + 1 |}).
  destruct (advance_header p1 77 1 eq_refl) as [E1 R1]; [tauto |].
  rewrite parse_quiet by (now apply R1).
  cbn [r_buffer r_buffer_index stream_serialByte serial].
  rewrite E1. unfold stored at 1. rewrite in_payload_header by (cbn; lia).
  set (p2 := {| parser_state_ := 1 + 1 |}).
  destruct (advance_header p2 dir 2 eq_refl) as [E2 R2]; [tauto |].
  rewrite parse_quiet by (now apply R2).
  cbn [r_buffer r_buffer_index stream_serialByte serial].
  rewrite E2. unfold stored at 1. rewrite in_payload_header by (cbn; lia).
  set (p3 := {| parser_state_ := 2 + 1 |}).
  destruct (advance_header p3 n 3 eq_refl) as [E3 R3]; [tauto |].
  rewrite parse_quiet by (now apply R3).
  cbn [r_buffer r_buffer_index stream_serialByte serial].
  rewrite E3. unfold stored at 1. rewrite in_payload_header by (cbn; lia).
  set (p4 := {| parser_state_ := 3 + 1 |}).
  destruct (advance_header p4 t 4 eq_refl) as [E4 R4]; [tauto |].
  rewrite parse_quiet by (now apply R4).
  cbn [r_buffer r_buffer_index stream_serialByte serial].
  rewrite E4. unfold stored. rewrite in_payload_header by (cbn; lia).
  reflexivity.
Qed.

Lemma xor_all_snoc (l : list Z) (x : Z) :
  xor_all (l ++ [x]) = Z.lxor (xor_all l) x.
Proof. unfold xor_all. now rewrite foldl_app. Qed.

Lemma xor_all_closed (l : list Z) : xor_all (l ++ [xor_all l]) = 0.
Proof. rewrite xor_all_snoc. apply Z.lxor_nilpotent. Qed.

(** A call that completes a frame with the type latched at 121 or 122:
    the whole reply is in the buffer. *)
Lemma ready_reply
    (p : parser_t) (s : stream_t) (buf : list Z) (bi : Z)
    (phi theta psi : F32.float) :
  ready_of p s = true -> type_ p = 121 \/ type_ p = 122 ->
  let payload := reply_payload (type_ p) s phi theta psi in
  (5 + length payload < length buf)%nat ->
  let out := parser_parse p s buf bi phi theta psi in
  written {| buffer := r_buffer out.2; buffer_size := r_buffer_size out.2;
             buffer_checksum := buffer_checksum_ out.1 |}
          (reply (type_ p) payload) /\
  buffer_checksum_ out.1 = 0 /\
  buffer_size_ out.1 = r_buffer_size out.2 /\
  r_buffer_index out.2 = 0 /\
  type_ out.1 = type_ p /\ parser_state_ out.1 = 0.
Proof.
  intros Hr Ht payload Hl out.
  assert (Hs := ready_state p s Hr).
  assert (Hin : in_payload p (stream_serialByte s) = false).
  { unfold in_payload. destruct Ht as [-> | ->]; reflexivity. }
  assert (Hn : next_state p (stream_serialByte s) = 0).
  { unfold ready_of in Hr. apply andb_true_iff in Hr as [Hr _].
    apply andb_true_iff in Hr as [_ Hr]. now apply Z.eqb_eq in Hr. }
  set (o0 := {| buffer := buf; buffer_size := buffer_size_ p;
                buffer_checksum := buffer_checksum_ p |}).
  assert (Hparse :
    out = ({| parser_state_ := 0; type_ := type_ p;
              crc_ := crc_next p (stream_serialByte s);
              size_ := size_next p (stream_serialByte s);
              index_ := index_next p;
              buffer_size_ :=
                buffer_size
                  (completeSend
                     (serialize_all
                        (prepareToSerializeFloats o0 true (type_ p)
                           (if type_ p =? 121 then 6 else 3)) payload) true);
              buffer_checksum_ :=
                buffer_checksum
                  (completeSend
                     (serialize_all
                        (prepareToSerializeFloats o0 true (type_ p)
                           (if type_ p =? 121 then 6 else 3)) payload) true)
           |},
           {| r_buffer :=
                buffer
                  (completeSend
                     (serialize_all
                        (prepareToSerializeFloats o0 true (type_ p)
                           (if type_ p =? 121 then 6 else 3)) payload) true);
              r_buffer_size :=
                buffer_size
                  (completeSend
                     (serialize_all
                        (prepareToSerializeFloats o0 true (type_ p)
                           (if type_ p =? 121 then 6 else 3)) payload) true);
              r_buffer_index := 0; r_motor_index := 0;
              r_motor_percent := 0 |})).
  { subst out payload. unfold parser_parse, reply_payload. cbv zeta.
    rewrite Hs, Hin, Hr, Hn. fold o0.
    destruct Ht as [Ht | Ht]; rewrite Ht.
    - change (121 =? 121) with true. cbv iota beta.
      rewrite !serializeFloat_all, !serialize_all_app. reflexivity.
    - change (122 =? 121) with false. change (122 =? 122) with true.
      cbv iota beta.
      rewrite !serializeFloat_all, !serialize_all_app. reflexivity. }
  assert (Hlen : Z.of_nat (length payload)
                 = to_uint8 ((if type_ p =? 121 then 6 else 3) * 4)).
  { subst payload. unfold reply_payload.
    destruct Ht as [-> | ->]; reflexivity. }
  assert (Hlt : (5 + length payload < 255)%nat).
  { destruct Ht as [Ht | Ht]; rewrite Ht in Hlen;
      [change (Z.of_nat (length payload) = 24) in Hlen
      | change (Z.of_nat (length payload) = 12) in Hlen]; lia. }
  destruct (reply_written o0 (type_ p) (if type_ p =? 121 then 6 else 3)
              payload Hl Hlt) as [Hw Hc].
  rewrite <- Hlen in Hw. fold (reply (type_ p) payload) in Hw.
  clearbody out payload o0. subst out.
  cbn [fst snd r_buffer r_buffer_size r_buffer_index buffer_checksum_
       buffer_size_ type_ parser_state_].
  split; [| split; [exact Hc | repeat split]].
  destruct Hw as [Hsz Htk]. split; [exact Hsz | exact Htk].
Qed.

(** X5. When a frame completes with the type latched at 121, the out
    buffer holds the thirty bytes of the receiver reply: the header [$M>],
    the length 24, the type 121, the little-endian bytes of the six
    channel values (throttle, roll, pitch, yaw, aux1, aux2, each encoded
    like an attitude angle) and the XOR of length, type and payload; the
    reported size is 30 and the read index is 0. *)
Theorem receiver_reply
    (p : parser_t) (s : stream_t) (buf : list Z) (bi : Z)
    (phi theta psi : F32.float) :
  type_ p = 121 ->
  ready_of p s = true ->
  (30 <= length buf)%nat ->
  let r := (parser_parse p s buf bi phi theta psi).2 in
  let payload :=
    le32 (uintval (stream_receiverThrottle s))
    ++ le32 (uintval (stream_receiverRoll s))
    ++ le32 (uintval (stream_receiverPitch s))
    ++ le32 (uintval (stream_receiverYaw s))
    ++ le32 (uintval (stream_receiverAux1 s))
    ++ le32 (uintval (stream_receiverAux2 s)) in
  take 30 (r_buffer r)
    = [36; 77; 62; 24; 121] ++ payload ++ [xor_all (24 :: 121 :: payload)] /\
  r_buffer_size r = 30 /\
  r_buffer_index r = 0.
Proof.
  intros Ht Hr Hl r payload.
  destruct (ready_reply p s buf bi phi theta psi Hr (or_introl Ht))
    as ([Hsz Htk] & _ & _ & Hi & _).
  { rewrite Ht. cbn. lia. }
  rewrite Ht in Hsz, Htk. cbn [buffer buffer_size] in Hsz, Htk.
  split; [exact Htk | split; [exact Hsz | exact Hi]].
Qed.

Lemma receiver_reply_witness :
  let z := F32.of_Z 0 in
  let p := (feed parser_init result_init z z z
              (map serial [36; 77; 60; 0; 121])).1 in
  r_buffer_size (parser_parse p (serial 121) (replicate 32 0) 0 z z z).2
  = 30.
Proof.
  intros z p.
  assert (Ht : type_ p = 121) by (vm_compute; reflexivity).
  assert (Hr : ready_of p (serial 121) = true) by (vm_compute; reflexivity).
  assert (Hl : (30 <= length (replicate 32 0))%nat) by (vm_compute; lia).
  exact (proj1 (proj2 (receiver_reply p (serial 121) (replicate 32 0) 0
                         z z z Ht Hr Hl))).
Defined.

(** X6. Every reply passes the check a receiver of the frame makes: for
    type 121 as for type 122 the XOR of all bytes after the three header
    bytes, checksum included, is 0, the size reported is 6 plus the
    payload length, and the running checksum kept between calls is back
    at 0. *)
Theorem reply_checksum
    (p : parser_t) (s : stream_t) (buf : list Z) (bi : Z)
    (phi theta psi : F32.float) :
  ready_of p s = true ->
  type_ p = 121 \/ type_ p = 122 ->
  (30 <= length buf)%nat ->
  let out := parser_parse p s buf bi phi theta psi in
  let n := Z.to_nat (r_buffer_size out.2) in
  xor_all (drop 3 (take n (r_buffer out.2))) = 0 /\
  r_buffer_size out.2 = (if type_ p =? 121 then 30 else 18) /\
  buffer_checksum_ out.1 = 0.
Proof.
  intros Hr Ht Hl out n.
  destruct (ready_reply p s buf bi phi theta psi Hr Ht)
    as ([Hsz Htk] & Hc & _).
  { destruct Ht as [-> | ->]; cbn; lia. }
  cbn [buffer buffer_size] in Hsz, Htk. fold out in Hsz, Htk, Hc.
  split; [| split; [| exact Hc]].
  - unfold n. rewrite Hsz, Nat2Z.id, Htk. unfold reply.
    cbn [app drop].
    exact (xor_all_closed
             (Z.of_nat (length (reply_payload (type_ p) s phi theta psi))
              :: type_ p :: reply_payload (type_ p) s phi theta psi)).
  - rewrite Hsz. destruct Ht as [-> | ->]; reflexivity.
Qed.

Lemma reply_checksum_witness :
  let z := F32.of_Z 0 in
  let p := (feed parser_init result_init z z z
              (map serial [36; 77; 60; 0; 122])).1 in
  buffer_checksum_ (parser_parse p (serial 122) (replicate 32 0) 0 z z z).1
  = 0.
Proof.
  intros z p.
  assert (Ht : type_ p = 121 \/ type_ p = 122)
    by (right; vm_compute; reflexivity).
  assert (Hr : ready_of p (serial 122) = true) by (vm_compute; reflexivity).
  assert (Hl : (30 <= length (replicate 32 0))%nat) by (vm_compute; lia).
  exact (proj2 (proj2 (reply_checksum p (serial 122) (replicate 32 0) 0
                         z z z Hr Ht Hl))).
Defined.

(** Reading forward in a buffer. *)
Lemma read_n_spec (n : nat) : forall (buf : list Z) (size idx : Z),
  0 <= idx -> idx + Z.of_nat n <= 255 ->
  (Z.to_nat idx + n <= length buf)%nat ->
  Z.of_nat n <= size <= 255 ->
  read_n n buf size idx
  = (Some <$> take n (drop (Z.to_nat idx) buf),
     size - Z.of_nat n, idx + Z.of_nat n).
Proof.
  induction n as [| n IH]; intros buf size idx Hi Hn Hl Hs.
  - cbn. f_equal; [f_equal |]; lia.
  - cbn [read_n]. unfold parser_read.
    destruct (lookup_lt_is_Some_2 buf (Z.to_nat idx)) as [x Hx]; [lia |].
    rewrite !to_uint8_small by lia.
    rewrite IH by lia.
    rewrite (drop_S _ _ _ Hx). cbn [take fmap list_fmap].
    rewrite Hx. replace (Z.to_nat (idx + 1)) with (S (Z.to_nat idx)) by lia.
    f_equal; [f_equal |]; lia.
Qed.

(** X7. After a call that completes a frame of type 121 or 122, as many
    [parser_read] calls as the reported size hand out the reply byte by
    byte, in order, and leave the size at 0; one more call wraps the size
    to 255, since [parser_read] does not look at it. *)
Theorem reply_drained
    (p : parser_t) (s : stream_t) (buf : list Z) (bi : Z)
    (phi theta psi : F32.float) :
  ready_of p s = true ->
  type_ p = 121 \/ type_ p = 122 ->
  (30 <= length buf)%nat ->
  let r := (parser_parse p s buf bi phi theta psi).2 in
  let n := Z.to_nat (r_buffer_size r) in
  read_n n (r_buffer r) (r_buffer_size r) (r_buffer_index r)
  = (Some <$> reply (type_ p) (reply_payload (type_ p) s phi theta psi),
     0, Z.of_nat n) /\
  snd (fst (parser_read (r_buffer r) 0 (Z.of_nat n))) = 255.
Proof.
  intros Hr Ht Hl r n.
  destruct (ready_reply p s buf bi phi theta psi Hr Ht)
    as ([Hsz Htk] & _ & _ & Hi & _).
  { destruct Ht as [-> | ->]; cbn; lia. }
  cbn [buffer buffer_size] in Hsz, Htk. fold r in Hsz, Htk, Hi.
  split; [| reflexivity].
  set (payload := reply_payload (type_ p) s phi theta psi) in *.
  assert (Hlen : length (reply (type_ p) payload) = n).
  { unfold n. rewrite Hsz. now rewrite Nat2Z.id. }
  assert (Hn : (n = 30 \/ n = 18)%nat).
  { rewrite <- Hlen. unfold payload, reply, reply_payload.
    destruct Ht as [-> | ->]; [left | right]; reflexivity. }
  assert (Hbuf : (n <= length (r_buffer r))%nat).
  { rewrite <- Hlen, <- Htk, length_take. rewrite Hlen.
    destruct (Nat.le_gt_cases n (length (r_buffer r))) as [| Hgt];
      [lia |].
    rewrite <- Htk, length_take in Hlen. lia. }
  assert (Htn : take n (r_buffer r) = reply (type_ p) payload)
    by (rewrite <- Hlen; exact Htk).
  rewrite Hi, read_n_spec by lia.
  change (Z.to_nat 0) with 0%nat. rewrite drop_0, Htn.
  rewrite Z.add_0_l. f_equal. f_equal. unfold n. lia.
Qed.

Lemma reply_drained_witness :
  let z := F32.of_Z 0 in
  let p := (feed parser_init result_init z z z
              (map serial [36; 77; 60; 0; 122])).1 in
  let r := (parser_parse p (serial 122) (replicate 32 0) 0 z z z).2 in
  snd (fst (parser_read (r_buffer r) 0
              (Z.of_nat (Z.to_nat (r_buffer_size r))))) = 255.
Proof.
  intros z p r.
  assert (Ht : type_ p = 121 \/ type_ p = 122)
    by (right; vm_compute; reflexivity).
  assert (Hr : ready_of p (serial 122) = true) by (vm_compute; reflexivity).
  assert (Hl : (30 <= length (replicate 32 0))%nat) by (vm_compute; lia).
  exact (proj2 (reply_drained p (serial 122) (replicate 32 0) 0
                  z z z Hr Ht Hl)).
Defined.

Lemma feed_app
    (l1 l2 : list stream_t) (p : parser_t) (r : result_t)
    (phi theta psi : F32.float) :
  feed p r phi theta psi (l1 ++ l2)
  = feed (feed p r phi theta psi l1).1 (feed p r phi theta psi l1).2
         phi theta psi l2.
Proof.
  revert p r. induction l1 as [| s l1 IH]; intros p r; [reflexivity |].
  cbn [app feed].
  destruct (parser_parse p s (r_buffer r) (r_buffer_index r) phi theta psi)
    as [p1 r1].
  apply IH.
Qed.

(** X8. A request for the attitude or the receiver channels is answered
    from any idle parser: after the six bytes [$ M <] (or [>]), length 0,
    type (121 or 122) and the checksum (equal to the type), the buffer
    holds the whole reply from its first cell, the size is that of the
    reply, the read index is 0 and the parser is idle again, whatever was
    parsed before. *)
Theorem request_answered
    (p : parser_t) (r : result_t) (phi theta psi : F32.float)
    (dir t : Z) (s : stream_t) :
  parser_state_ p = 0 ->
  dir = 60 \/ dir = 62 ->
  t = 121 \/ t = 122 ->
  stream_serialByte s = t -> stream_serialAvailable s = true ->
  (30 <= length (r_buffer r))%nat ->
  let out := feed p r phi theta psi (map serial [36; 77; dir; 0; t] ++ [s]) in
  let answer := reply t (reply_payload t s phi theta psi) in
  take (length answer) (r_buffer out.2) = answer /\
  r_buffer_size out.2 = Z.of_nat (length answer) /\
  r_buffer_index out.2 = 0 /\
  parser_state_ out.1 = 0.
Proof.
  intros Hs Hd Ht Hb Ha Hl out answer.
  subst out. rewrite feed_app, (header_fed p r phi theta psi dir 0 t Hs Hd).
  cbn [fst snd feed r_buffer r_buffer_index].
  set (p5 := {| parser_state_ := 5 |}).
  assert (Hr : ready_of p5 s = true).
  { unfold ready_of, next_state, crc_next, in_payload. rewrite Ha, Hb.
    unfold p5. cbn [parser_state_ type_ crc_].
    destruct Ht as [-> | ->]; reflexivity. }
  destruct (parser_parse p5 s (r_buffer r) (r_buffer_index r) phi theta psi)
    as [p6 r6] eqn:E.
  destruct (ready_reply p5 s (r_buffer r) (r_buffer_index r) phi theta psi
              Hr Ht) as ([Hsz Htk] & _ & _ & Hi & _ & Hst).
  { unfold p5. cbn [type_]. unfold reply_payload.
    destruct Ht as [-> | ->]; cbn; lia. }
  rewrite E in Hsz, Htk, Hi, Hst.
  cbn [fst snd buffer buffer_size type_ p5] in Hsz, Htk, Hi, Hst.
  cbn [fst snd]. repeat split; assumption.
Qed.

Lemma request_answered_witness :
  let z := F32.of_Z 0 in
  let out := feed parser_init result_init z z z
               (map serial [36; 77; 60; 0; 122] ++ [serial 122]) in
  r_buffer_size out.2 = 18 /\ parser_state_ out.1 = 0.
Proof.
  intros z out.
  pose proof (request_answered parser_init result_init z z z 60 122
    (serial 122) eq_refl (or_introl eq_refl) (or_intror eq_refl)
    eq_refl eq_refl) as H.
  assert (Hl : (30 <= length (r_buffer result_init))%nat)
    by (vm_compute; lia).
  exact (conj (proj1 (proj2 (H Hl))) (proj2 (proj2 (proj2 (H Hl))))).
Defined.

(** A call whose type is neither 121 nor 122 serialises nothing, complete
    frame or not; a complete frame still resets the read index. *)
Lemma parse_other
    (p : parser_t) (s : stream_t) (buf : list Z) (bi : Z)
    (phi theta psi : F32.float) :
  let byte := stream_serialByte s in
  let type1 := if parser_state_ p =? 4 then byte else type_ p in
  type1 <> 121 -> type1 <> 122 ->
  parser_parse p s buf bi phi theta psi
  = (advance p byte,
     {| r_buffer := stored p byte buf;
        r_buffer_size := buffer_size_ p;
        r_buffer_index := if ready_of p s then 0 else bi;
        r_motor_index :=
          if type1 =? 215 then default 0 (stored p byte buf !! 0%nat) else 0;
        r_motor_percent :=
          if type1 =? 215 then default 0 (stored p byte buf !! 1%nat)
          else 0 |}).
Proof.
  intros byte type1 H1 H2. unfold parser_parse, advance, stored. cbv zeta.
  fold byte. fold type1.
  apply Z.eqb_neq in H1, H2. rewrite H1, H2.
  destruct (in_payload p byte); destruct (type1 =? 215); reflexivity.
Qed.

(** The payload bytes of an inbound frame, one call each. *)
Lemma payload_fed (phi theta psi : F32.float) (bs : list Z) :
  forall (p : parser_t) (r : result_t) (k : nat),
  parser_state_ p = 5 -> 200 <= type_ p -> index_ p = Z.of_nat k ->
  Z.of_nat (k + length bs) <= size_ p <= 254 ->
  (k + length bs <= length (r_buffer r))%nat ->
  let out := feed p r phi theta psi (map serial bs) in
  parser_state_ out.1 = 5 /\ type_ out.1 = type_ p /\
  size_ out.1 = size_ p /\ index_ out.1 = Z.of_nat (k + length bs) /\
  crc_ out.1 = foldl Z.lxor (crc_ p) bs /\
  buffer_size_ out.1 = buffer_size_ p /\
  r_buffer out.2
  = take k (r_buffer r) ++ bs ++ drop (k + length bs) (r_buffer r) /\
  r_buffer_index out.2 = r_buffer_index r.
Proof.
  induction bs as [| b bs IH]; intros p r k Hs Ht Hi Hn Hl out.
  - subst out. cbn [map feed fst snd length foldl app].
    rewrite Nat.add_0_r, take_drop. repeat split; try assumption.
  - subst out. cbn [map feed]. cbn [length] in Hn, Hl.
    assert (Hin : in_payload p b = true).
    { unfold in_payload, index_next, size_next. rewrite Hs, Hi.
      change (5 =? 5) with true. change (5 =? 3) with false. cbv iota.
      rewrite to_uint8_small by lia.
      rewrite andb_true_r. apply andb_true_iff. split; apply Z.leb_le; lia. }
    assert (Hr : ready_of p (serial b) = false).
    { unfold ready_of, next_state. cbn [stream_serialByte serial].
      rewrite Hin, Hs. reflexivity. }
    rewrite parse_quiet by assumption.
    cbn [stream_serialByte serial r_buffer r_buffer_index].
    set (p1 := advance p b).
    set (r1 := {| r_buffer := stored p b (r_buffer r) |}).
    assert (Hst : stored p b (r_buffer r) = <[k := b]> (r_buffer r)).
    { unfold stored, index_next. rewrite Hin, Hs, Hi.
      change (5 =? 5) with true. cbv iota.
      rewrite (to_uint8_small (Z.of_nat k + 1)) by lia.
      rewrite to_uint8_small by lia. f_equal. lia. }
    assert (Hs1 : parser_state_ p1 = 5).
    { unfold p1, advance, next_state. cbn [parser_state_].
      rewrite Hin, Hs. reflexivity. }
    assert (Ht1 : type_ p1 = type_ p).
    { unfold p1, advance. cbn [type_]. now rewrite Hs. }
    assert (Hz1 : size_ p1 = size_ p).
    { unfold p1, advance, size_next. cbn [size_]. now rewrite Hs. }
    assert (Hi1 : index_ p1 = Z.of_nat (S k)).
    { unfold p1, advance, index_next. cbn [index_]. rewrite Hs, Hi.
      change (5 =? 5) with true. cbv iota.
      rewrite to_uint8_small by lia. lia. }
    assert (Hc1 : crc_ p1 = Z.lxor (crc_ p) b).
    { unfold p1, advance, crc_next. cbn [crc_]. rewrite Hin, Hs.
      reflexivity. }
    destruct (IH p1 r1 (S k)) as (A1 & A2 & A3 & A4 & A5 & A6 & A7 & A8);
      try assumption.
    { rewrite Ht1. assumption. }
    { rewrite Hz1. lia. }
    { unfold r1. cbn [r_buffer]. rewrite Hst, length_insert. lia. }
    rewrite A1, A2, A3, A4, A5, A6, A7, A8, Ht1, Hz1, Hc1.
    unfold r1. cbn [r_buffer r_buffer_index foldl]. rewrite Hst.
    repeat split; try reflexivity; try (f_equal; lia).
    + cbn [length]. f_equal. lia.
    + rewrite (take_S_r _ _ b) by (apply list_lookup_insert_eq; lia).
      rewrite take_insert_ge by lia.
      rewrite drop_insert_lt by lia.
      rewrite <- app_assoc. cbn [app length].
      replace (k + S (length bs))%nat with (S k + length bs)%nat by lia.
      reflexivity.
Qed.

(** X9. An inbound frame (type 200 and above) of up to 254 payload bytes,
    fed to an idle parser: the payload lands in the shared buffer from
    cell 0 on, in order, the cells behind it are untouched, no reply is
    serialised and the parser is idle again after the checksum byte; the
    read index is reset exactly when the checksum byte equals the XOR of
    length, type and payload.  For type 215 the motor index and percent
    handed out are the first two cells. *)
Theorem payload_stored
    (p : parser_t) (r : result_t) (phi theta psi : F32.float)
    (dir t c : Z) (payload : list Z) :
  parser_state_ p = 0 ->
  dir = 60 \/ dir = 62 ->
  200 <= t ->
  (length payload <= 254)%nat ->
  (length payload <= length (r_buffer r))%nat ->
  let n := Z.of_nat (length payload) in
  let out := feed p r phi theta psi
               (map serial (request dir n t payload ++ [c])) in
  let cells := payload ++ drop (length payload) (r_buffer r) in
  r_buffer out.2 = cells /\
  parser_state_ out.1 = 0 /\
  r_buffer_size out.2 = buffer_size_ p /\
  buffer_size_ out.1 = buffer_size_ p /\
  r_buffer_index out.2
  = (if xor_all (n :: t :: payload) =? c then 0 else r_buffer_index r) /\
  (t = 215 ->
   r_motor_index out.2 = default 0 (cells !! 0%nat) /\
   r_motor_percent out.2 = default 0 (cells !! 1%nat)).
Proof.
  intros Hs Hd Ht Hn Hl n out cells.
  subst out. unfold request.
  rewrite !map_app, <- app_assoc, feed_app.
  change (map serial [36; 77; dir; n; t])
    with (map serial [36; 77; dir; n; t]).
  rewrite (header_fed p r phi theta psi dir n t Hs Hd).
  cbn [fst snd]. rewrite feed_app.
  set (p5 := {| parser_state_ := 5 |}).
  set (r5 := {| r_buffer := r_buffer r |}).
  destruct (payload_fed phi theta psi payload p5 r5 0)
    as (A1 & A2 & A3 & A4 & A5 & A6 & A7 & A8);
    try reflexivity; try (cbn; lia).
  cbn [p5 r5 type_ size_ crc_ buffer_size_ r_buffer r_buffer_index
       take app Nat.add] in A2, A3, A4, A5, A6, A7, A8.
  destruct (feed p5 r5 phi theta psi (map serial payload)) as [pn rn].
  cbn [fst snd] in *. cbn [map feed].
  assert (Hin : in_payload pn c = false).
  { unfold in_payload, index_next, size_next. rewrite A1, A3, A4.
    change (5 =? 5) with true. change (5 =? 3) with false. cbv iota.
    rewrite to_uint8_small by lia.
    replace (Z.of_nat (length payload) + 1 <=? n) with false
      by (symmetry; apply Z.leb_gt; lia).
    apply andb_false_r. }
  rewrite parse_other
    by (cbn [stream_serialByte serial]; rewrite A1; cbn; lia).
  unfold advance.
  cbn [fst snd r_buffer r_buffer_size r_buffer_index r_motor_index
       r_motor_percent stream_serialByte serial parser_state_
       buffer_size_].
  unfold stored. rewrite Hin, A1, A2, A6, A7, A8.
  change (5 =? 4) with false. cbv iota.
  fold cells.
  assert (Hnext : next_state pn c = 0).
  { unfold next_state. rewrite Hin, A1. reflexivity. }
  assert (Hcrc : crc_next pn c = xor_all (n :: t :: payload)).
  { unfold crc_next. rewrite Hin, A1, A5.
    change (5 =? 3) with false. change (5 =? 4) with false.
    change (5 =? 5) with true. cbv iota.
    unfold xor_all. cbn [foldl]. now rewrite Z.lxor_0_l. }
  split; [reflexivity |]. split; [exact Hnext |].
  split; [reflexivity |]. split; [reflexivity |]. split.
  - unfold ready_of. cbn [stream_serialAvailable stream_serialByte serial].
    rewrite Hnext, Hcrc. reflexivity.
  - intros ->. split; reflexivity.
Qed.

Lemma payload_stored_witness :
  let z := F32.of_Z 0 in
  let out := feed parser_init result_init z z z
               (map serial (request 60 2 215 [1; 50] ++ [0])) in
  r_motor_index out.2 = 1 /\ r_motor_percent out.2 = 50.
Proof.
  intros z out.
  assert (Hl : (length [1; 50] <= length (r_buffer result_init))%nat)
    by (vm_compute; lia).
  assert (Hn : (length [1; 50] <= 254)%nat) by (vm_compute; lia).
  assert (Ht : 200 <= 215) by lia.
  exact (proj2 (proj2 (proj2 (proj2 (proj2
           (payload_stored parser_init result_init z z z 60 215 0 [1; 50]
              eq_refl (or_introl eq_refl) Ht Hn Hl))))) eq_refl).
Defined.

(** The bytes of a 32-bit value. *)
Lemma le32_bytes (u : Z) :
  0 <= u < 4294967296 ->
  exists b0 b1 b2 b3,
    le32 u = [b0; b1; b2; b3] /\
    0 <= b0 < 256 /\ 0 <= b1 < 256 /\ 0 <= b2 < 256 /\ 0 <= b3 < 256 /\
    b0 + 256 * b1 + 65536 * b2 + 16777216 * b3 = u.
Proof.
  intros Hu. unfold le32.
  change 255 with (Z.ones 8). rewrite !Z.land_ones by lia.
  rewrite !Z.shiftr_div_pow2 by lia.
  change (2 ^ 8) with 256. change (2 ^ 16) with 65536.
  change (2 ^ 24) with 16777216.
  do 4 eexists. split; [reflexivity |].
  pose proof (Z.mod_pos_bound u 256 eq_refl).
  pose proof (Z.mod_pos_bound (u / 256) 256 eq_refl).
  pose proof (Z.mod_pos_bound (u / 65536) 256 eq_refl).
  pose proof (Z.mod_pos_bound (u / 16777216) 256 eq_refl).
  repeat (split; [lia |]).
  pose proof (Z.div_mod u 256 ltac:(lia)).
  pose proof (Z.div_mod (u / 256) 256 ltac:(lia)).
  pose proof (Z.div_mod (u / 65536) 256 ltac:(lia)).
  assert (E2 : u / 256 / 256 = u / 65536)
    by (rewrite Z.div_div by lia; reflexivity).
  assert (E3 : u / 65536 / 256 = u / 16777216)
    by (rewrite Z.div_div by lia; reflexivity).
  assert (Hs : u / 16777216 < 256)
    by (apply Z.div_lt_upper_bound; lia).
  assert (Hp : 0 <= u / 16777216) by (apply Z.div_pos; lia).
  rewrite (Z.mod_small (u / 16777216) 256) by lia.
  lia.
Qed.

(** X10. The four bytes sent for a float are bytes (0 to 255), least
    significant first, and put together again they give the 32-bit value
    [uintval] of the float exactly: nothing is lost on the wire. *)
Theorem float_bytes_decode (v : F32.float) :
  exists b0 b1 b2 b3,
    le32 (uintval v) = [b0; b1; b2; b3] /\
    0 <= b0 < 256 /\ 0 <= b1 < 256 /\ 0 <= b2 < 256 /\ 0 <= b3 < 256 /\
    b0 + 256 * b1 + 65536 * b2 + 16777216 * b3 = uintval v.
Proof.
  apply le32_bytes. unfold uintval, to_uint32.
  apply Z.mod_pos_bound. lia.
Qed.

End MspIoFacts.

(** * Exact products and signed differences of small integers *)

Section F32SignedFacts.
Import F32.

Lemma of_Z_neg (v : positive) :
  Zpos v < 2 ^ 24 -> of_Z (Zneg v) = norm_pos true v.
Proof.
  intros Hv. unfold of_Z, binary_normalize.
  apply (round_int true v v 0); [lia | simpl; lia | assumption].
Qed.

Lemma norm_pos_sign (s1 s2 : bool) (v : positive) :
  norm_pos s1 v = S754_finite s1
                    (Z.to_pos (Zpos v * 2 ^ (24 - Zpos (digits2_pos v))))
                    (Zpos (digits2_pos v) - 24).
Proof. reflexivity. Qed.

Lemma digits_mul_ge (a b : positive) :
  Zpos (digits2_pos a) + Zpos (digits2_pos b) - 1
  <= Zpos (digits2_pos (a * b)).
Proof.
  destruct (digits_bounds a) as [La _]. destruct (digits_bounds b) as [Lb _].
  destruct (digits_bounds (a * b)) as [_ Uab].
  rewrite Pos2Z.inj_mul in Uab.
  set (da := Zpos (digits2_pos a)) in *. set (db := Zpos (digits2_pos b)) in *.
  set (dab := Zpos (digits2_pos (a * b))) in *.
  assert (Hda : 0 < da) by (unfold da; lia).
  assert (Hdb : 0 < db) by (unfold db; lia).
  assert (Hdab : 0 < dab) by (unfold dab; lia).
  destruct (Z_le_gt_dec (da + db - 1) dab) as [| Hgt]; [assumption |].
  assert (H1 : 2 ^ dab <= 2 ^ (da - 1 + (db - 1)))
    by (apply Z.pow_le_mono_r; lia).
  rewrite Z.pow_add_r in H1 by lia.
  assert (0 < 2 ^ (da - 1)) by (apply Z.pow_pos_nonneg; lia).
  assert (0 < 2 ^ (db - 1)) by (apply Z.pow_pos_nonneg; lia).
  nia.
Qed.

Lemma mul_norm_pos (sa sb : bool) (a b : positive) :
  Zpos a * Zpos b < 2 ^ 24 ->
  mul (norm_pos sa a) (norm_pos sb b) = norm_pos (xorb sa sb) (a * b).
Proof.
  intros Hab.
  assert (Ha : Zpos a < 2 ^ 24) by nia.
  assert (Hb : Zpos b < 2 ^ 24) by nia.
  destruct (norm_pos_shape sa a Ha) as (ma & ea & -> & Hea & Hma & Da & Ea).
  destruct (norm_pos_shape sb b Hb) as (mb & eb & -> & Heb & Hmb & Db & Eb).
  assert (Hab' : Zpos (a * b) < 2 ^ 24) by (rewrite Pos2Z.inj_mul; lia).
  pose proof (digits_le_24 (a * b) Hab') as Hd.
  destruct (norm_mantissa (a * b) Hab') as [En Dn].
  pose proof (digits_mul_ge a b) as Hge.
  pose proof (digits_mul_le a b) as Hle.
  unfold mul, SFmul, norm_pos.
  set (d := Zpos (digits2_pos (a * b))) in *.
  set (n := Z.to_pos (Zpos (a * b) * 2 ^ (24 - d))) in *.
  set (kk := d - 24 - ea - eb).
  replace (d - 24) with (ea + eb + kk) by (unfold kk; lia).
  assert (Hkk : 0 <= kk) by (unfold kk; lia).
  apply round_aux_exact; try assumption; try (unfold kk; lia).
  rewrite Pos2Z.inj_mul, Hma, Hmb, En, Pos2Z.inj_mul.
  assert (E : 2 ^ (- ea) * 2 ^ (- eb) = 2 ^ (24 - d) * 2 ^ kk).
  { rewrite <- !Z.pow_add_r by lia. f_equal. unfold kk. lia. }
  transitivity (Zpos a * Zpos b * (2 ^ (- ea) * 2 ^ (- eb))); [ring |].
  rewrite E. ring.
Qed.

Lemma mul_of_Z (a b : Z) :
  0 <= a < 2 ^ 24 -> 0 <= b < 2 ^ 24 -> a * b < 2 ^ 24 ->
  mul (of_Z a) (of_Z b) = of_Z (a * b).
Proof.
  intros Ha Hb Hab.
  destruct a as [| a | a], b as [| b | b]; try lia.
  - reflexivity.
  - rewrite (of_Z_pos b) by lia. reflexivity.
  - rewrite (of_Z_pos a) by lia. reflexivity.
  - assert (Zpos a < 2 ^ 24) by nia. assert (Zpos b < 2 ^ 24) by nia.
    rewrite (of_Z_pos a), (of_Z_pos b) by assumption.
    rewrite mul_norm_pos by assumption. symmetry.
    change (Zpos a * Zpos b) with (Zpos (a * b)).
    apply of_Z_pos. rewrite Pos2Z.inj_mul. assumption.
Qed.

Lemma sub_norm_pos_neg (a b : positive) :
  Zpos a < Zpos b -> Zpos b < 2 ^ 24 ->
  sub (norm_pos false a) (norm_pos false b) = norm_pos true (b - a).
Proof.
  intros Hab Hb.
  destruct (norm_pos_shape false a) as (ma & ea & -> & Hea & Hma & _ & _);
    [lia |].
  destruct (norm_pos_shape false b) as (mb & eb & -> & Heb & Hmb & _ & _);
    [lia |].
  unfold sub, SFsub. simpl cond_Zopp.
  rewrite (aligned_val a ma ea (Z.min ea eb)) by (assumption || lia).
  rewrite (aligned_val b mb eb (Z.min ea eb)) by (assumption || lia).
  set (ez := Z.min ea eb).
  assert (Hp : 0 < 2 ^ (- ez)) by (apply Z.pow_pos_nonneg; lia).
  destruct (Zpos a * 2 ^ (- ez) - Zpos b * 2 ^ (- ez)) as [| m | m] eqn:E;
    try nia.
  unfold binary_normalize.
  replace ez with (- (- ez)) at 1 by lia.
  apply round_int; [lia | | rewrite Pos2Z.inj_sub by lia; lia].
  rewrite Pos2Z.inj_sub by lia.
  assert (E' : Zpos m = Zpos b * 2 ^ (- ez) - Zpos a * 2 ^ (- ez)) by lia.
  rewrite E'. ring.
Qed.

(** The difference of two integers below [2^24], either sign. *)
Lemma sub_of_Z_signed (a b : Z) :
  0 <= a < 2 ^ 24 -> 0 <= b < 2 ^ 24 ->
  sub (of_Z a) (of_Z b) = of_Z (a - b).
Proof.
  intros Ha Hb.
  destruct (Z_le_gt_dec b a) as [Hle | Hgt];
    [apply sub_of_Z; lia |].
  destruct b as [| b | b]; try lia.
  destruct a as [| a | a]; try lia.
  - rewrite Z.sub_0_l. change (- Zpos b) with (Zneg b).
    rewrite (of_Z_pos b), (of_Z_neg b) by lia. reflexivity.
  - rewrite (of_Z_pos a), (of_Z_pos b) by lia.
    rewrite sub_norm_pos_neg by lia.
    replace (Zpos a - Zpos b) with (Zneg (b - a))
      by (rewrite <- Pos2Z.opp_pos, Pos2Z.inj_sub by lia; lia).
    symmetry. apply of_Z_neg. rewrite Pos2Z.inj_sub by lia. lia.
Qed.

End F32SignedFacts.

(** * Integer-valued channel data through the float code *)

Section IntegerChannelFacts.
Import F32 Msp Commands.

(** X11. [serializeFloat] on a float that holds a whole number [n] from 0
    to 16775 (a channel value in microseconds, say): the 32-bit word it
    sends is exactly [1000 * (n + 2)], so the receiving side gets [n] back
    by dividing by 1000 and subtracting 2. *)
Theorem uintval_integer (n : Z) :
  0 <= n <= 16775 ->
  uintval (of_Z n) = 1000 * (n + 2) /\
  uintval (of_Z n) / 1000 - 2 = n.
Proof.
  intros Hn.
  assert (E : uintval (of_Z n) = 1000 * (n + 2)).
  { unfold uintval.
    rewrite add_of_Z by lia.
    rewrite mul_of_Z by lia.
    rewrite to_Z_of_Z by lia.
    apply to_uint32_small. lia. }
  split; [exact E |]. rewrite E.
  rewrite Z.mul_comm, Z.div_mul by lia. lia.
Qed.

Lemma uintval_integer_witness :
  uintval (of_Z 1500) = 1502000.
Proof. exact (proj1 (uintval_integer 1500 ltac:(lia))). Defined.

Lemma of_Z_1 : of_Z 1 = norm_pos false 1.
Proof. apply of_Z_pos. lia. Qed.

Lemma of_Z_m1 : of_Z (-1) = norm_pos true 1.
Proof. apply (of_Z_neg 1). lia. Qed.

(** The product of a whole number by the sign [+1] or [-1]. *)
Lemma mul_sign (m : positive) (s : bool) :
  Zpos m < 2 ^ 24 ->
  mul (of_Z (Zpos m)) (norm_pos s 1) = norm_pos s m.
Proof.
  intros Hm. rewrite of_Z_pos by assumption.
  rewrite mul_norm_pos by lia. rewrite Pos.mul_1_r. reflexivity.
Qed.

Lemma fabs_of_Z (z : Z) :
  - 2 ^ 24 < z < 2 ^ 24 -> fabs (of_Z z) = of_Z (Z.abs z).
Proof.
  intros Hz. destruct z as [| v | v]; [reflexivity | |].
  - change (Z.abs (Zpos v)) with (Zpos v).
    rewrite of_Z_pos by lia. reflexivity.
  - change (Z.abs (Zneg v)) with (Zpos v).
    rewrite of_Z_neg, of_Z_pos by lia. reflexivity.
Qed.

Lemma updateCommand_sign (r : Z) (s : bool) :
  0 <= r < 2 ^ 24 -> r <> 1500 ->
  updateCommand (of_Z r) (norm_pos s 1)
  = of_Z (if s then - deflection r else deflection r).
Proof.
  intros Hr Hne. unfold updateCommand.
  rewrite sub_of_Z_signed by lia.
  rewrite fabs_of_Z by lia.
  rewrite fminf_of_Z by lia.
  rewrite ltb_of_Z by lia.
  set (m := Z.min (Z.abs (r - 1500)) 500).
  assert (Hm : 0 < m <= 500) by (unfold m; lia).
  destruct m as [| m' | m'] eqn:Em; try lia.
  rewrite mul_sign by lia.
  unfold deflection.
  destruct (Z.ltb_spec r 1500) as [Hlt | Hge].
  - unfold neg. change (SFopp (norm_pos s m')) with (norm_pos (negb s) m').
    destruct s; simpl negb.
    + rewrite <- of_Z_pos by lia. f_equal. lia.
    + rewrite <- of_Z_neg by lia. f_equal. lia.
  - destruct s.
    + rewrite <- of_Z_neg by lia. f_equal. lia.
    + rewrite <- of_Z_pos by lia. f_equal. lia.
Qed.

(** X12. [updateCommand] on a whole-number channel value [r]: with sign
    [+1] (roll and pitch) the command is the deflection [r - 1500] limited
    to 500 either way; with sign [-1] (yaw) it is the opposite, and at the
    centre 1500 a negative zero.  So [updateCommands] leaves in
    [m_command] the roll and pitch deflections and the reversed yaw
    deflection, slot 0 as it was. *)
Theorem updateCommand_deflection (r : Z) :
  0 <= r < 2 ^ 24 ->
  updateCommand (of_Z r) (of_Z 1) = of_Z (deflection r) /\
  updateCommand (of_Z r) (of_Z (-1))
  = (if r =? 1500 then S754_zero true else of_Z (- deflection r)) /\
  -500 <= deflection r <= 500 /\
  forall t ro pi c0 c1 c2 c3,
    0 <= ro < 2 ^ 24 -> 0 <= pi < 2 ^ 24 -> r <> 1500 ->
    updateCommands_axes [t; of_Z ro; of_Z pi; of_Z r] [c0; c1; c2; c3]
    = [c0; of_Z (deflection ro); of_Z (deflection pi);
       of_Z (- deflection r)].
Proof.
  intros Hr.
  assert (Hplus : forall x, 0 <= x < 2 ^ 24 ->
            updateCommand (of_Z x) (of_Z 1) = of_Z (deflection x)).
  { intros x Hx. destruct (Z.eq_dec x 1500) as [-> | Hne];
      [vm_compute; reflexivity |].
    rewrite of_Z_1. now rewrite updateCommand_sign. }
  split; [now apply Hplus |]. split; [| split].
  - destruct (Z.eqb_spec r 1500) as [-> | Hne]; [vm_compute; reflexivity |].
    rewrite of_Z_m1. now rewrite updateCommand_sign.
  - unfold deflection. lia.
  - intros t ro pi c0 c1 c2 c3 Hro Hpi Hne.
    change (updateCommands_axes [t; of_Z ro; of_Z pi; of_Z r]
              [c0; c1; c2; c3])
      with [c0; updateCommand (of_Z ro) (of_Z 1);
            updateCommand (of_Z pi) (of_Z 1);
            updateCommand (of_Z r) (of_Z (-1))].
    rewrite !Hplus by assumption.
    rewrite of_Z_m1, updateCommand_sign by assumption. reflexivity.
Qed.

Lemma updateCommand_deflection_witness :
  updateCommand (of_Z 1200) (of_Z 1) = of_Z (-300) /\
  updateCommand (of_Z 2100) (of_Z (-1)) = of_Z (-500).
Proof.
  split.
  - exact (proj1 (updateCommand_deflection 1200 ltac:(lia))).
  - exact (proj1 (proj2 (updateCommand_deflection 2100 ltac:(lia)))).
Defined.

End IntegerChannelFacts.

(** * Signal loss: what one call and two calls in a row put out *)

Section SignalLossOutputs.

Import Receiver.

(** One call, by the state its first loop ends in. *)
Lemma detect_shape (rx : rx_t) (currentTimeUs : Z) (raw : list F32.float) :
  length raw = CHANNEL_COUNT ->
  length (m_invalidPulsePeriod rx) = CHANNEL_COUNT ->
  exists l,
    inv1 (m_signalReceived rx && negb (m_inFailsafeMode rx))
      (currentTimeUs / 1000) raw (m_invalidPulsePeriod rx) CHANNEL_COUNT l /\
    detectAndApplySignalLossBehaviour rx currentTimeUs raw
    = ({| m_auxiliaryProcessingRequired := m_auxiliaryProcessingRequired rx;
          m_dataProcessingRequired := m_dataProcessingRequired rx;
          m_inFailsafeMode :=
            if l_valid l then m_inFailsafeMode rx else true;
          m_invalidPulsePeriod := l_period l;
          m_nextUpdateAtUs := m_nextUpdateAtUs rx;
          m_raw := m_raw rx;
          m_signalReceived := m_signalReceived rx |},
       if l_valid l then l_raw l else applyFailValues (l_raw l),
       if l_valid l then OnValidDataReceived else OnValidDataFailed).
Proof.
  intros Hraw Hper. eexists. split; [apply inv1_end; assumption |].
  unfold detectAndApplySignalLossBehaviour.
  destruct (l_valid _); reflexivity.
Qed.

Lemma applyFailValues_length (mid : list F32.float) :
  length (applyFailValues mid) = length mid.
Proof.
  unfold applyFailValues.
  apply (foldl_seq_inv (fun _ x => length x = length mid)); [reflexivity |].
  intros n x _ Hx. destruct (getFailValue x n); [| assumption].
  now rewrite length_insert.
Qed.

(** In fail-safe every slot ends at the fail value of the value read. *)
Lemma failsafe_lookup (useRx : bool) (nowMs : Z) (raw : list F32.float)
    (per : list Z) (l : loss_t) (c : nat) :
  length raw = CHANNEL_COUNT -> length per = CHANNEL_COUNT ->
  inv1 useRx nowMs raw per CHANNEL_COUNT l ->
  (c < CHANNEL_COUNT)%nat ->
  applyFailValues (l_raw l) !! c = F32.of_Z <$> getFailValue raw c.
Proof.
  intros Hraw Hper (Hl1 & Hl2 & _ & Hdone & _) Hc.
  destruct (lookup_lt_is_Some_2 raw c) as [sample Hs]; [lia |].
  destruct (lookup_lt_is_Some_2 per c) as [p Hp]; [lia |].
  destruct (Hdone c sample p Hc Hs Hp) as [_ Dr].
  rewrite applyFailValues_spec by assumption.
  destruct (getFailValue_some raw c sample Hc Hs) as (v & Hv & Hvr).
  rewrite Hv.
  assert (G : getFailValue (l_raw l) c = Some v); [| now rewrite G].
  destruct (taken useRx sample || held nowMs p).
  - rewrite (getFailValue_ext (l_raw l) raw c); [assumption |].
    now rewrite Dr.
  - apply (getFailValue_idem raw); try assumption.
    now rewrite Dr, Hv.
Qed.

Lemma to_int32_signed (z : Z) :
  -2147483648 <= z < 2147483648 -> to_int32 z = z.
Proof.
  intros H. unfold to_int32, to_uint32.
  destruct (Z_le_gt_dec 0 z) as [Hz | Hz].
  - rewrite Z.mod_small by lia. destruct (Z.ltb_spec z 2147483648); lia.
  - replace (z mod 4294967296) with (z + 4294967296).
    + destruct (Z.ltb_spec (z + 4294967296) 2147483648); lia.
    + apply (Z.mod_unique _ _ (-1)); lia.
Qed.

(** The output of a call that does not end in fail-safe. *)
Lemma open_window_step
    (rx : rx_t) (currentTimeUs : Z) (raw : list F32.float)
    (c : nat) (sample : F32.float) (p : Z) :
  length raw = CHANNEL_COUNT ->
  length (m_invalidPulsePeriod rx) = CHANNEL_COUNT ->
  raw !! c = Some sample -> m_invalidPulsePeriod rx !! c = Some p ->
  let out := detectAndApplySignalLossBehaviour rx currentTimeUs raw in
  snd out = OnValidDataReceived ->
  snd (fst out) !! c
  = (if accepted rx sample || negb (expired currentTimeUs p)
     then Some sample
     else F32.of_Z <$> getFailValue raw c).
Proof.
  intros Hraw Hper Hs Hp.
  assert (Hc : (c < CHANNEL_COUNT)%nat)
    by (rewrite <- Hraw; eapply lookup_lt_Some; eassumption).
  destruct (detect_shape rx currentTimeUs raw Hraw Hper)
    as (l & (_ & _ & _ & Hdone & _) & ->).
  cbv zeta. cbn [fst snd].
  destruct (l_valid l); [| discriminate]. intros _.
  destruct (Hdone c sample p Hc Hs Hp) as [_ Dr]. rewrite Dr.
  unfold accepted, expired, taken, held. rewrite negb_involutive.
  reflexivity.
Qed.

(** X13. A call of [detectAndApplySignalLossBehaviour] that does not end
    in fail-safe puts out, on every channel, the sample just read when it
    is accepted or the channel's window is still open (an invalid pulse
    included: nothing older is held), and the channel's fail value
    otherwise. *)
Theorem open_window_passes_sample
    (rx : rx_t) (currentTimeUs : Z) (raw : list F32.float)
    (c : nat) (sample : F32.float) (p : Z) :
  length raw = CHANNEL_COUNT ->
  length (m_invalidPulsePeriod rx) = CHANNEL_COUNT ->
  raw !! c = Some sample -> m_invalidPulsePeriod rx !! c = Some p ->
  let out := detectAndApplySignalLossBehaviour rx currentTimeUs raw in
  snd out = OnValidDataReceived ->
  snd (fst out) !! c
  = (if accepted rx sample || negb (expired currentTimeUs p)
     then Some sample
     else F32.of_Z <$> getFailValue raw c).
Proof.
  intros Hraw Hper Hs Hp out. now apply open_window_step.
Qed.

Lemma open_window_passes_sample_witness :
  snd (fst (detectAndApplySignalLossBehaviour rx_after_A 1200000
              (map (samples 1500 [(THROTTLE, 800)]) (seq 0 CHANNEL_COUNT))))
    !! THROTTLE
  = Some (F32.of_Z 800).
Proof.
  exact (open_window_passes_sample rx_after_A 1200000
           (map (samples 1500 [(THROTTLE, 800)]) (seq 0 CHANNEL_COUNT))
           THROTTLE (F32.of_Z 800) 1300
           eq_refl eq_refl eq_refl eq_refl eq_refl).
Defined.

(** X14. A call that ends in fail-safe puts out throttle 885 and roll,
    pitch and yaw 1500, whatever was read, and on each auxiliary channel
    the value read, as the [uint16_t] it converts to; fail-safe mode is
    on afterwards. *)
Theorem failsafe_outputs
    (rx : rx_t) (currentTimeUs : Z) (raw : list F32.float) :
  length raw = CHANNEL_COUNT ->
  length (m_invalidPulsePeriod rx) = CHANNEL_COUNT ->
  let out := detectAndApplySignalLossBehaviour rx currentTimeUs raw in
  snd out = OnValidDataFailed ->
  snd (fst out)
  = [F32.of_Z 885; F32.of_Z 1500; F32.of_Z 1500; F32.of_Z 1500]
    ++ map (fun s => F32.of_Z (float_to_uint16 s)) (drop 4 raw) /\
  m_inFailsafeMode (fst (fst out)) = true.
Proof.
  intros Hraw Hper.
  destruct (detect_shape rx currentTimeUs raw Hraw Hper) as (l & Hinv & ->).
  cbv zeta. cbn [fst snd m_inFailsafeMode].
  destruct (l_valid l); [discriminate |]. intros _.
  split; [| reflexivity].
  pose proof Hinv as (Hl1 & _).
  apply (list_eq_same_length _ _ CHANNEL_COUNT).
  - rewrite length_app, length_map, length_drop, Hraw. reflexivity.
  - now rewrite applyFailValues_length.
  - intros i x y Hi Hx Hy.
    rewrite (failsafe_lookup _ _ raw _ l i Hraw Hper Hinv Hi) in Hx.
    destruct (Nat.lt_ge_cases i 4) as [H4 | H4].
    + rewrite getFailValue_flight in Hx by assumption.
      do 4 (destruct i as [| i]; [simpl in Hx, Hy; congruence |]). lia.
    + rewrite getFailValue_aux in Hx by lia.
      rewrite lookup_app_r in Hy by (simpl; lia).
      rewrite list_lookup_fmap, lookup_drop in Hy.
      replace (4 + (i - length [F32.of_Z 885; F32.of_Z 1500; F32.of_Z 1500;
                                 F32.of_Z 1500]))%nat with i in Hy
        by (simpl; lia).
      destruct (raw !! i); simpl in Hx, Hy; congruence.
Qed.

Lemma failsafe_outputs_witness :
  take 4 (snd (fst (detectAndApplySignalLossBehaviour rx_start 1000000
                      (map (samples 1700 [(ROLL, 800)])
                           (seq 0 CHANNEL_COUNT)))))
  = [F32.of_Z 885; F32.of_Z 1500; F32.of_Z 1500; F32.of_Z 1500].
Proof.
  rewrite (proj1 (failsafe_outputs rx_start 1000000
                    (map (samples 1700 [(ROLL, 800)]) (seq 0 CHANNEL_COUNT))
                    eq_refl eq_refl eq_refl)).
  reflexivity.
Defined.

(** X15. [detectAndApplySignalLossBehaviour] keeps both arrays at their
    18 slots, never leaves fail-safe mode, and restarts no window when
    the receiver is not in use (no signal, or fail-safe mode on): the
    deadlines then stay as they were. *)
Theorem signal_loss_keeps_shape
    (rx : rx_t) (currentTimeUs : Z) (raw : list F32.float) :
  length raw = CHANNEL_COUNT ->
  length (m_invalidPulsePeriod rx) = CHANNEL_COUNT ->
  let out := detectAndApplySignalLossBehaviour rx currentTimeUs raw in
  let rx' := fst (fst out) in
  length (snd (fst out)) = CHANNEL_COUNT /\
  length (m_invalidPulsePeriod rx') = CHANNEL_COUNT /\
  (m_inFailsafeMode rx = true -> m_inFailsafeMode rx' = true) /\
  (m_signalReceived rx && negb (m_inFailsafeMode rx) = false ->
   m_invalidPulsePeriod rx' = m_invalidPulsePeriod rx).
Proof.
  intros Hraw Hper.
  destruct (detect_shape rx currentTimeUs raw Hraw Hper)
    as (l & (Hl1 & Hl2 & _ & Hdone & _) & ->).
  cbv zeta. cbn [fst snd m_inFailsafeMode m_invalidPulsePeriod].
  split; [| split; [| split]].
  - destruct (l_valid l); [assumption |].
    now rewrite applyFailValues_length.
  - assumption.
  - intros ->. destruct (l_valid l); reflexivity.
  - intros Hoff. apply (list_eq_same_length _ _ CHANNEL_COUNT);
      [assumption | assumption |].
    intros i x y Hi Hx Hy.
    destruct (lookup_lt_is_Some_2 raw i) as [s Hs]; [lia |].
    destruct (Hdone i s y Hi Hs Hy) as [Dp _].
    rewrite Hoff in Dp. unfold taken in Dp. simpl in Dp. congruence.
Qed.

Lemma signal_loss_keeps_shape_witness :
  m_invalidPulsePeriod
    (fst (fst (detectAndApplySignalLossBehaviour rx_after_C 1400000
                 (map (samples 1500 []) (seq 0 CHANNEL_COUNT)))))
  = m_invalidPulsePeriod rx_after_C.
Proof.
  exact (proj2 (proj2 (proj2
           (signal_loss_keeps_shape rx_after_C 1400000
              (map (samples 1500 []) (seq 0 CHANNEL_COUNT))
              eq_refl eq_refl))) eq_refl).
Defined.

(** The second of two calls, on a channel whose window the first one
    restarted at [t1]. *)
Lemma second_call
    (rx1 : rx_t) (t1 t2 : Z) (raw2 : list F32.float) (c : nat)
    (s2 : F32.float) :
  length raw2 = CHANNEL_COUNT ->
  length (m_invalidPulsePeriod rx1) = CHANNEL_COUNT ->
  raw2 !! c = Some s2 ->
  m_invalidPulsePeriod rx1 !! c
  = Some (to_uint32 (t1 / 1000 + MAX_INVALID__PULSE_TIME)) ->
  0 <= t1 <= t2 -> t2 < 2 ^ 32 ->
  accepted rx1 s2 = false ->
  (t2 / 1000 - t1 / 1000 < 300 ->
   snd (detectAndApplySignalLossBehaviour rx1 t2 raw2)
   = OnValidDataReceived ->
   snd (fst (detectAndApplySignalLossBehaviour rx1 t2 raw2)) !! c
   = Some s2) /\
  (300 <= t2 / 1000 - t1 / 1000 -> (c < 4)%nat ->
   snd (detectAndApplySignalLossBehaviour rx1 t2 raw2)
   = OnValidDataFailed).
Proof.
  intros Hraw2 Hlen1 Hs2 Hp1 Ht Ht2 Ha2.
  assert (Hc : (c < CHANNEL_COUNT)%nat)
    by (rewrite <- Hraw2; eapply lookup_lt_Some; eassumption).
  assert (Hm1 : 0 <= t1 / 1000 <= t2 / 1000).
  { split; [apply Z.div_pos; lia | apply Z.div_le_mono; lia]. }
  assert (Hm2 : t2 / 1000 < 4294968).
  { apply Z.div_lt_upper_bound; [lia |].
    change (2 ^ 32) with 4294967296 in Ht2. lia. }
  assert (Hexp : expired t2 (to_uint32 (t1 / 1000 + MAX_INVALID__PULSE_TIME))
                 = (300 <=? t2 / 1000 - t1 / 1000)).
  { unfold expired, cmp32, MAX_INVALID__PULSE_TIME.
    rewrite to_uint32_small by lia.
    rewrite to_int32_signed by lia.
    destruct (Z.ltb_spec (t2 / 1000 - (t1 / 1000 + 300)) 0),
             (Z.leb_spec 300 (t2 / 1000 - t1 / 1000)); try lia;
      reflexivity. }
  split.
  - intros Hlt Hcall.
    rewrite (open_window_step rx1 t2 raw2 c s2 _ Hraw2 Hlen1 Hs2 Hp1 Hcall).
    rewrite Ha2, Hexp.
    destruct (Z.leb_spec 300 (t2 / 1000 - t1 / 1000)); [lia | reflexivity].
  - intros Hge H4.
    destruct (detect_shape rx1 t2 raw2 Hraw2 Hlen1)
      as (l2 & (_ & _ & _ & _ & Hvalid) & ->).
    cbn [snd].
    destruct (l_valid l2) eqn:Ev; [| reflexivity]. exfalso.
    destruct Hvalid as [Hv _].
    pose proof (Hv eq_refl c s2 _ Hc H4 Hs2 Hp1) as G.
    unfold taken in G. unfold accepted in Ha2.
    rewrite Ha2 in G. rewrite orb_false_l in G.
    unfold expired in Hexp. unfold held in G. rewrite G in Hexp.
    destruct (Z.leb_spec 300 (t2 / 1000 - t1 / 1000)); [discriminate | lia].
Qed.

(** X16. Two calls in a row, at [t1] and [t2] microseconds (32-bit
    clock, [t1 <= t2]), and a channel whose sample the first call accepts
    and whose next sample the second does not.  With fewer than 300 whole
    milliseconds between the calls the second call, unless it ends in
    fail-safe, passes that sample on; from 300 on, if the channel is one
    of the four flight channels, the second call ends in fail-safe. *)
Theorem hold_window_length
    (rx : rx_t) (t1 t2 : Z) (raw1 raw2 : list F32.float)
    (c : nat) (s1 s2 : F32.float) :
  length raw1 = CHANNEL_COUNT -> length raw2 = CHANNEL_COUNT ->
  length (m_invalidPulsePeriod rx) = CHANNEL_COUNT ->
  raw1 !! c = Some s1 -> raw2 !! c = Some s2 ->
  0 <= t1 <= t2 -> t2 < 2 ^ 32 ->
  accepted rx s1 = true ->
  let rx1 := fst (fst (detectAndApplySignalLossBehaviour rx t1 raw1)) in
  let out := detectAndApplySignalLossBehaviour rx1 t2 raw2 in
  accepted rx1 s2 = false ->
  (t2 / 1000 - t1 / 1000 < 300 -> snd out = OnValidDataReceived ->
   snd (fst out) !! c = Some s2) /\
  (300 <= t2 / 1000 - t1 / 1000 -> (c < 4)%nat ->
   snd out = OnValidDataFailed).
Proof.
  intros Hraw1 Hraw2 Hper Hs1 Hs2 Ht Ht2 Ha1.
  assert (Hc : (c < CHANNEL_COUNT)%nat)
    by (rewrite <- Hraw1; eapply lookup_lt_Some; eassumption).
  destruct (lookup_lt_is_Some_2 (m_invalidPulsePeriod rx) c) as [p Hp];
    [lia |].
  destruct (detect_shape rx t1 raw1 Hraw1 Hper)
    as (l & (_ & Hl2 & _ & Hdone & _) & ->).
  destruct (Hdone c s1 p Hc Hs1 Hp) as [Dp _].
  change (taken _ s1) with (accepted rx s1) in Dp. rewrite Ha1 in Dp.
  cbn [fst]. intros Ha2.
  apply (second_call _ t1 t2 raw2 c s2); assumption.
Qed.

Lemma hold_window_length_witness :
  snd (detectAndApplySignalLossBehaviour
         (fst (fst (detectAndApplySignalLossBehaviour rx_start 1000000
                      (map (samples 1500 []) (seq 0 CHANNEL_COUNT)))))
         1300000
         (map (samples 1500 [(ROLL, 800)]) (seq 0 CHANNEL_COUNT)))
  = OnValidDataFailed.
Proof.
  refine (proj2 (hold_window_length rx_start 1000000 1300000
                   (map (samples 1500 []) (seq 0 CHANNEL_COUNT))
                   (map (samples 1500 [(ROLL, 800)]) (seq 0 CHANNEL_COUNT))
                   ROLL (F32.of_Z 1500) (F32.of_Z 800)
                   eq_refl eq_refl eq_refl eq_refl eq_refl _ _ eq_refl
                   eq_refl) _ _).
  - lia.
  - reflexivity.
  - vm_compute. discriminate.
  - unfold ROLL. lia.
Defined.

End SignalLossOutputs.

(** * The receiver's signal flag (receiver.h, [check]) *)

Section ReceiverCheckFacts.
Import Board ReceiverCheck.

Variable cmpTimeUs : Z -> Z -> Z.

Lemma check_state (t st : Z) (rx : check_t) :
  c_state (fst (check cmpTimeUs t st rx)) = c_state rx.
Proof. unfold check. destruct (c_state rx) eqn:E; simpl; congruence. Qed.

(** A call of [check] on a frame that is no signal. *)
Lemma check_no_signal (t st : Z) (rx : check_t) :
  c_state rx = STATE_CHECK -> good_frame st = false ->
  c_needSignalBefore (fst (check cmpTimeUs t st rx)) = c_needSignalBefore rx /\
  c_signalReceived (fst (check cmpTimeUs t st rx))
  = c_signalReceived rx && (t <? c_needSignalBefore rx).
Proof.
  intros Hs Hg. unfold check. rewrite Hs. cbn [fst c_needSignalBefore
    c_signalReceived].
  assert (E : flag st FRAME_COMPLETE
              && negb ((if flag st FRAME_COMPLETE
                        then flag st FRAME_FAILSAFE
                        else c_inFailsafeMode rx)
                       || flag st FRAME_DROPPED) = false).
  { unfold good_frame in Hg.
    destruct (flag st FRAME_COMPLETE), (flag st FRAME_FAILSAFE),
      (flag st FRAME_DROPPED); simpl in *; congruence. }
  rewrite E. split; [reflexivity |].
  rewrite Z.leb_antisym.
  destruct (t <? c_needSignalBefore rx), (c_signalReceived rx); reflexivity.
Qed.

Lemma checks_no_signal (calls : list (Z * Z)) (rx : check_t) :
  c_state rx = STATE_CHECK ->
  Forall (fun call => good_frame (snd call) = false) calls ->
  c_needSignalBefore (checks cmpTimeUs rx calls) = c_needSignalBefore rx /\
  c_signalReceived (checks cmpTimeUs rx calls)
  = c_signalReceived rx
    && forallb (fun call => fst call <? c_needSignalBefore rx) calls.
Proof.
  revert rx. induction calls as [| [t st] calls IH]; intros rx Hs Hall.
  - simpl. now rewrite andb_true_r.
  - apply Forall_cons in Hall as [Hg Hall]. simpl in Hg.
    destruct (check_no_signal t st rx Hs Hg) as [En Es].
    unfold checks in *. cbn [foldl fst snd forallb].
    destruct (IH (fst (check cmpTimeUs t st rx))) as [IHn IHs];
      [now rewrite check_state | assumption |].
    rewrite IHn, IHs, En, Es. split; [reflexivity |].
    now rewrite andb_assoc.
Qed.

(** X17. [check] in [STATE_CHECK].  A good frame (complete, neither
    flagged fail-safe nor dropped) at time [t] sets the signal flag, clears
    fail-safe mode, asks for data processing and sets the deadline to the
    32-bit sum [t + 100000], which wraps.  Over the calls that follow
    without a good frame the flag stays set exactly as long as every call
    comes before that deadline; once cleared it stays cleared.  So within
    100 ms of the clock's wrap the deadline lies behind [t], and the next
    call without a good frame, made before the clock wraps, clears the
    flag at once. *)
Theorem signal_deadline
    (rx : check_t) (t st : Z) (calls : list (Z * Z)) :
  c_state rx = STATE_CHECK ->
  good_frame st = true ->
  Forall (fun call => good_frame (snd call) = false) calls ->
  let rx1 := fst (check cmpTimeUs t st rx) in
  let deadline := to_uint32 (t + NEED_SIGNAL_MAX_DELAY_US) in
  c_signalReceived rx1 = true /\
  c_inFailsafeMode rx1 = false /\
  c_dataProcessingRequired rx1 = true /\
  snd (check cmpTimeUs t st rx) = true /\
  c_needSignalBefore rx1 = deadline /\
  c_signalReceived (checks cmpTimeUs rx1 calls)
  = forallb (fun call => fst call <? deadline) calls /\
  (2 ^ 32 - 100000 <= t < 2 ^ 32 ->
   forall t' st', good_frame st' = false -> t <= t' ->
     c_signalReceived (checks cmpTimeUs rx1 [(t', st')]) = false).
Proof.
  intros Hs Hg Hall rx1 deadline.
  assert (Hc : flag st FRAME_COMPLETE = true /\
               flag st FRAME_FAILSAFE = false /\
               flag st FRAME_DROPPED = false).
  { unfold good_frame in Hg.
    destruct (flag st FRAME_COMPLETE), (flag st FRAME_FAILSAFE),
      (flag st FRAME_DROPPED); simpl in Hg; try discriminate; auto. }
  destruct Hc as (Hc1 & Hc2 & Hc3).
  assert (E : check cmpTimeUs t st rx
              = ({| c_state := c_state rx;
                    c_inFailsafeMode := false;
                    c_needSignalBefore := deadline;
                    c_auxiliaryProcessingRequired :=
                      if flag st FRAME_PROCESSING_REQUIRED then true
                      else c_auxiliaryProcessingRequired rx;
                    c_signalReceived := true;
                    c_dataProcessingRequired := true;
                    c_nextUpdateAtUs := c_nextUpdateAtUs rx |}, true)).
  { unfold check. rewrite Hs, Hc1, Hc2, Hc3. reflexivity. }
  assert (Hrun : forall l,
            Forall (fun call => good_frame (snd call) = false) l ->
            c_signalReceived (checks cmpTimeUs rx1 l)
            = forallb (fun call => fst call <? deadline) l).
  { intros l Hl. unfold rx1. rewrite E. cbn [fst].
    destruct (checks_no_signal l
                {| c_state := c_state rx;
                   c_inFailsafeMode := false;
                   c_needSignalBefore := deadline;
                   c_auxiliaryProcessingRequired :=
                     if flag st FRAME_PROCESSING_REQUIRED then true
                     else c_auxiliaryProcessingRequired rx;
                   c_signalReceived := true;
                   c_dataProcessingRequired := true;
                   c_nextUpdateAtUs := c_nextUpdateAtUs rx |} Hs Hl)
      as [_ H].
    exact H. }
  split; [unfold rx1; now rewrite E |].
  split; [unfold rx1; now rewrite E |].
  split; [unfold rx1; now rewrite E |].
  split; [now rewrite E |].
  split; [unfold rx1; now rewrite E |].
  split; [now apply Hrun |].
  intros Ht t' st' Hg' Ht'.
  rewrite Hrun by (repeat constructor; assumption).
  cbn [forallb fst]. rewrite andb_true_r. apply Z.ltb_ge.
  unfold deadline, to_uint32.
  change NEED_SIGNAL_MAX_DELAY_US with 100000.
  change (2 ^ 32) with 4294967296 in Ht.
  rewrite <- (Z.mod_unique (t + 100000) 4294967296 1
                (t + 100000 - 4294967296)) by lia.
  lia.
Qed.

End ReceiverCheckFacts.

Lemma signal_deadline_witness :
  ReceiverCheck.c_signalReceived
    (ReceiverCheck.checks (fun a b => a - b)
       (fst (ReceiverCheck.check (fun a b => a - b) 5000 1
               {| ReceiverCheck.c_state := Board.STATE_CHECK;
                  ReceiverCheck.c_inFailsafeMode := true;
                  ReceiverCheck.c_needSignalBefore := 0;
                  ReceiverCheck.c_auxiliaryProcessingRequired := false;
                  ReceiverCheck.c_signalReceived := false;
                  ReceiverCheck.c_dataProcessingRequired := false;
                  ReceiverCheck.c_nextUpdateAtUs := 0 |}))
       [(60000, 0); (104999, 9); (105000, 0); (106000, 0)])
  = false.
Proof.
  refine (proj1 (proj2 (proj2 (proj2 (proj2 (proj2
            (signal_deadline (fun a b => a - b)
               {| ReceiverCheck.c_state := Board.STATE_CHECK;
                  ReceiverCheck.c_inFailsafeMode := true;
                  ReceiverCheck.c_needSignalBefore := 0;
                  ReceiverCheck.c_auxiliaryProcessingRequired := false;
                  ReceiverCheck.c_signalReceived := false;
                  ReceiverCheck.c_dataProcessingRequired := false;
                  ReceiverCheck.c_nextUpdateAtUs := 0 |} 5000 1
               [(60000, 0); (104999, 9); (105000, 0); (106000, 0)]
               eq_refl eq_refl _))))))).
  repeat constructor.
Defined.

(** * The arming logic of the older main loop (hackflight.hpp) *)

Section HackflightFacts.
Import Hackflight.

Lemma checkReceiver_off (i : inputs) (s : state) :
  armed s = false -> failsafe s = true ->
  armed (fst (checkReceiver i s)) = false /\
  failsafe (fst (checkReceiver i s)) = true /\
  Forall (fun e => e = ShowArmedStatus false) (snd (checkReceiver i s)).
Proof.
  intros Ha Hf. unfold checkReceiver. rewrite Ha, Hf.
  rewrite andb_false_r.
  destruct (ready i); cbn [negb fst snd armed failsafe];
    [| repeat split; auto].
  rewrite !andb_false_r. cbn [andb negb app].
  repeat split; auto.
Qed.

Lemma run_off (calls : list inputs) (s : state) :
  armed s = false -> failsafe s = true ->
  armed (fst (run s calls)) = false /\
  failsafe (fst (run s calls)) = true /\
  Forall (fun e => e = ShowArmedStatus false) (snd (run s calls)).
Proof.
  revert s. induction calls as [| i calls IH]; intros s Ha Hf.
  - simpl. auto.
  - destruct (checkReceiver_off i s Ha Hf) as (Ha1 & Hf1 & He1).
    simpl. destruct (checkReceiver i s) as [s1 e1].
    destruct (IH s1 Ha1 Hf1) as (Ha2 & Hf2 & He2).
    destruct (run s1 calls) as [s2 e2]. simpl in *.
    repeat split; try assumption. now apply Forall_app.
Qed.

(** X18. [checkReceiver]: a lost signal while armed cuts the motors,
    disarms and sets [failsafe], in that call; from then on, whatever the
    receiver reports, the vehicle is never armed again and the motors'
    [cut] is never called again: all that is still done is to show the
    armed status as off. *)
Theorem signal_loss_disarms_for_good
    (i : inputs) (s : state) (calls : list inputs) :
  lostSignal i = true -> armed s = true ->
  let s1 := fst (checkReceiver i s) in
  snd (checkReceiver i s) = [Cut; ShowArmedStatus false] /\
  armed s1 = false /\ failsafe s1 = true /\
  armed (fst (run s1 calls)) = false /\
  failsafe (fst (run s1 calls)) = true /\
  Forall (fun e => e = ShowArmedStatus false) (snd (run s1 calls)).
Proof.
  intros Hl Ha. unfold checkReceiver. rewrite Hl, Ha. cbn [andb fst snd].
  repeat (split; [reflexivity |]).
  now apply run_off.
Qed.

Lemma signal_loss_disarms_for_good_witness :
  armed (fst (run (fst (checkReceiver
                          {| lostSignal := true; ready := true;
                             inArmedState := true; inactive := false;
                             safePhi := true; safeTheta := true |}
                          {| armed := true; failsafe := false;
                             safeToArm := true |}))
                [{| lostSignal := false; ready := true;
                    inArmedState := false; inactive := true;
                    safePhi := true; safeTheta := true |};
                 {| lostSignal := false; ready := true;
                    inArmedState := true; inactive := true;
                    safePhi := true; safeTheta := true |}]))
  = false.
Proof.
  exact (proj1 (proj2 (proj2 (proj2
           (signal_loss_disarms_for_good
              {| lostSignal := true; ready := true;
                 inArmedState := true; inactive := false;
                 safePhi := true; safeTheta := true |}
              {| armed := true; failsafe := false; safeToArm := true |}
              [{| lostSignal := false; ready := true;
                  inArmedState := false; inactive := true;
                  safePhi := true; safeTheta := true |};
               {| lostSignal := false; ready := true;
                  inArmedState := true; inactive := true;
                  safePhi := true; safeTheta := true |}]
              eq_refl eq_refl))))).
Defined.

(** One call from a disarmed state without the switch seen off. *)
Lemma checkReceiver_guard (i : inputs) (s : state) :
  armed s = false -> safeToArm s = false ->
  armed (fst (checkReceiver i s)) = false /\
  safeToArm (fst (checkReceiver i s))
  = ready i && negb (inArmedState i).
Proof.
  intros Ha Hs. unfold checkReceiver. rewrite Ha, Hs.
  rewrite andb_false_r.
  destruct (ready i); cbn [negb fst armed safeToArm andb];
    [| now split].
  destruct (inArmedState i); cbn [negb andb]; [now split |].
  rewrite !andb_false_r. now split.
Qed.

Lemma run_guard (calls : list inputs) (s : state) :
  armed s = false -> safeToArm s = false ->
  Forall (fun i => ready i = true -> inArmedState i = true) calls ->
  armed (fst (run s calls)) = false /\
  safeToArm (fst (run s calls)) = false.
Proof.
  revert s. induction calls as [| i calls IH]; intros s Ha Hs Hall.
  - simpl. auto.
  - apply Forall_cons in Hall as [Hi Hall].
    destruct (checkReceiver_guard i s Ha Hs) as (Ha1 & Hs1).
    assert (Hs1' : safeToArm (fst (checkReceiver i s)) = false).
    { rewrite Hs1. destruct (ready i); [| reflexivity].
      now rewrite Hi. }
    simpl. destruct (checkReceiver i s) as [s1 e1].
    destruct (IH s1 Ha1 Hs1' Hall) as (Ha2 & Hs2).
    destruct (run s1 calls) as [s2 e2]. simpl in *. auto.
Qed.

(** X19. [checkReceiver] arms only in a call in which the receiver is
    ready and inactive (throttle down), the arming switch is on, no
    fail-safe has occurred, both angles are safe and the switch had been
    seen off before; that call also cuts the motors and shows the armed
    status as on.  And from the state [begin] leaves, as long as the
    switch is on whenever the receiver is ready, the vehicle stays
    disarmed. *)
Theorem checkReceiver_arming_gate
    (i : inputs) (s : state) (calls : list inputs) :
  armed s = false ->
  (armed (fst (checkReceiver i s)) = true ->
   ready i = true /\ inactive i = true /\ inArmedState i = true /\
   failsafe s = false /\ safePhi i = true /\ safeTheta i = true /\
   safeToArm s = true /\
   snd (checkReceiver i s) = [Cut; ShowArmedStatus true]) /\
  (Forall (fun i => ready i = true -> inArmedState i = true) calls ->
   armed (fst (run start calls)) = false).
Proof.
  intros Ha. split.
  - unfold checkReceiver. rewrite Ha, andb_false_r.
    destruct (ready i); cbn [negb fst snd armed andb];
      [| intros H; congruence].
    destruct (safeToArm s), (inactive i), (inArmedState i), (failsafe s),
      (safePhi i), (safeTheta i); cbn; intros H; try discriminate;
      repeat split.
  - intros Hall. now apply run_guard.
Qed.

Lemma checkReceiver_arming_gate_witness :
  armed (fst (run start
                [{| lostSignal := false; ready := true;
                    inArmedState := true; inactive := true;
                    safePhi := true; safeTheta := true |};
                 {| lostSignal := false; ready := false;
                    inArmedState := false; inactive := true;
                    safePhi := true; safeTheta := true |};
                 {| lostSignal := false; ready := true;
                    inArmedState := true; inactive := true;
                    safePhi := true; safeTheta := true |}]))
  = false.
Proof.
  refine (proj2 (checkReceiver_arming_gate
                   {| lostSignal := false; ready := false;
                      inArmedState := false; inactive := false;
                      safePhi := false; safeTheta := false |}
                   start _ eq_refl) _).
  repeat constructor; simpl; congruence.
Defined.

End HackflightFacts.

(** * The motor device (motor.c) *)

Section MotorFacts.
Import Motor.

Lemma apply_off (o : op) (d : motorDevice_t) :
  initialized d = false -> enabled d = false ->
  initialized (fst (apply d o)) = false /\
  enabled (fst (apply d o)) = false /\
  forallb is_off_call (snd (apply d o)) = true.
Proof.
  intros Hi He. destruct o; simpl; unfold motorEnable, motorWrite;
    rewrite ?Hi, ?He; simpl; auto.
Qed.

Lemma apply_keeps (o : op) (d : motorDevice_t) :
  (enabled d = true -> initialized d = true) ->
  (enabled (fst (apply d o)) = true ->
   initialized (fst (apply d o)) = true) /\
  count (fst (apply d o)) = count d /\
  vTable (fst (apply d o)) = vTable d /\
  (enabled d = false -> enabled (fst (apply d o)) = true ->
   is_enabling o = true /\ vTable d = deviceVTable).
Proof.
  intros Hinv. destruct o as [| | millis answer | values answer]; simpl.
  - repeat split; try discriminate.
  - repeat split; try discriminate.
  - unfold motorEnable. destruct (initialized d) eqn:Hi.
    + destruct (vTable d) eqn:Hv; simpl.
      * repeat split; auto; intros; congruence.
      * destruct answer; simpl; repeat split; auto; intros; congruence.
    + simpl. intuition congruence.
  - intuition congruence.
Qed.

(** X20. A motor device that is not initialised and not enabled (the
    null device [motorInit] falls back to, or any device after
    [motorShutdown]) stays so whatever is called afterwards: its table is
    never asked to enable, to start an update or to write a value; only
    [shutdown] and [disable] calls reach it. *)
Theorem motor_off_stays_off (d : motorDevice_t) (ops : list op) :
  initialized d = false -> enabled d = false ->
  initialized (fst (run d ops)) = false /\
  enabled (fst (run d ops)) = false /\
  forallb is_off_call (snd (run d ops)) = true.
Proof.
  revert d. induction ops as [| o ops IH]; intros d Hi He.
  - simpl. auto.
  - destruct (apply_off o d Hi He) as (Hi1 & He1 & Hc1).
    simpl. destruct (apply d o) as [d1 c1].
    destruct (IH d1 Hi1 He1) as (Hi2 & He2 & Hc2).
    destruct (run d1 ops) as [d2 c2]. simpl in *.
    repeat split; try assumption.
    rewrite forallb_app, Hc1, Hc2. reflexivity.
Qed.

Lemma motor_off_stays_off_witness :
  forallb is_off_call
    (snd (run (fst (motorShutdown
                      (motorInit (Some motorNullDevice) 4)))
            [OpEnable 10 true; OpWrite (fun _ => F32.of_Z 0) true;
             OpDisable])) = true.
Proof.
  exact (proj2 (proj2
           (motor_off_stays_off
              (fst (motorShutdown (motorInit (Some motorNullDevice) 4)))
              [OpEnable 10 true; OpWrite (fun _ => F32.of_Z 0) true;
               OpDisable]
              eq_refl eq_refl))).
Defined.

(** X21. From the device [motorInit] sets up, whatever is called: the
    motor count stays the one given to [motorInit] (for a real device), an
    enabled device is an initialised one with a real table, and it has
    been enabled by a [motorEnable] call that the table answered with
    true. *)
Theorem motor_enabled_initialized
    (dev : option motorDevice_t) (motorCount : nat) (ops : list op) :
  let d := fst (run (motorInit dev motorCount) ops) in
  (dev <> None -> count d = motorCount) /\
  (enabled d = true ->
   initialized d = true /\ vTable d = deviceVTable /\
   existsb is_enabling ops = true).
Proof.
  assert (H : forall ops d,
            (enabled d = true -> initialized d = true) ->
            count (fst (run d ops)) = count d /\
            vTable (fst (run d ops)) = vTable d /\
            (enabled (fst (run d ops)) = true ->
             initialized (fst (run d ops)) = true) /\
            (enabled d = false -> enabled (fst (run d ops)) = true ->
             existsb is_enabling ops = true /\ vTable d = deviceVTable)).
  { clear. induction ops as [| o ops' IH]; intros d Hinv.
    - simpl. repeat split; auto; intros; congruence.
    - destruct (apply_keeps o d Hinv) as (Hinv1 & Hc1 & Hv1 & Hen1).
      simpl. destruct (apply d o) as [d1 c1].
      destruct (IH d1 Hinv1) as (Hc2 & Hv2 & Hinv2 & Hen2).
      destruct (run d1 ops') as [d2 c2]. simpl in *.
      split; [congruence |]. split; [congruence |].
      split; [assumption |].
      intros Hoff Hon. destruct (enabled d1) eqn:E1.
      + destruct (Hen1 Hoff eq_refl) as [-> Hv]. now split.
      + destruct (Hen2 eq_refl Hon) as [-> Hv].
        split; [apply orb_true_r | congruence]. }
  intros d.
  destruct (H ops (motorInit dev motorCount)) as (Hc & Hv & Hinv & Hen).
  { destruct dev; simpl; discriminate. }
  fold d in Hc, Hv, Hinv, Hen. split.
  - intros Hdev. rewrite Hc. destruct dev; [reflexivity | congruence].
  - intros Hon. split; [now apply Hinv |].
    destruct Hen as [Hex Hvd]; [destruct dev; reflexivity | assumption |].
    split; [congruence | assumption].
Qed.

Lemma motor_enabled_initialized_witness :
  count (fst (run (motorInit
                     (Some {| initialized := false; enabled := false;
                              motorEnableTimeMs := 0; count := 0;
                              vTable := deviceVTable |}) 4)
                [OpEnable 10 true; OpWrite (fun _ => F32.of_Z 0) true;
                 OpDisable; OpEnable 20 false]))
  = 4%nat.
Proof.
  refine (proj1 (motor_enabled_initialized
                   (Some {| initialized := false; enabled := false;
                            motorEnableTimeMs := 0; count := 0;
                            vTable := deviceVTable |}) 4
                   [OpEnable 10 true; OpWrite (fun _ => F32.of_Z 0) true;
                    OpDisable; OpEnable 20 false]) _).
  discriminate.
Defined.

End MotorFacts.

(** * The SPI clock divider (spi.c) *)

Section SpiFacts.
Import Spi.

(** The core clock in Hz. *)
Variable SystemCoreClock : Z.

Lemma divider_loop_spec (n : nat) (fuel : nat) (k : Z) (freq : Z) :
  k = 8 - Z.of_nat n -> (n <= 7)%nat -> (n <= fuel)%nat ->
  (1 < k -> freq < SystemCoreClock / 2 / 2 ^ (k - 1)) ->
  exists k', k <= k' <= 8 /\
    divider_loop fuel (SystemCoreClock / 2 / 2 ^ k) (2 ^ k) freq
    = Some (2 ^ k') /\
    (k' < 8 -> SystemCoreClock / 2 / 2 ^ k' <= freq) /\
    (1 < k' -> freq < SystemCoreClock / 2 / 2 ^ (k' - 1)).
Proof.
  revert fuel k. induction n as [| n IH]; intros fuel k Hk Hn Hf Hprev.
  - exists k. split; [lia |]. split; [| split; [lia | assumption]].
    replace k with 8 by lia. change (2 ^ 8) with 256.
    destruct fuel; cbn [divider_loop]; rewrite Z.ltb_irrefl, andb_false_r;
      reflexivity.
  - assert (Hk1 : 1 <= k <= 7) by lia.
    destruct ((freq <? SystemCoreClock / 2 / 2 ^ k) && (2 ^ k <? 256))
      eqn:Hcond.
    + destruct fuel as [| fuel]; [lia |].
      destruct (IH fuel (k + 1)) as (k' & Hk' & E & Hle & Hmin);
        try lia.
      { intros _. replace (k + 1 - 1) with k by lia.
        apply andb_true_iff in Hcond as [Hlt _].
        now apply Z.ltb_lt in Hlt. }
      exists k'. split; [lia |]. split; [| now split].
      cbn [divider_loop]. rewrite Hcond.
      rewrite Z.shiftr_div_pow2, Z.shiftl_mul_pow2 by lia.
      rewrite Z.div_div by (try apply Z.pow_pos_nonneg; lia).
      change (2 ^ 1) with 2.
      replace (2 ^ k * 2) with (2 ^ (k + 1))
        by (rewrite Z.pow_add_r by lia; reflexivity).
      rewrite to_uint16_small; [exact E |].
      assert (2 ^ (k + 1) <= 2 ^ 8) by (apply Z.pow_le_mono_r; lia).
      assert (0 < 2 ^ (k + 1)) by (apply Z.pow_pos_nonneg; lia).
      change (2 ^ 8) with 256 in *. lia.
    + exists k. split; [lia |]. split; [| split; [| assumption]].
      * destruct fuel; cbn [divider_loop]; rewrite Hcond; reflexivity.
      * intros Hk8. apply andb_false_iff in Hcond as [Hc | Hc].
        -- apply Z.ltb_ge in Hc. assumption.
        -- apply Z.ltb_ge in Hc.
           assert (2 ^ k <= 2 ^ 7) by (apply Z.pow_le_mono_r; lia).
           change (2 ^ 7) with 128 in *. lia.
Qed.

(** X22. [spiCalculateDivider] stops within seven turns of its loop and
    returns a power of two from 2 to 256.  Unless it is 256, the bus
    clock it gives, [SystemCoreClock / 2] over the divisor, is at most
    the frequency asked for; and unless it is 2, half the divisor would
    give a clock above that frequency: it is the smallest such divisor. *)
Theorem spiCalculateDivider_smallest (fuel : nat) (freq : Z) :
  (7 <= fuel)%nat ->
  exists k, 1 <= k <= 8 /\
    spiCalculateDivider SystemCoreClock fuel freq = Some (2 ^ k) /\
    (k < 8 -> SystemCoreClock / 2 / 2 ^ k <= freq) /\
    (1 < k -> freq < SystemCoreClock / 2 / 2 ^ (k - 1)).
Proof.
  intros Hfuel. unfold spiCalculateDivider.
  rewrite Z.shiftr_div_pow2 by lia.
  destruct (divider_loop_spec 7 fuel 1 freq) as (k & Hk & E & H1 & H2);
    try lia.
  exists k. repeat split; try lia; assumption.
Qed.

End SpiFacts.

Lemma spiCalculateDivider_smallest_witness :
  exists k, 1 <= k <= 8 /\
    Spi.spiCalculateDivider 168000000 7 10000000 = Some (2 ^ k) /\
    (k < 8 -> 168000000 / 2 / 2 ^ k <= 10000000) /\
    (1 < k -> 10000000 < 168000000 / 2 / 2 ^ (k - 1)).
Proof.
  apply (spiCalculateDivider_smallest 168000000); lia.
Defined.

(** * Framing: where a frame ends (src/parser.hpp) *)

Section FramingFacts.
Import Msp MspIo.

(** The state after a call is that of the transition function. *)
Lemma parse_state
    (p : parser_t) (s : stream_t) (buf : list Z) (bi : Z)
    (phi theta psi : F32.float) :
  parser_state_ (parser_parse p s buf bi phi theta psi).1
  = next_state p (stream_serialByte s).
Proof.
  unfold parser_parse. cbv zeta. repeat case_match; reflexivity.
Qed.

(** The byte that ends a frame: the parser is in state 5 and does not take
    the byte as payload. *)
Lemma frame_end
    (p : parser_t) (r : result_t) (phi theta psi : F32.float) (c : Z) :
  parser_state_ p = 5 -> in_payload p c = false ->
  let out := parser_parse p (serial c) (r_buffer r) (r_buffer_index r)
               phi theta psi in
  parser_state_ out.1 = 0 /\
  (c <> crc_ p ->
   r_buffer_size out.2 = buffer_size_ p /\
   buffer_size_ out.1 = buffer_size_ p /\
   r_buffer_index out.2 = r_buffer_index r).
Proof.
  intros E5 Hin out. split.
  - unfold out. rewrite parse_state. unfold next_state.
    cbn [stream_serialByte serial]. rewrite Hin, E5. reflexivity.
  - intros Hc.
    assert (Hr : ready_of p (serial c) = false).
    { unfold ready_of, crc_next. cbn [stream_serialByte serial].
      rewrite E5, Hin. change (5 =? 3) with false.
      change (5 =? 4) with false. change (5 =? 5) with true. cbv iota.
      apply Z.eqb_neq in Hc. rewrite Z.eqb_sym in Hc. rewrite Hc.
      apply andb_false_r. }
    unfold out. rewrite (parse_quiet p (serial c) _ _ phi theta psi Hr).
    unfold advance. cbn [fst snd r_buffer_size r_buffer_index buffer_size_].
    repeat split.
Qed.

(** A whole frame fed to an idle parser, up to the byte that ends it. *)
Lemma frame_fed
    (p : parser_t) (r0 : result_t) (phi theta psi : F32.float)
    (dir n t c : Z) (payload : list Z) :
  parser_state_ p = 0 -> dir = 60 \/ dir = 62 ->
  (t < 200 /\ payload = []) \/
  (200 <= t /\ n = Z.of_nat (length payload) /\
   (length payload <= 254)%nat /\
   (length payload <= length (r_buffer r0))%nat) ->
  let out := feed p r0 phi theta psi
               (map serial (request dir n t payload ++ [c])) in
  parser_state_ out.1 = 0 /\
  (c <> xor_all (n :: t :: payload) ->
   r_buffer_size out.2 = buffer_size_ p /\
   buffer_size_ out.1 = buffer_size_ p /\
   r_buffer_index out.2 = r_buffer_index r0).
Proof.
  intros Hs Hd Hcase out. subst out. unfold request.
  rewrite !map_app, <- app_assoc, feed_app.
  rewrite (header_fed p r0 phi theta psi dir n t Hs Hd).
  cbn [fst snd].
  set (p5 := {| parser_state_ := 5 |}).
  set (r5 := {| r_buffer := r_buffer r0 |}).
  destruct Hcase as [[Ht ->] | (Ht & Hn & H254 & Hfit)].
  - cbn [map app feed].
    assert (Hin : in_payload p5 c = false).
    { unfold in_payload. cbn [p5 type_].
      replace (200 <=? t) with false by (symmetry; apply Z.leb_gt; lia).
      reflexivity. }
    pose proof (frame_end p5 r5 phi theta psi c eq_refl Hin) as Hend.
    cbv zeta in Hend.
    destruct (parser_parse p5 (serial c) (r_buffer r5) (r_buffer_index r5)
                phi theta psi) as [p6 r6].
    destruct Hend as [H0 Hq].
    cbn [fst snd] in *. split; [exact H0 |].
    intros Hc. apply Hq. cbn [p5 crc_].
    unfold xor_all in Hc. cbn [foldl] in Hc.
    now rewrite Z.lxor_0_l in Hc.
  - rewrite feed_app.
    destruct (payload_fed phi theta psi payload p5 r5 0)
      as (A1 & A2 & A3 & A4 & A5 & A6 & A7 & A8);
      try reflexivity; try (cbn; lia).
    cbn [p5 r5 type_ size_ crc_ buffer_size_ r_buffer r_buffer_index
         take app Nat.add] in A2, A3, A4, A5, A6, A7, A8.
    destruct (feed p5 r5 phi theta psi (map serial payload)) as [pn rn].
    cbn [fst snd] in *. cbn [map feed].
    assert (Hin : in_payload pn c = false).
    { unfold in_payload, index_next, size_next. rewrite A1, A3, A4.
      change (5 =? 5) with true. change (5 =? 3) with false. cbv iota.
      rewrite to_uint8_small by lia.
      replace (Z.of_nat (length payload) + 1 <=? n) with false
        by (symmetry; apply Z.leb_gt; lia).
      apply andb_false_r. }
    pose proof (frame_end pn rn phi theta psi c A1 Hin) as Hend.
    cbv zeta in Hend. destruct Hend as [H0 Hq].
    destruct (parser_parse pn (serial c) (r_buffer rn) (r_buffer_index rn)
                phi theta psi) as [p6 r6].
    cbn [fst snd] in *. split; [exact H0 |].
    intros Hc.
    destruct Hq as (Q1 & Q2 & Q3).
    { rewrite A5. unfold xor_all in Hc. cbn [foldl] in Hc.
      now rewrite Z.lxor_0_l in Hc. }
    rewrite Q1, Q2, Q3, A6, A8. repeat split.
Qed.

(** With the length byte 255 an inbound frame never ends: the 8-bit index
    cannot pass the length, every byte is taken as payload and the parser
    stays in state 5. *)
Lemma length_255_never_ends (p : parser_t) (byte : Z) :
  parser_state_ p = 5 -> 200 <= type_ p -> size_ p = 255 ->
  in_payload p byte = true /\ next_state p byte = 5.
Proof.
  intros E5 Ht Hsz.
  assert (Hin : in_payload p byte = true).
  { unfold in_payload, index_next, size_next. rewrite E5, Hsz.
    change (5 =? 5) with true. change (5 =? 3) with false. cbv iota.
    pose proof (to_uint8_range (index_ p + 1)).
    apply andb_true_iff. split; [apply andb_true_iff; split |].
    - apply Z.leb_le. lia.
    - reflexivity.
    - apply Z.leb_le. lia. }
  split; [exact Hin |].
  unfold next_state. rewrite Hin, E5. reflexivity.
Qed.

(** C9 (amended): the parser has the six states 0 to 5.  A byte that breaks
    the header in state 0, 1 or 2 leaves the state where it is.  In state 5
    a byte that is not taken as payload returns the parser to state 0, and
    when it is not the running XOR no reply is serialised.  A call that
    serialises no reply leaves the out buffer size, its checksum and the
    read index alone, and writes the buffer only to store an inbound
    payload byte.  Fed to an idle parser, a frame of a type below 200 ends
    on the first byte after the type, and an inbound frame (type 200 and
    above) whose length byte is at most 254 ends on the byte after its
    payload: the parser is back in state 0, and when that byte is not the
    XOR of length, type and payload, the size reported and the read index
    are as before the frame. *)
Theorem parser_framing
    (p : parser_t) (s : stream_t) (buf : list Z) (bi : Z)
    (phi theta psi : F32.float) :
  let byte := stream_serialByte s in
  let p' := (parser_parse p s buf bi phi theta psi).1 in
  let r := (parser_parse p s buf bi phi theta psi).2 in
  (0 <= parser_state_ p <= 5 -> 0 <= parser_state_ p' <= 5) /\
  (parser_state_ p = 0 -> byte <> 36 -> parser_state_ p' = 0) /\
  (parser_state_ p = 1 -> byte <> 77 -> parser_state_ p' = 1) /\
  (parser_state_ p = 2 -> byte <> 60 -> byte <> 62 -> parser_state_ p' = 2) /\
  (parser_state_ p = 5 -> in_payload p byte = false ->
     parser_state_ p' = 0 /\ (byte <> crc_ p -> ready_of p s = false)) /\
  (parser_state_ p = 5 ->
     in_payload p byte
     = (200 <=? type_ p) && (to_uint8 (index_ p + 1) <=? size_ p)) /\
  (ready_of p s = false ->
     buffer_size_ p' = buffer_size_ p /\
     buffer_checksum_ p' = buffer_checksum_ p /\
     r_buffer_size r = buffer_size_ p /\
     r_buffer_index r = bi /\
     r_buffer r
     = if in_payload p byte
       then <[Z.to_nat (to_uint8 (index_next p - 1)) := byte]> buf
       else buf) /\
  (forall (r0 : result_t) (dir n t c : Z) (payload : list Z),
     parser_state_ p = 0 -> dir = 60 \/ dir = 62 ->
     (t < 200 /\ payload = []) \/
     (200 <= t /\ n = Z.of_nat (length payload) /\
      (length payload <= 254)%nat /\
      (length payload <= length (r_buffer r0))%nat) ->
     let out := feed p r0 phi theta psi
                  (map serial (request dir n t payload ++ [c])) in
     parser_state_ out.1 = 0 /\
     (c <> xor_all (n :: t :: payload) ->
      r_buffer_size out.2 = buffer_size_ p /\
      buffer_size_ out.1 = buffer_size_ p /\
      r_buffer_index out.2 = r_buffer_index r0)).
Proof.
  intros byte p' r.
  assert (Hst : parser_state_ p' = next_state p byte)
    by (subst p'; apply parse_state).
  rewrite Hst.
  destruct (next_state_cases p byte) as (H0 & H1 & H2 & H3 & H5).
  split; [exact H0 | split; [exact H1 | split; [exact H2 | split; [exact H3 |]]]].
  split; [| split; [| split]].
  - intros E5 Hin. split; [now apply H5 |].
    intros Hc. unfold ready_of, crc_next. fold byte.
    rewrite E5, Hin. change (5 =? 3) with false. change (5 =? 4) with false.
    change (5 =? 5) with true. cbv iota.
    apply Z.eqb_neq in Hc. rewrite Z.eqb_sym in Hc. rewrite Hc.
    apply andb_false_r.
  - intros E5. unfold in_payload, index_next, size_next. rewrite E5.
    change (5 =? 5) with true. change (5 =? 3) with false. cbv iota.
    now rewrite andb_true_r.
  - intros Hr. exact (parse_idle p s buf bi phi theta psi Hr).
  - intros r0 dir n t c payload. apply frame_fed.
Qed.

(** A sample run for [parser_framing]: the motor frame of type 215 with
    the payload 1, 50 and the wrong checksum 0 (the XOR is 230).  The
    parser is back in state 0, the size reported is still 0 and so is the
    read index. *)
Lemma parser_framing_witness :
  let z := F32.of_Z 0 in
  let out := feed parser_init result_init z z z
               (map serial (request 60 2 215 [1; 50] ++ [0])) in
  xor_all [2; 215; 1; 50] = 230 /\
  parser_state_ out.1 = 0 /\
  r_buffer_size out.2 = 0 /\
  r_buffer_index out.2 = 0.
Proof.
  intros z out.
  assert (Hx : xor_all [2; 215; 1; 50] = 230) by reflexivity.
  assert (Hcase : (215 < 200 /\ [1; 50] = []) \/
                  (200 <= 215 /\ 2 = Z.of_nat (length [1; 50]) /\
                   (length [1; 50] <= 254)%nat /\
                   (length [1; 50] <= length (r_buffer result_init))%nat)).
  { right. repeat split; try reflexivity; try lia; vm_compute; lia. }
  assert (Hc : 0 <> xor_all [2; 215; 1; 50]) by (rewrite Hx; lia).
  destruct (parser_framing parser_init (serial 0) [] 0 z z z)
    as (_ & _ & _ & _ & _ & _ & _ & Hframe).
  destruct (Hframe result_init 60 2 215 0 [1; 50] eq_refl
              (or_introl eq_refl) Hcase) as [H0 Hq].
  destruct (Hq Hc) as (Q1 & _ & Q3).
  split; [exact Hx |]. split; [exact H0 |]. split; [exact Q1 | exact Q3].
Defined.

(** C9, as stated, fails on the two bytes [$] and [X]: the second breaks the
    header and the parser stays in state 1. *)
Lemma header_mismatch_counterexample :
  let z := F32.of_Z 0 in
  parser_state_
    (feed parser_init result_init z z z (map serial [36; 88])).1 = 1 /\
  parser_state_
    (feed parser_init result_init z z z (map serial [36; 88])).1 <> 0.
Proof.
  split; vm_compute; congruence.
Qed.

End FramingFacts.
